(** * libaccl: pattern of points and the hypersphere pattern

    A shallow embedding of [libaccl/pattern/points.hxx] and
    [libaccl/pattern/hypersphere.hxx] (the layered revision, class
    [hypersphere<Base_t> : points<Base_t, unsigned>] with [octant] and
    [symmetry]), followed by the properties of the two classes.

    - [Base_t] is a template parameter (an integral type); it is taken as
      [Z], i.e. an instantiation wide enough that no arithmetic wraps.
    - [unsigned] payloads and [size_t] indices are [nat].
    - [std::map<point_t, Payload_t>] is an association list kept in the
      order of [std::vector]'s [operator <] (lexicographic), which is the
      order in which the map is iterated.
    - [operator []] of [std::vector] is not bounds-checked; a read or a
      write past the end is a fault of the model ([out_of_range]), at which
      [hypersphere] ends the run.  The code makes one such read, of
      [layers[layers.size()]] in the layer-advance loop; the program as
      built finds some value there and goes on, which is [as_built].
    - [assert] is active; a failed assertion is a fault as well.
    - every loop is unrolled under a bound computed where the loop starts;
      [Diverged] is the outcome of a loop that would exceed its bound.

    Then [libaccl/hash/linear.hxx] (class [linear], the hash table with
    linear collision resolution) and the hash functions of its unit test
    [unit_test/hash/linear.cxx].

    - [size_t] is [nat], [ssize_t] is [Z].
    - the [ssize_t *] parameters of [get_index] are a flag (non-[NULL]) and
      the value of the variable pointed to, [None] until it is assigned.
    - the item type, its key type, the key accessor and the value of
      [Item_t()] are parameters; so is the value of [0.85 * size] after
      its conversion to [size_t].
    - [m_tab[index]] outside the table is a failure ([out_of_bounds]); the
      collision loop is unrolled under the size of the table. *)

From stdpp Require Import base numbers list strings.

(** ** Outcomes of a computation *)

Inductive fault : Type :=
  | assertion_failed (expr : string)
  | out_of_range (index size : nat)
  | runtime_error (what : string).

Inductive outcome (A : Type) : Type :=
  | Done (a : A)
  | Fault (f : fault)
  | Diverged.

Arguments Done {A} a.
Arguments Fault {A} f.
Arguments Diverged {A}.

(** ** [libaccl::pattern::points] *)
Module points.

Definition point_t : Type := list Z.

Definition set_t (Payload_t : Type) : Type := list (point_t * Payload_t).

(** [operator <] on [std::vector<Base_t>], as a three-way comparison. *)
Fixpoint point_compare (x y : point_t) : comparison :=
  match x, y with
  | [], [] => Eq
  | [], _ :: _ => Lt
  | _ :: _, [] => Gt
  | a :: x', b :: y' =>
      match (a ?= b)%Z with
      | Eq => point_compare x' y'
      | c => c
      end
  end.

Section with_payload.
Context {Payload_t : Type}.

(** [m_impl.find(point)]: the payload stands for the iterator, [None]
    for [end()]. *)
Fixpoint find (point : point_t) (m_impl : set_t Payload_t) : option Payload_t :=
  match m_impl with
  | [] => None
  | (q, w) :: rest =>
      match point_compare point q with
      | Eq => Some w
      | _ => find point rest
      end
  end.

(** The position a new key takes in the ordered container. *)
Fixpoint insert_ordered (point : point_t) (payload : Payload_t)
    (m_impl : set_t Payload_t) : set_t Payload_t :=
  match m_impl with
  | [] => [(point, payload)]
  | (q, w) :: rest =>
      match point_compare point q with
      | Gt => (q, w) :: insert_ordered point payload rest
      | _ => (point, payload) :: (q, w) :: rest
      end
  end.

(** [m_impl.emplace(point, payload)]: inserts unless the key exists. *)
Definition emplace (point : point_t) (payload : Payload_t)
    (m_impl : set_t Payload_t) : set_t Payload_t :=
  match find point m_impl with
  | Some _ => m_impl
  | None => insert_ordered point payload m_impl
  end.

(** [void set(point, payload)] *)
Definition set (point : point_t) (payload : Payload_t)
    (m_impl : set_t Payload_t) : set_t Payload_t :=
  emplace point payload m_impl.

(** [size_t size() const] *)
Definition size (m_impl : set_t Payload_t) : nat := length m_impl.

(** [begin() .. end()]: the associations in iteration order. *)
Definition iterate (m_impl : set_t Payload_t) : list (point_t * Payload_t) :=
  m_impl.

(** [get(point)] *)
Definition get (point : point_t) (m_impl : set_t Payload_t) : option Payload_t :=
  find point m_impl.

(** [operator & (point, set)]: [set.end() != set.get(point)] *)
Definition contains (point : point_t) (m_impl : set_t Payload_t) : bool :=
  match get point m_impl with
  | Some _ => true
  | None => false
  end.

(** [get_payload(point)]: throws [std::runtime_error] on a miss. *)
Definition get_payload (point : point_t) (m_impl : set_t Payload_t)
    : outcome Payload_t :=
  match get point m_impl with
  | None => Fault (runtime_error "libaccl::points::get_payload: no such point")
  | Some payload => Done payload
  end.

(** The public [const] interface, one constructor per member. *)
Inductive query : Type :=
  | q_size
  | q_iterate
  | q_get (point : point_t)
  | q_contains (point : point_t)
  | q_get_payload (point : point_t).

Inductive answer : Type :=
  | a_size (n : nat)
  | a_iterate (l : list (point_t * Payload_t))
  | a_get (it : option Payload_t)
  | a_contains (b : bool)
  | a_payload (payload : Payload_t).

Definition run_query (q : query) (m_impl : set_t Payload_t) : outcome answer :=
  match q with
  | q_size => Done (a_size (size m_impl))
  | q_iterate => Done (a_iterate (iterate m_impl))
  | q_get point => Done (a_get (get point m_impl))
  | q_contains point => Done (a_contains (contains point m_impl))
  | q_get_payload point =>
      match get_payload point m_impl with
      | Done payload => Done (a_payload payload)
      | Fault f => Fault f
      | Diverged => Diverged
      end
  end.

(** What [std::map] maintains: keys strictly increasing. *)
Fixpoint ordered (m_impl : set_t Payload_t) : Prop :=
  match m_impl with
  | [] => True
  | (q, _) :: rest =>
      match rest with
      | [] => True
      | (q', _) :: _ => point_compare q q' = Lt
      end /\ ordered rest
  end.

End with_payload.

End points.

(** ** [libaccl::pattern::hypersphere] *)
Module hypersphere.
Import points.

Definition store_t : Type := set_t nat.

(** Computations of the member functions: they run on the object's
    [m_impl] and either finish, fault or exceed a loop bound; the state
    reached is kept in each case. *)
Definition M (A : Type) : Type := store_t -> outcome A * store_t.

Definition ret {A} (a : A) : M A := fun this => (Done a, this).

Definition bind {A B} (m : M A) (k : A -> M B) : M B :=
  fun this =>
    match m this with
    | (Done a, this') => k a this'
    | (Fault f, this') => (Fault f, this')
    | (Diverged, this') => (Diverged, this')
    end.

Definition raise {A} (f : fault) : M A := fun this => (Fault f, this).

Definition diverge {A} : M A := fun this => (Diverged, this).

Notation "x <- m ;; k" := (bind m (fun x => k))
  (at level 100, m at next level, right associativity).
Notation "m ;; k" := (bind m (fun _ => k))
  (at level 100, right associativity).

(** [this->set(point, layer)] *)
Definition set_point (point : point_t) (layer : nat) : M unit :=
  fun this => (Done tt, set point layer this).

(** [const set_t points( *this )]: a copy of the container *)
Definition snapshot : M store_t := fun this => (Done this, this).

(** [assert(cond)] *)
Definition assert (cond : bool) (expr : string) : M unit :=
  if cond then ret tt else raise (assertion_failed expr).

(** [v[i]] read *)
Definition at_ {A} (v : list A) (i : nat) : M A :=
  match v !! i with
  | Some x => ret x
  | None => raise (out_of_range i (length v))
  end.

(** [v[i] = x] *)
Definition put {A} (v : list A) (i : nat) (x : A) : M (list A) :=
  if i <? length v then ret (<[i:=x]> v) else raise (out_of_range i (length v)).

(** [std::for_each(first, last, f)] *)
Fixpoint for_each {A} (l : list A) (f : A -> M unit) : M unit :=
  match l with
  | [] => ret tt
  | x :: rest => f x ;; for_each rest f
  end.

(** *** [octant], the 1D case (lines 140-160) *)

(** [while (layer < layers.size())
       if (radius <= layers[layer + 1]) layer++; else break;]
    The guard admits [layer + 1 = layers.size()]: the run ends here at that
    read; [as_built.advance] goes on with the value read. *)
Fixpoint advance (bound : nat) (layers : list Z) (radius : Z) (layer : nat)
    : M nat :=
  if layer <? length layers then
    match bound with
    | O => diverge
    | S bound' =>
        next <- at_ layers (layer + 1) ;;
        if (radius <=? next)%Z
        then advance bound' layers radius (layer + 1)
        else ret layer
    end
  else ret layer.

(** [while (radius > layers[layers.size() - 1]) { ... }] *)
Fixpoint line (bound : nat) (layers : list Z) (d : nat)
    (point : point_t) (radius : Z) (layer : nat) : M (point_t * nat) :=
  innermost <- at_ layers (length layers - 1) ;;
  if (innermost <? radius)%Z then
    match bound with
    | O => diverge
    | S bound' =>
        set_point point layer ;;
        x <- at_ point d ;;
        point <- put point d (x - 1)%Z ;;
        let radius := (radius - 1)%Z in
        layer <- advance (length layers - layer) layers radius layer ;;
        line bound' layers d point radius layer
    end
  else ret (point, layer).

Definition octant_1D (centre : point_t) (layers : list Z) (d : nat) : M unit :=
  let point := centre in
  let layer := 0 in
  radius <- at_ layers layer ;;
  x <- at_ point d ;;
  point <- put point d (x + radius)%Z ;;
  let innermost := default 0%Z (layers !! (length layers - 1)) in
  pl <- line (Z.to_nat (radius - innermost)) layers d point radius layer ;;
  let '(point, layer) := pl in
  let layer := if layer =? 0 then layer else layer - 1 in
  set_point point layer.

(** *** [octant], slicing (lines 162-202) *)

(** [radii.pop_back()] *)
Definition pop_back (radii : list Z) : list Z := removelast radii.

(** [for (; i < radii.size(); radii.pop_back());] *)
Definition pop_down_to (i : nat) (radii : list Z) : list Z :=
  Nat.iter (length radii - i) pop_back radii.

(** [for (size_t i = 0; i < radii.size(); ++i) { ... }], from index [i] *)
Fixpoint shrink (bound : nat) (d_diff : Z) (i : nat)
    (radii criteria : list Z) : M (list Z * list Z) :=
  if i <? length radii then
    match bound with
    | O => diverge
    | S bound' =>
        r_i <- at_ radii i ;;
        let delta := (r_i - d_diff)%Z in
        if (delta <=? 0)%Z then
          ri <-
            (if 0 <? i then
               r_prev <- at_ radii (i - 1) ;;
               if (r_i + 1 <=? r_prev)%Z then
                 radii <- (if (delta =? 0)%Z then ret radii
                           else put radii i (r_i + 1)%Z) ;;
                 ret (radii, i + 1)
               else ret (radii, i)
             else ret (radii, i)) ;;
          let '(radii, i) := ri in
          ret (pop_down_to i radii, criteria)
        else
          c_i <- at_ criteria i ;;
          rc <-
            (if (0 <? c_i)%Z then
               radii <- put radii i (r_i - 1)%Z ;;
               ret (radii, (d_diff - (r_i - 1))%Z)
             else ret (radii, d_diff)) ;;
          let '(radii, chi) := rc in
          let chi := Z.shiftl chi 2 in
          criteria <- put criteria i (c_i + (chi + 1))%Z ;;
          shrink bound' d_diff (i + 1) radii criteria
    end
  else ret (radii, criteria).

(** [while (!radii.empty()) { ... }]; [octant_next] is the recursive
    call [octant(slice_centre, radii, d + 1)]. *)
Fixpoint slices (bound : nat) (octant_next : point_t -> list Z -> M unit)
    (centre : point_t) (d : nat) (slice_centre : point_t) (d_diff : Z)
    (radii criteria : list Z) : M unit :=
  match radii with
  | [] => ret tt
  | _ :: _ =>
      match bound with
      | O => diverge
      | S bound' =>
          c_d <- at_ centre d ;;
          slice_centre <- put slice_centre d (c_d + d_diff)%Z ;;
          octant_next slice_centre radii ;;
          let d_diff := (d_diff + 1)%Z in
          rc <- shrink (length radii) d_diff 0 radii criteria ;;
          let '(radii, criteria) := rc in
          slices bound' octant_next centre d slice_centre d_diff radii criteria
      end
  end.

(** [std::for_each(layers.begin(), layers.end(), ...)] filling [radii]
    and [criteria] by [push_back]. *)
Definition fill (layers : list Z) : list Z * list Z :=
  fold_left
    (fun rc radius => (rc.1 ++ [radius], rc.2 ++ [(1 - radius)%Z]))
    layers ([], []).

(** [void octant(centre, layers, d)]; [depth] bounds the recursion. *)
Fixpoint octant (depth : nat) (centre : point_t) (layers : list Z) (d : nat)
    : M unit :=
  assert (d <? length centre) "d < centre.size()" ;;
  assert (0 <? length layers) "0 < layers.size()" ;;
  if length centre - 1 =? d then octant_1D centre layers d
  else
    match depth with
    | O => diverge
    | S depth' =>
        let d_diff := 0%Z in
        let '(radii, criteria) := fill layers in
        let slice_centre := centre in
        slices (Z.to_nat (Z.max 1 (default 0%Z (radii !! 0))))
          (fun slice_centre radii => octant depth' slice_centre radii (d + 1))
          centre d slice_centre d_diff radii criteria
    end.

(** *** [symmetry] (lines 210-246) *)

Definition diagonal (dimension d : nat) : M unit :=
  let b := (d + 1) mod dimension in
  points <- snapshot ;;
  for_each points (fun x_layer =>
    x_d <- at_ x_layer.1 d ;;
    x_b <- at_ x_layer.1 b ;;
    if decide (x_d ≠ x_b) then
      let y := x_layer.1 in
      tmp <- at_ y d ;;
      y_b <- at_ y b ;;
      y <- put y d y_b ;;
      y <- put y b tmp ;;
      set_point y x_layer.2
    else ret tt).

Definition axial (d : nat) : M unit :=
  points <- snapshot ;;
  for_each points (fun x_layer =>
    x_d <- at_ x_layer.1 d ;;
    if decide (0%Z ≠ x_d) then
      let y := x_layer.1 in
      y_d <- at_ y d ;;
      y <- put y d (- y_d)%Z ;;
      set_point y x_layer.2
    else ret tt).

Definition symmetry (dimension : nat) : M unit :=
  for_each (seq 0 dimension) (diagonal dimension) ;;
  for_each (seq 0 dimension) axial.

(** *** The constructor (lines 256-265), run on an empty [m_impl] *)
Definition construct (dimension : nat) (layers : list Z) : M unit :=
  assert (0 <? dimension) "0 < dimension" ;;
  let zero := replicate dimension 0%Z in
  octant dimension zero layers 0 ;;
  symmetry dimension.

Definition hypersphere (dimension : nat) (layers : list Z)
    : outcome unit * store_t :=
  construct dimension layers [].

End hypersphere.

Import points hypersphere.

(** ** Vocabulary of the statements *)

(** Layer radii [r_0 >= r_1 >= ... >= r_{k-1} >= 0], [k >= 1]. *)
Definition non_increasing (layers : list Z) : Prop :=
  forall i x y, layers !! i = Some x -> layers !! (S i) = Some y -> (y <= x)%Z.

Definition valid_layers (layers : list Z) : Prop :=
  layers <> [] /\ non_increasing layers /\ Forall (fun r => (0 <= r)%Z) layers.

(** Square of the Euclidean norm of a point. *)
Definition norm2 (p : point_t) : Z := foldr (fun x acc => (x * x + acc)%Z) 0%Z p.

(** The eight images of [(x, y)] under coordinate swap and sign flips. *)
Definition reflections8 (x y : Z) : list point_t :=
  [ [x; y]; [(- x)%Z; y]; [x; (- y)%Z]; [(- x)%Z; (- y)%Z];
    [y; x]; [(- y)%Z; x]; [y; (- x)%Z]; [(- y)%Z; (- x)%Z] ].

(** [y] after [tmp = y[d]; y[d] = y[b]; y[b] = tmp]. *)
Definition swap_coords (d b : nat) (y : list Z) : list Z :=
  match y !! d, y !! b with
  | Some y_d, Some y_b => <[b:=y_d]> (<[d:=y_b]> y)
  | _, _ => y
  end.

(** [y] after [y[d] = -y[d]]. *)
Definition negate_coord (d : nat) (y : list Z) : list Z :=
  match y !! d with
  | Some y_d => <[d:=(- y_d)%Z]> y
  | None => y
  end.

(** Bounds of the loops and outcomes. *)
Definition only_out_of_range (o : option fault) : Prop :=
  exists i n, o = Some (out_of_range i n).

Definition overrun (n : nat) (o : option fault) : Prop :=
  o = Some (out_of_range n n).

Definition anything (o : option fault) : Prop := True.

(** No read or write past the end of a vector. *)
Definition in_bounds (o : option fault) : Prop :=
  forall i n, o <> Some (out_of_range i n).

(** The outer radius [r0] exceeds the innermost radius [inn], which no
    radius of the list is below. *)
Definition graded (layers : list Z) (r0 inn : Z) : Prop :=
  layers !! 0 = Some r0 /\ layers !! (length layers - 1) = Some inn /\
  (inn < r0)%Z /\ forall j x, layers !! j = Some x -> (inn <= x)%Z.

(** Every stored payload is layer 0. *)
Definition all_layer_0 (this : store_t) : Prop := Forall (fun pv => pv.2 = 0) this.

(** One step of the midpoint circle algorithm on radius [r] and criterion
    [c] at slice offset [d_diff]. *)
Definition midpoint_radius (c r : Z) : Z := if (0 <? c)%Z then (r - 1)%Z else r.

Definition midpoint_criterion (d_diff c r : Z) : Z :=
  (c + (Z.shiftl (if (0 <? c)%Z then d_diff - (r - 1) else d_diff) 2 + 1))%Z.

(** Bulk insertion of a list of associations, first write wins. *)
Definition merge (this : store_t) (images : list (point_t * nat)) : store_t :=
  fold_left (fun acc yv => set yv.1 yv.2 acc) images this.

(** The swapped copies a diagonal pass makes of the points of [snapshot]. *)
Definition diagonal_images (d b : nat) (snapshot : store_t) : list (point_t * nat) :=
  omap (fun xl => if decide (xl.1 !! d = xl.1 !! b) then None
                  else Some (swap_coords d b xl.1, xl.2)) snapshot.

(** The negated copies an axial pass makes of the points of [snapshot]. *)
Definition axial_images (d : nat) (snapshot : store_t) : list (point_t * nat) :=
  omap (fun xl => if decide (xl.1 !! d = Some 0%Z) then None
                  else Some (negate_coord d xl.1, xl.2)) snapshot.

(** [triple I m Q E]: from a state satisfying [I], [m] ends in a state
    satisfying [I]; a result satisfies [Q]; a fault [Some f] or an exceeded
    bound [None] satisfies [E]. *)
Definition triple (I : store_t -> Prop) {A} (m : M A)
    (Q : A -> Prop) (E : option fault -> Prop) : Prop :=
  forall this, I this ->
    I (m this).2 /\
    match (m this).1 with
    | Done a => Q a
    | Fault f => E (Some f)
    | Diverged => E None
    end.

(** Every stored point has [n] coordinates. *)
Definition points_of_dimension (n : nat) (this : store_t) : Prop :=
  forall p v, (p, v) ∈ this -> length p = n.

(** One pass of each loop of [symmetry], as a function of the state. *)
Definition diagonal_pass (dimension : nat) (this : store_t) (d : nat) : store_t :=
  merge this (diagonal_images d ((d + 1) mod dimension) this).

Definition axial_pass (this : store_t) (d : nat) : store_t :=
  merge this (axial_images d this).

(** Every stored payload is below [n]. *)
Definition payloads_below (n : nat) (this : store_t) : Prop :=
  forall p v, (p, v) ∈ this -> v < n.

(** ** [hypersphere], as the program is built

    [operator []] of [std::vector] is not checked, and nothing stops the
    program at the read of [layers[layers.size()]] in the layer-advance
    loop (lines 151-153): it finds some value there and goes on.
    [past_the_end layers point] is the value found one past the end of
    [layers] while the line is at [point].  Every other access is as in
    [hypersphere] above, and so are [slices], [fill] and [symmetry], which
    are used as they are. *)
Module as_built.

Section as_built.
Context (past_the_end : list Z -> point_t -> Z).

(** [layers[i]], where [layers[layers.size()]] is [stray] *)
Definition at_or_past (stray : Z) (layers : list Z) (i : nat) : M Z :=
  match layers !! i with
  | Some x => ret x
  | None =>
      if i =? length layers then ret stray
      else raise (out_of_range i (length layers))
  end.

(** [while (layer < layers.size())
       if (radius <= layers[layer + 1]) layer++; else break;] *)
Fixpoint advance (bound : nat) (stray : Z) (layers : list Z) (radius : Z)
    (layer : nat) : M nat :=
  if layer <? length layers then
    match bound with
    | O => diverge
    | S bound' =>
        next <- at_or_past stray layers (layer + 1) ;;
        if (radius <=? next)%Z
        then advance bound' stray layers radius (layer + 1)
        else ret layer
    end
  else ret layer.

(** [while (radius > layers[layers.size() - 1]) { ... }] *)
Fixpoint line (bound : nat) (layers : list Z) (d : nat)
    (point : point_t) (radius : Z) (layer : nat) : M (point_t * nat) :=
  innermost <- at_ layers (length layers - 1) ;;
  if (innermost <? radius)%Z then
    match bound with
    | O => diverge
    | S bound' =>
        set_point point layer ;;
        x <- at_ point d ;;
        point <- put point d (x - 1)%Z ;;
        let radius := (radius - 1)%Z in
        layer <- advance (length layers - layer) (past_the_end layers point)
                   layers radius layer ;;
        line bound' layers d point radius layer
    end
  else ret (point, layer).

(** The 1D case (lines 140-160) *)
Definition octant_1D (centre : point_t) (layers : list Z) (d : nat) : M unit :=
  let point := centre in
  let layer := 0 in
  radius <- at_ layers layer ;;
  x <- at_ point d ;;
  point <- put point d (x + radius)%Z ;;
  let innermost := default 0%Z (layers !! (length layers - 1)) in
  pl <- line (Z.to_nat (radius - innermost)) layers d point radius layer ;;
  let '(point, layer) := pl in
  let layer := if layer =? 0 then layer else layer - 1 in
  set_point point layer.

(** [void octant(centre, layers, d)]; [depth] bounds the recursion. *)
Fixpoint octant (depth : nat) (centre : point_t) (layers : list Z) (d : nat)
    : M unit :=
  assert (d <? length centre) "d < centre.size()" ;;
  assert (0 <? length layers) "0 < layers.size()" ;;
  if length centre - 1 =? d then octant_1D centre layers d
  else
    match depth with
    | O => diverge
    | S depth' =>
        let d_diff := 0%Z in
        let '(radii, criteria) := fill layers in
        let slice_centre := centre in
        slices (Z.to_nat (Z.max 1 (default 0%Z (radii !! 0))))
          (fun slice_centre radii => octant depth' slice_centre radii (d + 1))
          centre d slice_centre d_diff radii criteria
    end.

(** The constructor (lines 256-265), run on an empty [m_impl] *)
Definition construct (dimension : nat) (layers : list Z) : M unit :=
  assert (0 <? dimension) "0 < dimension" ;;
  let zero := replicate dimension 0%Z in
  octant dimension zero layers 0 ;;
  symmetry dimension.

Definition hypersphere (dimension : nat) (layers : list Z)
    : outcome unit * store_t :=
  construct dimension layers [].

End as_built.
End as_built.


(** No fault and no exceeded bound. *)
Definition never (o : option fault) : Prop := False.

(** On a line, payloads do not decrease towards the centre. *)
Definition antitone_line (this : store_t) : Prop :=
  forall x y v w, ([x], v) ∈ this -> ([y], w) ∈ this -> (y <= x)%Z -> v <= w.

(** The store of a line in progress: points above [radius], with payloads
    up to [layer] and below the last index of [layers]. *)
Definition line_store (layers : list Z) (radius : Z) (layer : nat)
    (this : store_t) : Prop :=
  (forall p v, (p, v) ∈ this ->
     exists x, p = [x] /\ (radius < x)%Z /\ v <= layer /\ S v < length layers)
  /\ antitone_line this.

(** ** [libaccl::hash::linear] *)
Module linear.

(** What a member function ends in, besides a result: a C++ exception, an
    access outside [m_tab], the use of a variable that was never assigned,
    or a loop that exceeds its bound. *)
Inductive failure : Type :=
  | logic_error (what : string)
  | runtime_error (what : string)
  | out_of_bounds (index size : nat)
  | indeterminate.

Inductive result (A : Type) : Type :=
  | Ok (a : A)
  | Failed (f : failure)
  | Unbounded.

Arguments Ok {A} a.
Arguments Failed {A} f.
Arguments Unbounded {A}.

Definition rbind {A B} (r : result A) (k : A -> result B) : result B :=
  match r with
  | Ok a => k a
  | Failed f => Failed f
  | Unbounded => Unbounded
  end.

(** [slot::type_t] *)
Inductive type_t : Type := EMPTY | AVAIL | USED.

(** The targets of [get_index]: whether each pointer is non-[NULL], and the
    value of the variable behind it ([None] while never assigned). *)
Record targets : Type := {
  insert_ptr : bool;
  find_ptr : bool;
  insert_ix : option Z;
  find_ix : option Z
}.

(** [if (insert) *insert = v] *)
Definition assign_insert (v : Z) (o : targets) : targets :=
  if insert_ptr o
  then {| insert_ptr := insert_ptr o; find_ptr := find_ptr o;
          insert_ix := Some v; find_ix := find_ix o |}
  else o.

(** [if (find) *find = v] *)
Definition assign_find (v : Z) (o : targets) : targets :=
  if find_ptr o
  then {| insert_ptr := insert_ptr o; find_ptr := find_ptr o;
          insert_ix := insert_ix o; find_ix := Some v |}
  else o.

(** [insert = NULL] *)
Definition null_insert (o : targets) : targets :=
  {| insert_ptr := false; find_ptr := find_ptr o;
     insert_ix := insert_ix o; find_ix := find_ix o |}.

Section linear.
Context {Item_t Key_t : Type} `{EqDecision Key_t}.
(** [Key_fn], the value of [Item_t()], and the value of
    [0.85 * size] converted to [size_t]. *)
Context (m_key_fn : Item_t -> Key_t).
Context (Item_t_default : Item_t).
Context (scaled_size : nat -> nat).

(** [Hash_fn]: called with the key and the table size. *)
Definition Hash_fn : Type := Key_t -> nat -> nat.

(** [struct slot] *)
Record slot : Type := { type : type_t; item : Item_t }.

(** [slot()] *)
Definition slot_new : slot := {| type := EMPTY; item := Item_t_default |}.

(** [slot::operator = (it)] *)
Definition slot_assign (it : Item_t) : slot := {| type := USED; item := it |}.

(** The data members ([m_key_fn] is the functor above). *)
Record table : Type := {
  m_hash_fn : list Hash_fn;
  m_tab : list slot;
  m_item_cnt : nat;
  m_capacity : nat
}.

(** [bool check_index(key, index, insert, find) const] *)
Definition check_index (t : table) (key : Key_t) (index : nat) (o : targets)
    : result (bool * targets) :=
  match m_tab t !! index with
  | None => Failed (out_of_bounds index (length (m_tab t)))
  | Some s =>
      match type s with
      | EMPTY => Ok (true, assign_find (-1) (assign_insert (Z.of_nat index) o))
      | AVAIL =>
          let o := assign_insert (Z.of_nat index) o in
          if negb (find_ptr o) then Ok (true, o)
          else Ok (false, null_insert o)
      | USED =>
          if decide (m_key_fn (item s) = key)
          then Ok (true, assign_find (Z.of_nat index) (assign_insert (-1) o))
          else Ok (false, o)
      end
  end.

(** [for (size_t i = 0; i < m_hash_fn.size(); ++i) { ... }]: the result
    tells whether [get_index] returns, and the last index computed. *)
Fixpoint hashing (t : table) (fns : list Hash_fn) (key : Key_t) (index : nat)
    (o : targets) : result (bool * nat * targets) :=
  match fns with
  | [] => Ok (false, index, o)
  | hash_fn :: fns' =>
      let index := hash_fn key (length (m_tab t)) in
      rbind (check_index t key index o) (fun r =>
        if r.1 then Ok (true, index, r.2)
        else hashing t fns' key index r.2)
  end.

(** [while (!check_index(key, index, insert, find)) { ... }] *)
Fixpoint collision (bound : nat) (t : table) (key : Key_t) (begin_ix index : nat)
    (o : targets) : result targets :=
  rbind (check_index t key index o) (fun r =>
    if r.1 then Ok r.2
    else
      let o := r.2 in
      let index := if S index <? length (m_tab t) then S index else 0 in
      if begin_ix =? index
      then Ok (assign_find (-1) (assign_insert (-1) o))
      else
        match bound with
        | O => Unbounded
        | S bound' => collision bound' t key begin_ix index o
        end).

(** [void get_index(key, insert, find) const] *)
Definition get_index (t : table) (key : Key_t) (o : targets) : result targets :=
  let overfill := negb (m_item_cnt t <? m_capacity t) in
  let o := if overfill then assign_insert (-1) o else o in
  if overfill && negb (find_ptr o) then Ok o
  else
    let o := if overfill then null_insert o else o in
    let index := 0 in
    rbind (hashing t (m_hash_fn t) key index o) (fun r =>
      let '(returned, index, o) := r in
      if returned then Ok o
      else
        let begin_ix := index in
        collision (length (m_tab t)) t key begin_ix index o).

(** The value of a variable when it is read. *)
Definition read (v : option Z) : result Z :=
  match v with
  | Some z => Ok z
  | None => Failed indeterminate
  end.

(** [ssize_t insert_index(key) const] *)
Definition insert_index (t : table) (key : Key_t) : result Z :=
  rbind (get_index t key
           {| insert_ptr := true; find_ptr := false;
              insert_ix := None; find_ix := None |})
        (fun o => read (insert_ix o)).

(** [ssize_t find_index(key) const] *)
Definition find_index (t : table) (key : Key_t) : result Z :=
  rbind (get_index t key
           {| insert_ptr := false; find_ptr := true;
              insert_ix := None; find_ix := Some 0%Z |})
        (fun o => read (find_ix o)).

(** [m_tab[index] = it] *)
Definition assign_slot (t : table) (index : nat) (it : Item_t) : result table :=
  if index <? length (m_tab t)
  then Ok {| m_hash_fn := m_hash_fn t;
             m_tab := <[index := slot_assign it]> (m_tab t);
             m_item_cnt := m_item_cnt t;
             m_capacity := m_capacity t |}
  else Failed (out_of_bounds index (length (m_tab t))).

(** The constructor [linear(size, hash_fn, capacity)]. *)
Definition linear (size : nat) (hash_fn : list Hash_fn) (capacity : nat)
    : result table :=
  let t := {| m_hash_fn := hash_fn;
              m_tab := replicate size slot_new;
              m_item_cnt := 0;
              m_capacity := if capacity =? 0 then scaled_size size else capacity |} in
  if length (m_tab t) <? m_capacity t
  then Failed (logic_error "libaccl::hash::linear: invalid capacity")
  else Ok t.

(** [size_t size() const] *)
Definition size (t : table) : nat := length (m_tab t).

(** [size_t capacity() const] *)
Definition capacity (t : table) : nat := m_capacity t.

(** [size_t item_cnt() const] *)
Definition item_cnt (t : table) : nat := m_item_cnt t.

(** [ssize_t insert(item)] *)
Definition insert (item : Item_t) (t : table) : result (Z * table) :=
  rbind (insert_index t (m_key_fn item)) (fun index =>
    if (0 <=? index)%Z
    then rbind (assign_slot t (Z.to_nat index) item) (fun t' => Ok (index, t'))
    else Ok (index, t)).

(** [ssize_t find(key) const] *)
Definition find (key : Key_t) (t : table) : result Z := find_index t key.

(** [bool exists(key) const] *)
Definition exists_ (key : Key_t) (t : table) : result bool :=
  rbind (find_index t key) (fun index => Ok (negb (-1 =? index)%Z)).

(** [Item_t & operator [] (key)]: the item referred to and the table. *)
Definition subscript (key : Key_t) (t : table) : result (Item_t * table) :=
  rbind (get_index t key
           {| insert_ptr := true; find_ptr := true;
              insert_ix := None; find_ix := None |})
        (fun o =>
     rbind (read (find_ix o)) (fun find_ix =>
       if (0 <=? find_ix)%Z then
         match m_tab t !! Z.to_nat find_ix with
         | Some s => Ok (item s, t)
         | None => Failed (out_of_bounds (Z.to_nat find_ix) (length (m_tab t)))
         end
       else
         rbind (read (insert_ix o)) (fun ins_ix =>
           if (ins_ix <? 0)%Z
           then Failed (runtime_error "libaccl::hash::linear::[]: table overfill")
           else rbind (assign_slot t (Z.to_nat ins_ix) Item_t_default)
                      (fun t' => Ok (Item_t_default, t'))))).

(** *** Vocabulary of the statements about the table *)

(** The hash functions return indices of [m_tab], which is not empty. *)
Definition in_range (t : table) : Prop :=
  0 < length (m_tab t) /\
  forall (hash_fn : Hash_fn) key,
    hash_fn ∈ m_hash_fn t -> hash_fn key (length (m_tab t)) < length (m_tab t).

(** No slot is [AVAIL]. *)
Definition no_avail (t : table) : Prop :=
  forall i s, m_tab t !! i = Some s -> type s <> AVAIL.

(** The indices the collision string visits from [index] on, when it
    began at [begin_ix]. *)
Definition collision_string (t : table) (begin_ix index : nat) : list nat :=
  if index <? begin_ix then seq index (begin_ix - index)
  else seq index (length (m_tab t) - index) ++ seq 0 begin_ix.

(** The indices [get_index] examines for [key], in order: one per hash
    function, then the whole table from the last of them on. *)
Definition probes (t : table) (key : Key_t) : list nat :=
  let hashed := (fun hash_fn : Hash_fn => hash_fn key (length (m_tab t))) <$> m_hash_fn t in
  hashed ++ collision_string t (List.last hashed 0) (List.last hashed 0).

(** [check_index] along a list of indices, until it tells to return. *)
Fixpoint scan (t : table) (key : Key_t) (o : targets) (l : list nat)
    : result targets :=
  match l with
  | [] => Ok (assign_find (-1) (assign_insert (-1) o))
  | index :: l' =>
      rbind (check_index t key index o) (fun r =>
        if r.1 then Ok r.2 else scan t key r.2 l')
  end.

(** Where an item with [key] goes along [l]: the first slot not in use,
    unless [key] is met before; [-1] if there is none. *)
Fixpoint free_slot (t : table) (key : Key_t) (l : list nat) : Z :=
  match l with
  | [] => -1
  | index :: l' =>
      match m_tab t !! index with
      | None => -1
      | Some s =>
          match type s with
          | USED =>
              if decide (m_key_fn (item s) = key) then -1
              else free_slot t key l'
          | _ => Z.of_nat index
          end
      end
  end.

(** Where [key] is met along [l] before an [EMPTY] slot; [-1] if nowhere. *)
Fixpoint used_slot (t : table) (key : Key_t) (l : list nat) : Z :=
  match l with
  | [] => -1
  | index :: l' =>
      match m_tab t !! index with
      | None => -1
      | Some s =>
          match type s with
          | EMPTY => -1
          | AVAIL => used_slot t key l'
          | USED =>
              if decide (m_key_fn (item s) = key) then Z.of_nat index
              else used_slot t key l'
          end
      end
  end.

End linear.
End linear.

(** The table after [m_tab[index] = it]. *)
Definition assigned {Item_t Key_t : Type} (t : linear.table (Item_t := Item_t) (Key_t := Key_t))
    (index : nat) (it : Item_t) : linear.table :=
  {| linear.m_hash_fn := linear.m_hash_fn t;
     linear.m_tab := <[index := linear.slot_assign it]> (linear.m_tab t);
     linear.m_item_cnt := linear.m_item_cnt t;
     linear.m_capacity := linear.m_capacity t |}.

(** The caller's loop [for (...) tab.insert(d)], return values dropped. *)
Fixpoint inserts {Item_t Key_t : Type} `{EqDecision Key_t} (m_key_fn : Item_t -> Key_t)
    (items : list Item_t) (t : linear.table (Item_t := Item_t) (Key_t := Key_t))
    : linear.result linear.table :=
  match items with
  | [] => linear.Ok t
  | it :: items' =>
      linear.rbind (linear.insert m_key_fn it t) (fun r => inserts m_key_fn items' r.2)
  end.

(** Every item in the table is found at its own slot. *)
Definition self_found {Item_t Key_t : Type} `{EqDecision Key_t} (m_key_fn : Item_t -> Key_t)
    (t : linear.table (Item_t := Item_t) (Key_t := Key_t)) : Prop :=
  forall i s, linear.m_tab t !! i = Some s -> linear.type s = linear.USED ->
    linear.used_slot m_key_fn t (m_key_fn (linear.item s))
      (linear.probes t (m_key_fn (linear.item s))) = Z.of_nat i.

(** Every slot of the table is [EMPTY]. *)
Definition all_empty {Item_t Key_t : Type}
    (t : linear.table (Item_t := Item_t) (Key_t := Key_t)) : Prop :=
  forall i s, linear.m_tab t !! i = Some s -> linear.type s = linear.EMPTY.

(** Every slot of the table is [USED]. *)
Definition full {Item_t Key_t : Type}
    (t : linear.table (Item_t := Item_t) (Key_t := Key_t)) : Prop :=
  forall i s, linear.m_tab t !! i = Some s -> linear.type s = linear.USED.

(** ** The hash functions of the unit test, and [impl::identity_key] *)

(** [impl::identity_key::operator ()] *)
Definition identity_key {Item_t : Type} (item : Item_t) : Item_t := item.

(** [str_sum]: the sum of the characters in a [size_t] (64 bits); a
    character counts as its code, which is the value of a [char] of 7-bit
    text. *)
Definition str_sum (key : string) : Z :=
  fold_left (fun sum c => ((sum + Z.of_nat (Ascii.nat_of_ascii c)) mod 2 ^ 64)%Z)
    (String.list_ascii_of_string key) 0%Z.

(** [primary_hash_fn]: [str_sum(key) % size] *)
Definition primary_hash_fn : linear.Hash_fn (Key_t := string) :=
  fun key size => Z.to_nat (str_sum key mod Z.of_nat size).

(** [secondary_hash_fn]: [(sum * sum) % size] *)
Definition secondary_hash_fn : linear.Hash_fn (Key_t := string) :=
  fun key size =>
    let sum := str_sum key in
    Z.to_nat (((sum * sum) mod 2 ^ 64) mod Z.of_nat size).

(** A table of [size] strings keyed by themselves, under the hash functions
    of the unit test and with the capacity given. *)
Definition string_table (size capacity : nat) : linear.table :=
  {| linear.m_hash_fn := [primary_hash_fn; secondary_hash_fn];
     linear.m_tab := replicate size (linear.slot_new EmptyString);
     linear.m_item_cnt := 0;
     linear.m_capacity := capacity |}.

(** The table of 5 slots after ["a"] went to slot 2 and ["f"] to slot 4. *)
Definition shelf : linear.table :=
  assigned (assigned (string_table 5 4) 2 "a"%string) 4 "f"%string.

(** The table of 2 slots holding ["b"] and ["a"]. *)
Definition full_shelf : linear.table :=
  assigned (assigned (string_table 2 2) 1 "a"%string) 0 "b"%string.

(** A table of strings without slots or hash functions. *)
Definition no_slots : linear.table (Item_t := string) (Key_t := string) :=
  {| linear.m_hash_fn := []; linear.m_tab := [];
     linear.m_item_cnt := 0; linear.m_capacity := 0 |}.

(** A store of one point. *)
Definition one_point : points.set_t nat := [([0%Z], 7)].

(** ** The pattern store *)
Section store_facts.
Context {Payload_t : Type}.
Implicit Types (m : set_t Payload_t) (p q : point_t) (v w : Payload_t).

Lemma point_compare_refl p : point_compare p p = Eq.
Proof. induction p as [|a p IH]; simpl; [done|]. by rewrite Z.compare_refl. Qed.

Lemma point_compare_Eq p q : point_compare p q = Eq <-> p = q.
Proof.
  split; [|intros ->; apply point_compare_refl].
  revert q; induction p as [|a p IH]; intros [|b q]; simpl; try done.
  destruct (Z.compare_spec a b) as [Hab|Hab|Hab]; try done.
  intros H; f_equal; [done | by apply IH].
Qed.

Lemma find_cons p q w m :
  find p ((q, w) :: m) = if decide (p = q) then Some w else find p m.
Proof.
  simpl. destruct (decide (p = q)) as [->|Hne].
  - by rewrite point_compare_refl.
  - destruct (point_compare p q) eqn:E; try done.
    by apply point_compare_Eq in E.
Qed.

Lemma find_elem_of p v m : find p m = Some v -> (p, v) ∈ m.
Proof.
  induction m as [|[q w] m IH]; [done|]. rewrite find_cons.
  destruct (decide (p = q)) as [->|]; intros H.
  - injection H as ->. left.
  - right. by apply IH.
Qed.

Lemma elem_of_find p v m : (p, v) ∈ m -> exists w, find p m = Some w.
Proof.
  induction m as [|[q w] m IH]; [by intros ?%elem_of_nil|].
  rewrite find_cons. intros H. destruct (decide (p = q)); [by eauto|].
  apply elem_of_cons in H as [H|H]; [congruence | by apply IH].
Qed.

Lemma find_None p m : find p m = None <-> forall v, (p, v) ∉ m.
Proof.
  split.
  - intros H v Hin. apply elem_of_find in Hin as [w Hw]. congruence.
  - intros H. destruct (find p m) as [v|] eqn:E; [|done].
    by apply find_elem_of, H in E.
Qed.

Lemma find_insert_ordered q p v m :
  find q (insert_ordered p v m) = if decide (q = p) then Some v else find q m.
Proof.
  induction m as [|[r w] m IH]; simpl insert_ordered.
  - by rewrite find_cons.
  - destruct (point_compare p r) eqn:E; rewrite ?find_cons; try done.
    rewrite IH. destruct (decide (q = p)) as [->|]; [|done].
    destruct (decide (p = r)) as [->|]; [|done].
    by rewrite point_compare_refl in E.
Qed.

(** First write wins. *)
Lemma find_set q p v m :
  find q (set p v m)
  = if decide (q = p) then Some (default v (find p m)) else find q m.
Proof.
  unfold set, emplace. destruct (find p m) as [w|] eqn:E.
  - destruct (decide (q = p)) as [->|]; [done|done].
  - by rewrite find_insert_ordered.
Qed.

Lemma set_present p v w m : find p m = Some w -> set p v m = m.
Proof. unfold set, emplace. by intros ->. Qed.

Lemma length_insert_ordered p v m : length (insert_ordered p v m) = S (length m).
Proof.
  induction m as [|[r w] m IH]; simpl; [done|].
  destruct (point_compare p r); simpl; by rewrite ?IH.
Qed.

Lemma size_set_absent p v m : find p m = None -> size (set p v m) = S (size m).
Proof. unfold size, set, emplace. intros ->. apply length_insert_ordered. Qed.

Lemma contains_spec p m : contains p m = true <-> exists v, (p, v) ∈ m.
Proof.
  unfold contains, get. split.
  - destruct (find p m) as [v|] eqn:E; [|done]. intros _. exists v. by apply find_elem_of.
  - intros [v [w ->]%elem_of_find]. done.
Qed.

Lemma elem_of_insert_ordered x p v m :
  x ∈ insert_ordered p v m <-> x = (p, v) \/ x ∈ m.
Proof.
  induction m as [|[r w] m IH]; simpl.
  - rewrite list_elem_of_singleton, elem_of_nil. tauto.
  - destruct (point_compare p r); rewrite !elem_of_cons, ?IH; tauto.
Qed.

Lemma elem_of_set x p v m : x ∈ set p v m -> x = (p, v) \/ x ∈ m.
Proof.
  unfold set, emplace. destruct (find p m); [by right|].
  by intros ?%elem_of_insert_ordered.
Qed.

End store_facts.

(** ** Reasoning about member-function computations *)
Section triples.
Context (I : store_t -> Prop).

Lemma triple_bind {A B} (m : M A) (k : A -> M B) Q R E :
  triple I m Q E -> (forall a, Q a -> triple I (k a) R E) -> triple I (bind m k) R E.
Proof.
  intros Hm Hk this HI. destruct (Hm this HI) as [HI' Hout].
  unfold bind. destruct (m this) as [[a|f|] this']; simpl in *; [|done|done].
  by apply Hk.
Qed.

Lemma triple_weaken {A} (m : M A) (Q Q' : A -> Prop) (E E' : option fault -> Prop) :
  triple I m Q E -> (forall a, Q a -> Q' a) -> (forall o, E o -> E' o) -> triple I m Q' E'.
Proof.
  intros Hm HQ HE this HI. destruct (Hm this HI) as [HI' Hout]. split; [done|].
  destruct (m this).1; auto.
Qed.

Lemma triple_post {A} (m : M A) (Q Q' : A -> Prop) E :
  triple I m Q E -> (forall a, Q a -> Q' a) -> triple I m Q' E.
Proof. intros Hm HQ. by apply triple_weaken with Q E. Qed.

Lemma triple_ret {A} (a : A) (Q : A -> Prop) E : Q a -> triple I (ret a) Q E.
Proof. by intros HQ this HI. Qed.

Lemma triple_raise {A} f (Q : A -> Prop) (E : option fault -> Prop) :
  E (Some f) -> triple I (raise f) Q E.
Proof. by intros HE this HI. Qed.

Lemma triple_diverge {A} (Q : A -> Prop) (E : option fault -> Prop) :
  E None -> triple I diverge Q E.
Proof. by intros HE this HI. Qed.

Lemma triple_at {A} (v : list A) i (E : option fault -> Prop) :
  (v !! i = None -> E (Some (out_of_range i (length v)))) ->
  triple I (at_ v i) (fun x => v !! i = Some x) E.
Proof. intros HE this HI. unfold at_. destruct (v !! i); simpl; auto. Qed.

Lemma triple_put {A} (v : list A) i x (E : option fault -> Prop) :
  (length v <= i -> E (Some (out_of_range i (length v)))) ->
  triple I (put v i x) (fun v' => v' = <[i:=x]> v /\ i < length v) E.
Proof.
  intros HE this HI. unfold put. destruct (Nat.ltb_spec i (length v)); simpl; auto.
Qed.

Lemma triple_assert cond expr (E : option fault -> Prop) :
  (cond = false -> E (Some (assertion_failed expr))) ->
  triple I (assert cond expr) (fun _ => cond = true) E.
Proof. intros HE this HI. unfold assert. destruct cond; simpl; auto. Qed.

Lemma triple_set_point point layer E :
  (forall this, I this -> I (set point layer this)) ->
  triple I (set_point point layer) (fun _ => True) E.
Proof. intros Hset this HI. simpl. auto. Qed.

Lemma triple_snapshot (P : store_t -> Prop) E :
  (forall this, I this -> P this) -> triple I snapshot P E.
Proof. intros HP this HI. simpl. auto. Qed.

Lemma triple_for_each {A} (l : list A) (f : A -> M unit) E :
  (forall x, x ∈ l -> triple I (f x) (fun _ => True) E) ->
  triple I (for_each l f) (fun _ => True) E.
Proof.
  induction l as [|x l IH]; intros Hf; simpl.
  - by apply triple_ret.
  - eapply triple_bind; [apply Hf; left|]. intros _ _. apply IH.
    intros y Hy. apply Hf. by right.
Qed.

End triples.

Lemma triple_and I {A} (m : M A) Q1 Q2 E1 E2 :
  triple I m Q1 E1 -> triple I m Q2 E2 ->
  triple I m (fun a => Q1 a /\ Q2 a) (fun o => E1 o /\ E2 o).
Proof.
  intros H1 H2 this HI. destruct (H1 this HI) as [HI' H1']. destruct (H2 this HI) as [_ H2'].
  split; [done|]. by destruct (m this).1.
Qed.

(** ** Vector helpers *)
Section vectors.

Lemma fill_eq layers : fill layers = (layers, (fun r => (1 - r)%Z) <$> layers).
Proof.
  unfold fill.
  assert (H : forall l ra cr,
    fold_left (fun rc radius => (rc.1 ++ [radius], rc.2 ++ [(1 - radius)%Z])) l (ra, cr)
    = (ra ++ l, cr ++ ((fun r => (1 - r)%Z) <$> l))).
  { induction l as [|x l IH]; intros ra cr; simpl.
    - by rewrite !app_nil_r.
    - rewrite IH. simpl. by rewrite <- !app_assoc. }
  by rewrite H.
Qed.

Lemma pop_back_take (radii : list Z) : pop_back radii = take (length radii - 1) radii.
Proof.
  unfold pop_back. rewrite removelast_firstn_len. f_equal. lia.
Qed.

Lemma pop_down_to_take i (radii : list Z) : pop_down_to i radii = take i radii.
Proof.
  unfold pop_down_to.
  destruct (decide (length radii <= i)) as [Hle|Hgt].
  - replace (length radii - i) with 0 by lia. simpl. by rewrite take_ge.
  - assert (H : forall k, k <= length radii ->
      Nat.iter k pop_back radii = take (length radii - k) radii).
    { induction k as [|k IH]; intros Hk; simpl.
      - rewrite Nat.sub_0_r. by rewrite take_ge.
      - rewrite IH by lia. rewrite pop_back_take, length_take.
        rewrite take_take. f_equal. lia. }
    rewrite H by lia. f_equal. lia.
Qed.

End vectors.

(** ** The loop bounds are never exceeded *)

Section bounds_suffice.
Context (I : store_t -> Prop).
Context (I_set : forall point layer this, I this -> I (set point layer this)).
Local Abbreviation E := only_out_of_range.

Local Hint Extern 1 (only_out_of_range (Some (out_of_range _ _))) =>
  (eexists _, _; reflexivity) : core.

Lemma advance_bounded bound layers radius layer :
  length layers - layer <= bound ->
  triple I (advance bound layers radius layer) (fun _ => True) E.
Proof.
  revert layer. induction bound as [|bound IH]; intros layer Hb; simpl;
    destruct (Nat.ltb_spec layer (length layers)); try (by apply triple_ret); [lia|].
  eapply triple_bind; [apply triple_at; auto|]. intros next _.
  destruct (radius <=? next)%Z; [apply IH; lia | by apply triple_ret].
Qed.

Lemma line_bounded bound layers d point radius layer :
  (forall inn, layers !! (length layers - 1) = Some inn ->
     Z.to_nat (radius - inn) <= bound) ->
  triple I (line bound layers d point radius layer) (fun _ => True) E.
Proof.
  revert point radius layer. induction bound as [|bound IH];
    intros point radius layer Hb; simpl.
  - eapply triple_bind; [apply triple_at; auto|]. intros inn Hinn.
    destruct (Z.ltb_spec inn radius); [|by apply triple_ret].
    specialize (Hb _ Hinn). lia.
  - eapply triple_bind; [apply triple_at; auto|]. intros inn Hinn.
    destruct (Z.ltb_spec inn radius); [|by apply triple_ret].
    eapply triple_bind; [apply triple_set_point, I_set|]. intros _ _.
    eapply triple_bind; [apply triple_at; auto|]. intros x _.
    eapply triple_bind; [apply triple_put; auto|]. intros point' _.
    eapply triple_bind; [by apply advance_bounded|]. intros layer' _.
    apply IH. intros inn' Hinn'. specialize (Hb _ Hinn'). simplify_eq. lia.
Qed.

Lemma octant_1D_bounded centre layers d :
  triple I (octant_1D centre layers d) (fun _ => True) E.
Proof.
  unfold octant_1D.
  eapply triple_bind; [apply triple_at; auto|]. intros radius _.
  eapply triple_bind; [apply triple_at; auto|]. intros x _.
  eapply triple_bind; [apply triple_put; auto|]. intros point _.
  eapply triple_bind.
  { apply line_bounded. by intros inn ->. }
  intros [point' layer] _. apply triple_set_point, I_set.
Qed.

(** From index 1 on, the loop over the layers leaves [radii[0]] alone. *)
Lemma shrink_tail bound d_diff i radii criteria :
  0 < i -> length radii - i <= bound ->
  triple I (shrink bound d_diff i radii criteria)
    (fun rc => rc.1 !! 0 = radii !! 0) E.
Proof.
  revert i radii criteria. induction bound as [|bound IH];
    intros i radii criteria Hi Hb; simpl;
    destruct (Nat.ltb_spec i (length radii)); try (by apply triple_ret); [lia|].
  eapply triple_bind; [apply triple_at; auto|]. intros r_i _.
  destruct (r_i - d_diff <=? 0)%Z.
  - eapply triple_bind with
      (Q := fun ri => 0 < ri.2 /\ ri.1 !! 0 = radii !! 0).
    + destruct (Nat.ltb_spec 0 i); [|lia].
      eapply triple_bind; [apply triple_at; auto|]. intros r_prev _.
      destruct (r_i + 1 <=? r_prev)%Z; [|by apply triple_ret].
      eapply triple_bind with (Q := fun radii' => radii' !! 0 = radii !! 0).
      * destruct (r_i - d_diff =? 0)%Z; [by apply triple_ret|].
        eapply triple_post; [apply triple_put; auto|].
        intros radii' [-> _]. simpl. apply list_lookup_insert_ne. lia.
      * intros radii' Hr. apply triple_ret. simpl. split; [lia|done].
    + intros [radii' i'] [Hi' Hr]. simpl in *. apply triple_ret. simpl.
      rewrite pop_down_to_take, lookup_take_lt by lia. done.
  - eapply triple_bind; [apply triple_at; auto|]. intros c_i _.
    eapply triple_bind with
      (Q := fun rc => rc.1 !! 0 = radii !! 0 /\ length rc.1 = length radii).
    + destruct (0 <? c_i)%Z; [|by apply triple_ret].
      eapply triple_bind; [apply triple_put; auto|]. intros radii' [-> _].
      apply triple_ret. simpl. rewrite length_insert. split; [|done].
      apply list_lookup_insert_ne. lia.
    + intros [radii' chi] [Hr Hlen]. simpl in *.
      eapply triple_bind; [apply triple_put; auto|]. intros criteria' _.
      eapply triple_post; [apply IH; lia|].
      simpl. intros rc ->. done.
Qed.

(** One pass over the layers either empties [radii] or leaves a head
    that has not grown and is still above the slice offset. *)
Lemma shrink_head d_diff r0 radii criteria :
  radii !! 0 = Some r0 ->
  triple I (shrink (length radii) d_diff 0 radii criteria)
    (fun rc => rc.1 = [] \/
       exists r0', rc.1 !! 0 = Some r0' /\ (r0' <= r0)%Z /\ (d_diff < r0)%Z) E.
Proof.
  intros Hr0. destruct radii as [|r radii]; [done|]. simpl in Hr0. simplify_eq.
  cbn [length shrink]. cbn [Nat.ltb Nat.leb].
  eapply triple_bind; [apply triple_at; auto|]. simpl. intros r_i [= <-].
  destruct (Z.leb_spec (r0 - d_diff) 0).
  - cbn [Nat.ltb Nat.leb].
    eapply triple_bind with (Q := fun ri => ri = (r0 :: radii, 0));
      [by apply triple_ret|].
    intros ? ->. apply triple_ret. simpl. left.
    by rewrite pop_down_to_take.
  - eapply triple_bind; [apply triple_at; auto|]. intros c_i _.
    eapply triple_bind with
      (Q := fun rc => (exists r0', rc.1 !! 0 = Some r0' /\ (r0' <= r0)%Z)
                      /\ length rc.1 = S (length radii)).
    + destruct (0 <? c_i)%Z.
      * eapply triple_bind; [apply triple_put; auto|]. intros radii' [-> _].
        apply triple_ret. simpl. split; [|done]. exists (r0 - 1)%Z. split; [done|lia].
      * apply triple_ret. simpl. split; [|done]. exists r0. split; [done|lia].
    + intros [radii' chi] [(r0' & Hr0' & Hle) Hlen]. simpl in *.
      eapply triple_bind; [apply triple_put; auto|]. intros criteria' _.
      eapply triple_post; [apply shrink_tail; lia|].
      simpl. intros rc Hrc. right. exists r0'. rewrite Hrc. split_and!; [done|done|lia].
Qed.

Lemma slices_bounded bound octant_next centre d slice_centre d_diff radii criteria :
  (forall sc ra, length sc = length centre -> ra <> [] ->
     triple I (octant_next sc ra) (fun _ => True) E) ->
  length slice_centre = length centre ->
  (forall r0, radii !! 0 = Some r0 -> Z.to_nat (Z.max 1 (r0 - d_diff)) <= bound) ->
  triple I (slices bound octant_next centre d slice_centre d_diff radii criteria)
    (fun _ => True) E.
Proof.
  intros Hnext. revert slice_centre d_diff radii criteria.
  induction bound as [|bound IH]; intros slice_centre d_diff radii criteria Hlen Hb;
    destruct radii as [|r0 rest]; cbn [slices]; try (by apply triple_ret).
  { specialize (Hb r0 eq_refl). lia. }
  eapply triple_bind; [apply triple_at; auto|]. intros c_d _.
  eapply triple_bind; [apply triple_put; auto|]. intros sc [-> _].
  eapply triple_bind.
  { apply Hnext; [by rewrite length_insert | done]. }
  intros _ _.
  eapply triple_bind; [by apply (shrink_head _ r0)|].
  intros [radii' criteria'] Hrc. simpl in Hrc.
  apply IH; [by rewrite length_insert|].
  intros r0' Hr0'. specialize (Hb r0 eq_refl).
  destruct Hrc as [->|(r0'' & Hr0'' & Hle & Hlt)]; [done|]. simplify_eq. lia.
Qed.

Lemma octant_bounded depth centre layers d :
  d < length centre -> layers <> [] -> length centre - 1 - d <= depth ->
  triple I (octant depth centre layers d) (fun _ => True) E.
Proof.
  revert centre layers d. induction depth as [|depth IH];
    intros centre layers d Hd Hl Hdepth; simpl.
  all: eapply triple_bind;
    [apply triple_assert; intros ?%Nat.ltb_ge; lia|]; intros _ _.
  all: eapply triple_bind;
    [apply triple_assert; intros ?%Nat.ltb_ge; destruct layers; simpl in *; [done|lia]|];
    intros _ _.
  all: destruct (Nat.eqb_spec (length centre - 1) d); [apply octant_1D_bounded|].
  { lia. }
  rewrite fill_eq.
  apply slices_bounded; [|done|].
  - intros sc ra Hsc Hra. apply IH; [lia|done|lia].
  - intros r0 ->. simpl. lia.
Qed.

Lemma diagonal_bounded dimension d :
  triple I (diagonal dimension d) (fun _ => True) E.
Proof.
  unfold diagonal. eapply triple_bind; [by apply triple_snapshot with (P := fun _ => True)|].
  intros points _. apply triple_for_each. intros [x layer] _. simpl.
  eapply triple_bind; [apply triple_at; auto|]. intros x_d _.
  eapply triple_bind; [apply triple_at; auto|]. intros x_b _.
  destruct (decide (x_d <> x_b)); [|by apply triple_ret].
  eapply triple_bind; [apply triple_at; auto|]. intros tmp _.
  eapply triple_bind; [apply triple_at; auto|]. intros y_b _.
  eapply triple_bind; [apply triple_put; auto|]. intros y _.
  eapply triple_bind; [apply triple_put; auto|]. intros y' _.
  apply triple_set_point, I_set.
Qed.

Lemma axial_bounded d : triple I (axial d) (fun _ => True) E.
Proof.
  unfold axial. eapply triple_bind; [by apply triple_snapshot with (P := fun _ => True)|].
  intros points _. apply triple_for_each. intros [x layer] _. simpl.
  eapply triple_bind; [apply triple_at; auto|]. intros x_d _.
  destruct (decide (0%Z <> x_d)); [|by apply triple_ret].
  eapply triple_bind; [apply triple_at; auto|]. intros y_d _.
  eapply triple_bind; [apply triple_put; auto|]. intros y _.
  apply triple_set_point, I_set.
Qed.

Lemma symmetry_bounded dimension :
  triple I (symmetry dimension) (fun _ => True) E.
Proof.
  unfold symmetry. eapply triple_bind.
  - apply triple_for_each. intros d _. apply diagonal_bounded.
  - intros _ _. apply triple_for_each. intros d _. apply axial_bounded.
Qed.

Lemma construct_bounded dimension layers :
  0 < dimension -> layers <> [] ->
  triple I (construct dimension layers) (fun _ => True) E.
Proof.
  intros Hdim Hl. unfold construct.
  eapply triple_bind; [apply triple_assert; intros ?%Nat.ltb_ge; lia|]. intros _ _.
  eapply triple_bind.
  - apply octant_bounded; [by rewrite length_replicate|done|rewrite length_replicate; lia].
  - intros _ _. apply symmetry_bounded.
Qed.

End bounds_suffice.

(** ** Layers with distinct outer and innermost radii overrun [layers] *)

Section graded_layers.
Context (I : store_t -> Prop).
Context (I_set : forall point layer this, I this -> I (set point layer this)).

Lemma advance_within bound layers radius layer :
  layer < length layers -> length layers - layer <= bound ->
  triple I (advance bound layers radius layer)
    (fun layer' => layer' < length layers) (overrun (length layers)).
Proof.
  revert layer. induction bound as [|bound IH]; intros layer Hl Hb; simpl;
    destruct (Nat.ltb_spec layer (length layers)); try lia.
  eapply triple_bind.
  { apply triple_at. intros Hnone%lookup_ge_None. unfold overrun.
    do 2 f_equal. lia. }
  intros next Hnext. apply lookup_lt_Some in Hnext.
  destruct (radius <=? next)%Z; [apply IH; lia | by apply triple_ret].
Qed.

Lemma advance_overrun bound layers radius layer :
  (forall j x, layers !! j = Some x -> (radius <= x)%Z) ->
  layer < length layers -> length layers - layer <= bound ->
  triple I (advance bound layers radius layer)
    (fun _ => False) (overrun (length layers)).
Proof.
  intros Hle. revert layer. induction bound as [|bound IH]; intros layer Hl Hb; simpl;
    destruct (Nat.ltb_spec layer (length layers)); try lia.
  eapply triple_bind.
  { apply triple_at. intros Hnone%lookup_ge_None. unfold overrun.
    do 2 f_equal. lia. }
  intros next Hnext. pose proof (Hle _ _ Hnext). apply lookup_lt_Some in Hnext.
  destruct (Z.leb_spec radius next); [apply IH; lia | lia].
Qed.

Lemma line_overrun bound layers d point radius layer inn :
  layers !! (length layers - 1) = Some inn ->
  (forall j x, layers !! j = Some x -> (inn <= x)%Z) ->
  (inn < radius)%Z -> layer < length layers -> d < length point ->
  Z.to_nat (radius - inn) <= bound ->
  triple I (line bound layers d point radius layer)
    (fun _ => False) (overrun (length layers)).
Proof.
  intros Hinn Hall. revert point radius layer.
  induction bound as [|bound IH]; intros point radius layer Hr Hl Hd Hb; simpl.
  { lia. }
  eapply triple_bind; [apply triple_at; congruence|]. intros inn' Hinn'.
  assert (inn' = inn) as -> by congruence.
  destruct (Z.ltb_spec inn radius); [|lia].
  eapply triple_bind; [apply triple_set_point, I_set|]. intros _ _.
  eapply triple_bind.
  { apply triple_at. intros ?%lookup_ge_None. lia. }
  intros x _.
  eapply triple_bind.
  { apply triple_put. lia. }
  intros point' [-> _].
  destruct (decide (radius - 1 = inn)%Z) as [Heq|Hne].
  - eapply triple_bind with (Q := fun _ => False); [|by intros ? []].
    apply advance_overrun; [|done|lia].
    intros j y Hy. specialize (Hall _ _ Hy). lia.
  - eapply triple_bind; [by apply advance_within|].
    intros layer' Hl'. apply IH; [lia|done|by rewrite length_insert|lia].
Qed.

Lemma octant_1D_overrun centre layers d r0 inn :
  graded layers r0 inn -> d < length centre ->
  triple I (octant_1D centre layers d) (fun _ => False) (overrun (length layers)).
Proof.
  intros (Hr0 & Hinn & Hlt & Hall) Hd. unfold octant_1D.
  eapply triple_bind; [apply triple_at; congruence|]. intros radius Hradius.
  assert (radius = r0) as -> by congruence.
  eapply triple_bind.
  { apply triple_at. intros ?%lookup_ge_None. lia. }
  intros x _.
  eapply triple_bind; [apply triple_put; lia|]. intros point [-> _].
  eapply triple_bind with (Q := fun _ => False); [|by intros ? []].
  rewrite Hinn. simpl.
  apply line_overrun with (inn := inn); try done.
  - by apply lookup_lt_Some in Hr0.
  - by rewrite length_insert.
Qed.

Lemma octant_overrun depth centre layers d r0 inn :
  graded layers r0 inn -> d < length centre -> length centre - 1 - d <= depth ->
  triple I (octant depth centre layers d) (fun _ => False) (overrun (length layers)).
Proof.
  intros Hg. pose proof Hg as (Hr0 & _).
  revert centre d. induction depth as [|depth IH];
    intros centre d Hd Hdepth; simpl.
  all: eapply triple_bind;
    [apply triple_assert; intros ?%Nat.ltb_ge; lia|]; intros _ _.
  all: eapply triple_bind;
    [apply triple_assert; intros ?%Nat.ltb_ge; apply lookup_lt_Some in Hr0; lia|];
    intros _ _.
  all: destruct (Nat.eqb_spec (length centre - 1) d);
    [by apply octant_1D_overrun with r0 inn|].
  { lia. }
  rewrite fill_eq. rewrite Hr0. simpl.
  destruct (Z.to_nat (Z.max 1 r0)) as [|bound] eqn:Hbound; [lia|].
  destruct layers as [|r rest] eqn:Hlayers; [done|]. cbn [slices].
  rewrite <- Hlayers in *.
  eapply triple_bind.
  { apply triple_at. intros ?%lookup_ge_None. lia. }
  intros c_d _.
  eapply triple_bind; [apply triple_put; lia|]. intros sc [-> _].
  eapply triple_bind with (Q := fun _ => False); [|by intros ? []].
  rewrite Hlayers. rewrite <- Hlayers.
  apply IH; [rewrite length_insert; lia | rewrite length_insert; lia].
Qed.

Lemma construct_overrun dimension layers r0 inn :
  graded layers r0 inn -> 0 < dimension ->
  triple I (construct dimension layers) (fun _ => False) (overrun (length layers)).
Proof.
  intros Hg Hdim. unfold construct.
  eapply triple_bind; [apply triple_assert; intros ?%Nat.ltb_ge; lia|]. intros _ _.
  eapply triple_bind with (Q := fun _ => False); [|by intros ? []].
  apply octant_overrun with r0 inn; [done| |]; rewrite length_replicate; lia.
Qed.

End graded_layers.

Lemma hypersphere_overrun dimension layers r0 inn :
  graded layers r0 inn -> 0 < dimension ->
  (hypersphere dimension layers).1 = Fault (out_of_range (length layers) (length layers)).
Proof.
  intros Hg Hdim.
  destruct (construct_overrun (fun _ => True) (fun _ _ _ _ => Logic.I)
              dimension layers r0 inn Hg Hdim [] Logic.I) as [_ H].
  unfold hypersphere. destruct (construct dimension layers []).1 as [a|f|]; [done| |done].
  unfold overrun in H. congruence.
Qed.

(** ** Layers of one radius only yield payload 0 only *)

Lemma all_layer_0_set point this :
  all_layer_0 this -> all_layer_0 (set point 0 this).
Proof.
  unfold all_layer_0. rewrite !Forall_forall. intros H pv Hpv.
  apply elem_of_set in Hpv as [->|Hpv]; [done | by apply H].
Qed.

(** The loop of the 1D case is not entered at or below the innermost radius. *)
Lemma line_exit bound layers d point radius layer inn this :
  layers !! (length layers - 1) = Some inn -> (radius <= inn)%Z ->
  line bound layers d point radius layer this = (Done (point, layer), this).
Proof.
  intros Hinn Hle.
  destruct bound; simpl; unfold bind, at_; rewrite Hinn; simpl;
    by destruct (Z.ltb_spec inn radius); [lia|].
Qed.

(** On layers of one radius the loop over the layers keeps one radius and
    one criterion, or empties [radii]. *)
Section shrink_one_radius.
Context (I : store_t -> Prop).
Local Abbreviation E := anything.

Lemma shrink_one_radius_from bound d_diff n r c i radii criteria :
  (d_diff < r)%Z ->
  length radii = n -> length criteria = n ->
  (forall j, j < i -> radii !! j = Some (midpoint_radius c r) /\
                      criteria !! j = Some (midpoint_criterion d_diff c r)) ->
  (forall j, i <= j < n -> radii !! j = Some r /\ criteria !! j = Some c) ->
  triple I (shrink bound d_diff i radii criteria)
    (fun rc => exists r' c', rc.1 = replicate n r' /\ rc.2 = replicate n c') E.
Proof.
  intros Hlt. revert i radii criteria.
  assert (Hend : forall i radii criteria,
    length radii = n -> length criteria = n -> n <= i ->
    (forall j, j < i -> radii !! j = Some (midpoint_radius c r) /\
                        criteria !! j = Some (midpoint_criterion d_diff c r)) ->
    triple I (ret (radii, criteria))
      (fun rc => exists r' c', rc.1 = replicate n r' /\ rc.2 = replicate n c') E).
  { intros i radii criteria Hlr Hlc Hi Hlo. apply triple_ret. simpl.
    exists (midpoint_radius c r), (midpoint_criterion d_diff c r).
    split; symmetry; apply replicate_as_Forall; (split; [done|]);
      apply Forall_forall; intros x [j Hj]%list_elem_of_lookup;
      pose proof (lookup_lt_Some _ _ _ Hj);
      destruct (Hlo j) as [H1 H2]; [lia|congruence|lia|congruence]. }
  induction bound as [|bound IH]; intros i radii criteria Hlr Hlc Hlo Hhi; simpl;
    destruct (Nat.ltb_spec i (length radii));
    try (apply (Hend i); [done|done|lia|done]).
  { by apply triple_diverge. }
  destruct (Hhi i) as [Hri Hci]; [lia|].
  eapply triple_bind; [by apply triple_at|]. intros r_i Hr_i.
  assert (r_i = r) as -> by congruence.
  destruct (Z.leb_spec (r - d_diff) 0); [lia|].
  eapply triple_bind; [by apply triple_at|]. intros c_i Hc_i.
  assert (c_i = c) as -> by congruence.
  eapply triple_bind with
    (Q := fun rc => rc = (<[i:=midpoint_radius c r]> radii,
                          if (0 <? c)%Z then (d_diff - (r - 1))%Z else d_diff)).
  { unfold midpoint_radius. destruct (0 <? c)%Z.
    - eapply triple_bind; [by apply triple_put|]. intros radii' [-> _].
      by apply triple_ret.
    - apply triple_ret. by rewrite list_insert_id. }
  intros ? ->.
  eapply triple_bind; [by apply triple_put|]. intros criteria' [-> _].
  apply IH; rewrite ?length_insert; try done.
  - intros j Hj. rewrite !list_lookup_insert.
    destruct (decide (i = j)) as [->|Hne].
    + rewrite !decide_True by (split; [done|lia]). done.
    + rewrite !decide_False by (intros [? _]; done). apply Hlo. lia.
  - intros j Hj. rewrite !list_lookup_insert_ne by lia. apply Hhi. lia.
Qed.

Lemma shrink_one_radius d_diff n r c :
  triple I (shrink n d_diff 0 (replicate n r) (replicate n c))
    (fun rc => rc.1 = [] \/
       exists n' r' c', rc.1 = replicate n' r' /\ rc.2 = replicate n' c') E.
Proof.
  destruct (Z.leb_spec r d_diff) as [Hle|Hlt].
  - destruct n as [|n]; simpl.
    + apply triple_ret. by left.
    + eapply triple_bind with (Q := fun r_i => r_i = r).
      { eapply triple_post; [by apply triple_at|]. simpl. by intros ? [= ->]. }
      intros ? ->. destruct (Z.leb_spec (r - d_diff) 0); [|lia].
      eapply triple_bind with (Q := fun ri => ri.2 = 0); [by apply triple_ret|].
      intros [radii' i'] Hi'. simpl in Hi'. subst i'.
      apply triple_ret. simpl. left. by rewrite pop_down_to_take.
  - eapply triple_post.
    + apply shrink_one_radius_from with (n := n) (r := r) (c := c);
        rewrite ?length_replicate; try done; try lia.
      intros j Hj. rewrite !lookup_replicate_2 by lia. done.
    + intros rc (r' & c' & ? & ?). right. by exists n, r', c'.
Qed.

End shrink_one_radius.

Section one_radius.
Local Abbreviation I := all_layer_0.
Local Abbreviation E := anything.

Lemma octant_1D_one_radius centre n r d :
  triple I (octant_1D centre (replicate n r) d) (fun _ => True) E.
Proof.
  unfold octant_1D.
  eapply triple_bind; [by apply triple_at|]. intros radius Hradius.
  apply lookup_replicate in Hradius as [-> Hn].
  eapply triple_bind; [by apply triple_at|]. intros x _.
  eapply triple_bind; [by apply triple_put|]. intros point _.
  eapply triple_bind with (Q := fun pl => pl = (point, 0)).
  { intros this HI. rewrite (line_exit _ _ _ _ _ _ r); [done| |lia].
    apply lookup_replicate_2. rewrite length_replicate. lia. }
  intros _ ->. simpl. apply triple_set_point. intros this. apply all_layer_0_set.
Qed.

Lemma slices_one_radius bound octant_next centre d slice_centre d_diff radii criteria :
  (forall sc n r, triple I (octant_next sc (replicate n r)) (fun _ => True) E) ->
  radii = [] \/ (exists n r c, radii = replicate n r /\ criteria = replicate n c) ->
  triple I (slices bound octant_next centre d slice_centre d_diff radii criteria)
    (fun _ => True) E.
Proof.
  intros Hnext. revert slice_centre d_diff radii criteria.
  induction bound as [|bound IH]; intros slice_centre d_diff radii criteria Hflat;
    destruct radii as [|r0 rest] eqn:Hradii; cbn [slices]; try (by apply triple_ret).
  { by apply triple_diverge. }
  destruct Hflat as [?|(n & r & c & Hr & ->)]; [done|]. rewrite Hr.
  eapply triple_bind; [by apply triple_at|]. intros c_d _.
  eapply triple_bind; [by apply triple_put|]. intros sc _.
  eapply triple_bind; [apply Hnext|]. intros _ _.
  rewrite length_replicate.
  eapply triple_bind; [apply (shrink_one_radius all_layer_0)|].
  intros [radii' criteria'] Hrc. simpl in Hrc. by apply IH.
Qed.

Lemma octant_one_radius depth centre n r d :
  triple I (octant depth centre (replicate n r) d) (fun _ => True) E.
Proof.
  revert centre n r d. induction depth as [|depth IH]; intros centre n r d; simpl.
  all: eapply triple_bind; [by apply triple_assert|]; intros _ _.
  all: eapply triple_bind; [by apply triple_assert|]; intros _ _.
  all: destruct (length centre - 1 =? d); [apply octant_1D_one_radius|].
  { by apply triple_diverge. }
  rewrite fill_eq, fmap_replicate.
  apply slices_one_radius; [intros sc n' r'; apply IH|].
  right. by exists n, r, (1 - r)%Z.
Qed.

Lemma symmetry_layer_0 dimension :
  triple I (symmetry dimension) (fun _ => True) E.
Proof.
  unfold symmetry. eapply triple_bind.
  - apply triple_for_each. intros d _. unfold diagonal.
    eapply triple_bind; [by apply triple_snapshot with (P := all_layer_0)|].
    intros points Hpoints. apply triple_for_each. intros [x layer] Hx.
    assert (layer = 0) as ->
      by apply (proj1 (Forall_forall _ _) Hpoints _ Hx).
    simpl.
    eapply triple_bind; [by apply triple_at|]. intros x_d _.
    eapply triple_bind; [by apply triple_at|]. intros x_b _.
    destruct (decide (x_d <> x_b)); [|by apply triple_ret].
    eapply triple_bind; [by apply triple_at|]. intros tmp _.
    eapply triple_bind; [by apply triple_at|]. intros y_b _.
    eapply triple_bind; [by apply triple_put|]. intros y _.
    eapply triple_bind; [by apply triple_put|]. intros y' _.
    apply triple_set_point. intros this. apply all_layer_0_set.
  - intros _ _. apply triple_for_each. intros d _. unfold axial.
    eapply triple_bind; [by apply triple_snapshot with (P := all_layer_0)|].
    intros points Hpoints. apply triple_for_each. intros [x layer] Hx.
    assert (layer = 0) as ->
      by apply (proj1 (Forall_forall _ _) Hpoints _ Hx).
    simpl.
    eapply triple_bind; [by apply triple_at|]. intros x_d _.
    destruct (decide (0%Z <> x_d)); [|by apply triple_ret].
    eapply triple_bind; [by apply triple_at|]. intros y_d _.
    eapply triple_bind; [by apply triple_put|]. intros y _.
    apply triple_set_point. intros this. apply all_layer_0_set.
Qed.

Lemma construct_one_radius dimension n r :
  triple I (construct dimension (replicate n r)) (fun _ => True) E.
Proof.
  unfold construct.
  eapply triple_bind; [by apply triple_assert|]. intros _ _.
  eapply triple_bind; [apply octant_one_radius|]. intros _ _.
  apply symmetry_layer_0.
Qed.

End one_radius.

Lemma hypersphere_one_radius dimension n r :
  all_layer_0 (hypersphere dimension (replicate n r)).2.
Proof.
  apply (construct_one_radius dimension n r []). constructor.
Qed.

(** A valid list of layers has one radius only, or is graded. *)
Lemma non_increasing_le layers i j x y :
  non_increasing layers -> i <= j ->
  layers !! i = Some x -> layers !! j = Some y -> (y <= x)%Z.
Proof.
  intros Hmono Hij Hx. revert y. induction Hij as [|j Hij IH]; intros y Hy.
  - assert (x = y) by congruence. lia.
  - destruct (lookup_lt_is_Some_2 layers j) as [z Hz].
    { apply lookup_lt_Some in Hy. lia. }
    specialize (IH z Hz). specialize (Hmono j z y Hz Hy). lia.
Qed.

Lemma valid_layers_cases layers :
  valid_layers layers ->
  (exists n r, layers = replicate n r) \/ (exists r0 inn, graded layers r0 inn).
Proof.
  intros (Hne & Hmono & _).
  destruct (lookup_lt_is_Some_2 layers 0) as [r0 Hr0].
  { destruct layers; [done|simpl; lia]. }
  destruct (lookup_lt_is_Some_2 layers (length layers - 1)) as [inn Hinn].
  { apply lookup_lt_Some in Hr0. lia. }
  assert (Hall : forall j x, layers !! j = Some x -> (inn <= x <= r0)%Z).
  { intros j x Hx. pose proof (lookup_lt_Some _ _ _ Hx). split.
    - apply (non_increasing_le layers j (length layers - 1)); [done|lia|done|done].
    - apply (non_increasing_le layers 0 j); [done|lia|done|done]. }
  destruct (decide (inn < r0)%Z) as [Hlt|Hge].
  - right. exists r0, inn. split_and!; try done. intros j x Hx. specialize (Hall _ _ Hx). lia.
  - left. exists (length layers), r0. symmetry. apply replicate_as_Forall.
    split; [done|]. apply Forall_forall. intros x [j Hj]%list_elem_of_lookup.
    specialize (Hall _ _ Hj). lia.
Qed.

(** ** A symmetry pass merges the images of its snapshot *)
Section passes.

Lemma swap_coords_fixed d b (y : list Z) : y !! d = y !! b -> swap_coords d b y = y.
Proof.
  unfold swap_coords. intros H. destruct (y !! d) as [y_d|] eqn:Hd; [|done].
  rewrite <- H. cbn. rewrite (list_insert_id y d y_d) by done. apply list_insert_id. congruence.
Qed.

Lemma swap_coords_involutive d b (y : list Z) :
  swap_coords d b (swap_coords d b y) = y.
Proof.
  unfold swap_coords at 2.
  destruct (y !! d) as [y_d|] eqn:Hd; [|by unfold swap_coords; rewrite Hd].
  destruct (y !! b) as [y_b|] eqn:Hb; [|by unfold swap_coords; rewrite Hd, Hb].
  pose proof (lookup_lt_Some _ _ _ Hd). pose proof (lookup_lt_Some _ _ _ Hb).
  unfold swap_coords. rewrite !list_lookup_insert, !length_insert.
  repeat case_decide; try tauto; destruct_and?; simplify_eq.
  - rewrite !list_insert_insert_eq. by apply list_insert_id.
  - apply list_eq. intros j. rewrite !list_lookup_insert, !length_insert.
    repeat case_decide; destruct_and?; simplify_eq; try done; tauto.
Qed.

Lemma negate_coord_fixed d (y : list Z) : y !! d = Some 0%Z -> negate_coord d y = y.
Proof. unfold negate_coord. intros H. rewrite H. by apply list_insert_id. Qed.

Lemma negate_coord_involutive d (y : list Z) : negate_coord d (negate_coord d y) = y.
Proof.
  unfold negate_coord at 2. destruct (y !! d) as [y_d|] eqn:Hd;
    [|by unfold negate_coord; rewrite Hd].
  pose proof (lookup_lt_Some _ _ _ Hd).
  unfold negate_coord. rewrite list_lookup_insert_eq by done.
  rewrite list_insert_insert_eq, Z.opp_involutive. by apply list_insert_id.
Qed.

Lemma omap_cons {A B} (f : A -> option B) x l :
  omap f (x :: l) = match f x with Some y => y :: omap f l | None => omap f l end.
Proof. done. Qed.

Lemma find_merge q images this :
  find q (merge this images)
  = match find q this with Some v => Some v | None => find q images end.
Proof.
  unfold merge. revert this. induction images as [|[y v] images IH]; intros this; simpl.
  - by destruct (find q this).
  - rewrite IH, find_set. fold (find q images).
    destruct (decide (q = y)) as [->|Hne].
    + rewrite point_compare_refl. by destruct (find y this).
    + destruct (point_compare q y) eqn:E; [by apply point_compare_Eq in E|done|done].
Qed.

(** Images under an involution: a point absent from the snapshot is an
    image exactly when its own image is in the snapshot. *)
Lemma find_images (r : point_t -> point_t) (fixed : point_t -> Prop)
    `{!forall x, Decision (fixed x)} q (l : store_t) :
  (forall x, r (r x) = x) -> (forall x, fixed x -> r x = x) ->
  (forall v, (q, v) ∉ l) ->
  find q (omap (fun xl => if decide (fixed xl.1) then None
                          else Some (r xl.1, xl.2)) l)
  = find (r q) l.
Proof.
  intros Hinv Hfix. induction l as [|[x v] l IH]; intros Hq; [done|].
  assert (Hq' : forall v, (q, v) ∉ l).
  { intros w Hw. apply (Hq w). by right. }
  assert (Hx : x <> q).
  { intros ->. apply (Hq v). left. }
  rewrite omap_cons, find_cons. cbn [fst snd].
  destruct (decide (fixed x)) as [Hf|Hf].
  - rewrite IH by done. destruct (decide (r q = x)) as [Hrq|]; [|done].
    exfalso. apply Hx. rewrite <- (Hinv q), Hrq. symmetry. by apply Hfix.
  - rewrite find_cons, IH by done.
    destruct (decide (q = r x)) as [->|Hne].
    + by rewrite Hinv, decide_True.
    + rewrite decide_False; [done|]. intros <-. by rewrite Hinv in Hne.
Qed.

Lemma for_each_merge (img : point_t * nat -> option (point_t * nat))
    (body : point_t * nat -> M unit) (l : store_t) this :
  (forall xl acc, xl ∈ l ->
     body xl acc = (Done tt, match img xl with
                             | Some yv => set yv.1 yv.2 acc
                             | None => acc
                             end)) ->
  for_each l body this = (Done tt, merge this (omap img l)).
Proof.
  revert this. induction l as [|xl l IH]; intros this Hbody; [done|].
  cbn [for_each]. unfold bind. rewrite Hbody by left.
  rewrite IH by (intros; apply Hbody; by right).
  rewrite omap_cons. by destruct (img xl).
Qed.

Lemma diagonal_merge dimension d (this : store_t) :
  d < dimension ->
  (forall p v, (p, v) ∈ this -> length p = dimension) ->
  diagonal dimension d this
  = (Done tt, merge this (diagonal_images d ((d + 1) mod dimension) this)).
Proof.
  intros Hd Hlen. unfold diagonal, snapshot, bind at 1.
  assert (Hb : (d + 1) mod dimension < dimension) by (apply Nat.mod_upper_bound; lia).
  apply for_each_merge. intros [x v] acc Hx. simpl.
  specialize (Hlen _ _ Hx).
  destruct (lookup_lt_is_Some_2 x d) as [x_d Hxd]; [lia|].
  destruct (lookup_lt_is_Some_2 x ((d + 1) mod dimension)) as [x_b Hxb]; [lia|].
  unfold bind, at_, put. rewrite Hxd, Hxb. simpl.
  destruct (decide (x_d <> x_b)) as [Hne|Heq].
  - rewrite decide_False by congruence. simpl.
    destruct (Nat.ltb_spec d (length x)); [|lia]. simpl.
    rewrite length_insert.
    destruct (Nat.ltb_spec ((d + 1) mod dimension) (length x)); [|lia].
    unfold set_point, swap_coords. by rewrite Hxd, Hxb.
  - rewrite decide_True; [done|]. f_equal. by apply dec_stable.
Qed.

Lemma axial_merge d (this : store_t) :
  (forall p v, (p, v) ∈ this -> d < length p) ->
  axial d this = (Done tt, merge this (axial_images d this)).
Proof.
  intros Hlen. unfold axial, snapshot, bind at 1.
  apply for_each_merge. intros [x v] acc Hx. simpl.
  specialize (Hlen _ _ Hx).
  destruct (lookup_lt_is_Some_2 x d) as [x_d Hxd]; [lia|].
  unfold bind, at_, put. rewrite Hxd. simpl.
  destruct (decide (0%Z <> x_d)) as [Hne|Heq].
  - rewrite decide_False by congruence. simpl.
    destruct (Nat.ltb_spec d (length x)); [|lia].
    unfold set_point, negate_coord. by rewrite Hxd.
  - rewrite decide_True; [done|]. f_equal. symmetry. by apply dec_stable.
Qed.

Lemma find_diagonal_images d b q (this : store_t) :
  find q this = None ->
  find q (diagonal_images d b this) = find (swap_coords d b q) this.
Proof.
  intros Hq. unfold diagonal_images.
  refine (find_images (swap_coords d b) (fun x : list Z => x !! d = x !! b) q this _ _ _).
  - apply swap_coords_involutive.
  - apply swap_coords_fixed.
  - by apply find_None.
Qed.

Lemma find_axial_images d q (this : store_t) :
  find q this = None ->
  find q (axial_images d this) = find (negate_coord d q) this.
Proof.
  intros Hq. unfold axial_images.
  refine (find_images (negate_coord d) (fun x : list Z => x !! d = Some 0%Z) q this _ _ _).
  - apply negate_coord_involutive.
  - apply negate_coord_fixed.
  - by apply find_None.
Qed.

End passes.

(** ** Invariants of the store through [octant] *)
Section octant_invariant.
Context (I : store_t -> Prop) (G : point_t -> Prop).
Context (I_set : forall point layer this, G point -> I this -> I (set point layer this)).
Context (G_put : forall (point : list Z) i x, G point -> G (<[i:=x]> point)).
Local Abbreviation E := anything.

Lemma line_invariant bound layers d point radius layer :
  G point ->
  triple I (line bound layers d point radius layer) (fun pl => G pl.1) E.
Proof.
  revert point radius layer. induction bound as [|bound IH];
    intros point radius layer Hp; simpl.
  all: eapply triple_bind; [by apply triple_at|]; intros inn _.
  all: destruct (inn <? radius)%Z; [|by apply triple_ret].
  { by apply triple_diverge. }
  eapply triple_bind.
  { apply triple_set_point. intros this. by apply I_set. }
  intros _ _.
  eapply triple_bind; [by apply triple_at|]. intros x _.
  eapply triple_bind; [by apply triple_put|]. intros point' [-> _].
  eapply triple_bind.
  { eapply triple_weaken; [by apply (advance_bounded I)| |done]. by intros ? ?. }
  intros layer' _. apply IH. by apply G_put.
Qed.

Lemma octant_1D_invariant centre layers d :
  G centre ->
  triple I (octant_1D centre layers d) (fun _ => True) E.
Proof.
  intros Hc. unfold octant_1D.
  eapply triple_bind; [by apply triple_at|]. intros radius _.
  eapply triple_bind; [by apply triple_at|]. intros x _.
  eapply triple_bind; [by apply triple_put|]. intros point [-> _].
  eapply triple_bind; [apply line_invariant; by apply G_put|].
  intros [point' layer] Hp'.
  apply triple_set_point. intros this. by apply I_set.
Qed.

Lemma slices_invariant bound octant_next centre d slice_centre d_diff radii criteria :
  (forall sc ra, G sc -> triple I (octant_next sc ra) (fun _ => True) E) ->
  G slice_centre ->
  triple I (slices bound octant_next centre d slice_centre d_diff radii criteria)
    (fun _ => True) E.
Proof.
  intros Hnext. revert slice_centre d_diff radii criteria.
  induction bound as [|bound IH]; intros slice_centre d_diff radii criteria Hsc;
    destruct radii as [|r0 rest]; cbn [slices]; try (by apply triple_ret).
  { by apply triple_diverge. }
  eapply triple_bind; [by apply triple_at|]. intros c_d _.
  eapply triple_bind; [by apply triple_put|]. intros sc [-> _].
  eapply triple_bind; [apply Hnext; by apply G_put|]. intros _ _.
  eapply triple_bind with (Q := fun _ => True).
  { eapply triple_weaken; [by apply (shrink_head I _ r0)|done|done]. }
  intros [radii' criteria'] _. apply IH. by apply G_put.
Qed.

Lemma octant_invariant depth centre layers d :
  G centre ->
  triple I (octant depth centre layers d) (fun _ => True) E.
Proof.
  revert centre layers d. induction depth as [|depth IH];
    intros centre layers d Hc; simpl.
  all: eapply triple_bind; [by apply triple_assert|]; intros _ _.
  all: eapply triple_bind; [by apply triple_assert|]; intros _ _.
  all: destruct (length centre - 1 =? d); [by apply octant_1D_invariant|].
  { by apply triple_diverge. }
  rewrite fill_eq. apply slices_invariant; [|done].
  intros sc ra Hsc. by apply IH.
Qed.

End octant_invariant.

(** ** Stored points have [dimension] coordinates *)
Section dimension.
Context (n : nat).
Local Abbreviation I := (points_of_dimension n).

Lemma points_of_dimension_set point layer this :
  length point = n -> I this -> I (set point layer this).
Proof.
  intros Hp HI q v Hq. apply elem_of_set in Hq as [[= -> ->]|Hq]; [done|].
  by apply (HI q v).
Qed.

Lemma points_of_dimension_merge this images :
  I this -> (forall y v, (y, v) ∈ images -> length y = n) -> I (merge this images).
Proof.
  unfold merge. revert this. induction images as [|[y v] images IH];
    intros this HI Himg; [done|]. simpl. apply IH.
  - apply points_of_dimension_set; [|done]. apply (Himg y v). left.
  - intros y' v' Hy'. apply (Himg y' v'). by right.
Qed.

Lemma length_swap_coords d b (y : list Z) : length (swap_coords d b y) = length y.
Proof.
  unfold swap_coords. destruct (y !! d); [|done]. destruct (y !! b); [|done].
  by rewrite !length_insert.
Qed.

Lemma length_negate_coord d (y : list Z) : length (negate_coord d y) = length y.
Proof. unfold negate_coord. destruct (y !! d); [|done]. by rewrite length_insert. Qed.

Lemma points_of_dimension_diagonal_pass dimension this d :
  I this -> I (diagonal_pass dimension this d).
Proof.
  intros HI. apply points_of_dimension_merge; [done|].
  intros y v [[x w] [Hx Hy]]%list_elem_of_omap. simpl in Hy.
  destruct (decide _); [done|]. injection Hy as <- <-.
  rewrite length_swap_coords. by apply (HI x w).
Qed.

Lemma points_of_dimension_axial_pass this d : I this -> I (axial_pass this d).
Proof.
  intros HI. apply points_of_dimension_merge; [done|].
  intros y v [[x w] [Hx Hy]]%list_elem_of_omap. simpl in Hy.
  destruct (decide _); [done|]. injection Hy as <- <-.
  rewrite length_negate_coord. by apply (HI x w).
Qed.

Lemma octant_dimension depth centre layers d :
  length centre = n ->
  triple I (octant depth centre layers d) (fun _ => True) anything.
Proof.
  apply (octant_invariant I (fun p => length p = n)).
  - intros point layer this. apply points_of_dimension_set.
  - intros point i x Hp. by rewrite length_insert.
Qed.

End dimension.

(** ** [symmetry] as a sequence of passes *)
Section symmetry_passes.

Lemma for_each_passes (l : list nat) (f : nat -> M unit)
    (g : store_t -> nat -> store_t) (inv : store_t -> Prop) this :
  (forall d s, d ∈ l -> inv s -> f d s = (Done tt, g s d) /\ inv (g s d)) ->
  inv this ->
  for_each l f this = (Done tt, fold_left g l this) /\ inv (fold_left g l this).
Proof.
  revert this. induction l as [|d l IH]; intros this Hf Hinv; [done|].
  cbn [for_each fold_left]. unfold bind.
  destruct (Hf d this) as [-> Hinv']; [left|done|].
  apply IH; [|done]. intros d' s Hd'. apply Hf. by right.
Qed.

Lemma symmetry_passes dimension this :
  points_of_dimension dimension this ->
  symmetry dimension this
  = (Done tt,
     fold_left axial_pass (seq 0 dimension)
       (fold_left (diagonal_pass dimension) (seq 0 dimension) this))
  /\ points_of_dimension dimension
       (fold_left axial_pass (seq 0 dimension)
          (fold_left (diagonal_pass dimension) (seq 0 dimension) this)).
Proof.
  intros Hdim. unfold symmetry, bind.
  destruct (for_each_passes (seq 0 dimension) (diagonal dimension)
              (diagonal_pass dimension) (points_of_dimension dimension) this)
    as [-> Hdim']; [|done|].
  { intros d s Hd%elem_of_seq Hs. split.
    - apply diagonal_merge; [lia|done].
    - by apply points_of_dimension_diagonal_pass. }
  apply for_each_passes; [|done].
  intros d s Hd%elem_of_seq Hs. split.
  - apply axial_merge. intros p v Hp. rewrite (Hs _ _ Hp). lia.
  - by apply points_of_dimension_axial_pass.
Qed.

(** The first hyperoctant, as [symmetry] receives it. *)
Lemma octant_points_of_dimension dimension layers :
  points_of_dimension dimension
    (octant dimension (replicate dimension 0%Z) layers 0 []).2.
Proof.
  apply (octant_dimension dimension).
  - by rewrite length_replicate.
  - by intros p v ?%elem_of_nil.
Qed.

End symmetry_passes.

(** ** The container stays ordered *)
Section ordered_facts.
Context {Payload_t : Type}.
Implicit Types (m : set_t Payload_t) (p q : point_t) (v w : Payload_t).

Lemma point_compare_antisym p q : point_compare q p = CompOpp (point_compare p q).
Proof.
  revert q. induction p as [|a p IH]; intros [|b q]; simpl; try done.
  rewrite (Z.compare_antisym a b). destruct (a ?= b)%Z; simpl; auto.
Qed.

Lemma point_compare_trans p q r :
  point_compare p q = Lt -> point_compare q r = Lt -> point_compare p r = Lt.
Proof.
  revert q r. induction p as [|a p IH]; intros [|b q] [|c r]; simpl; try done.
  destruct (a ?= b)%Z eqn:Hab; try done; destruct (b ?= c)%Z eqn:Hbc; try done;
    intros H1 H2.
  - apply Z.compare_eq_iff in Hab. apply Z.compare_eq_iff in Hbc. subst. rewrite Z.compare_refl. by apply IH with q.
  - apply Z.compare_eq_iff in Hab. subst. by rewrite Hbc.
  - apply Z.compare_eq_iff in Hbc. subst. by rewrite Hab.
  - rewrite Z.compare_lt_iff in Hab, Hbc.
    assert (a < c)%Z as ->%Z.compare_lt_iff by lia. done.
Qed.

Lemma ordered_tail q w m : ordered ((q, w) :: m) -> ordered m.
Proof. simpl. tauto. Qed.

Lemma ordered_above q w m p v :
  ordered ((q, w) :: m) -> (p, v) ∈ m -> point_compare q p = Lt.
Proof.
  revert q w. induction m as [|[r u] m IH]; intros q w Hord Hin.
  - by apply elem_of_nil in Hin.
  - destruct Hord as [Hqr Hord]. apply elem_of_cons in Hin as [[= -> ->]|Hin]; [done|].
    apply point_compare_trans with r; [done|]. by apply IH with u.
Qed.

(** In an ordered container a point is stored once. *)
Lemma ordered_find p v m : ordered m -> (p, v) ∈ m -> find p m = Some v.
Proof.
  induction m as [|[q w] m IH]; intros Hord Hin.
  - by apply elem_of_nil in Hin.
  - rewrite find_cons. apply elem_of_cons in Hin as [[= -> ->]|Hin].
    + by rewrite decide_True.
    + pose proof (ordered_above _ _ _ _ _ Hord Hin) as Hlt.
      rewrite decide_False.
      * apply IH; [by apply ordered_tail in Hord|done].
      * intros ->. by rewrite point_compare_refl in Hlt.
Qed.

Lemma ordered_insert_ordered p v m :
  ordered m -> find p m = None -> ordered (insert_ordered p v m).
Proof.
  induction m as [|[q w] m IH]; intros Hord Hnone; [done|].
  rewrite find_cons in Hnone. destruct (decide (p = q)) as [|Hne]; [done|].
  cbn [insert_ordered]. destruct (point_compare p q) eqn:Hpq.
  - by apply point_compare_Eq in Hpq.
  - by split.
  - pose proof (IH (ordered_tail _ _ _ Hord) Hnone) as IH'.
    split; [|done]. destruct m as [|[r u] m]; cbn [insert_ordered].
    + by rewrite point_compare_antisym, Hpq.
    + destruct (point_compare p r); [| |by destruct Hord];
        by rewrite point_compare_antisym, Hpq.
Qed.

Lemma ordered_set p v m : ordered m -> ordered (set p v m).
Proof.
  intros Hord. unfold set, emplace. destruct (find p m) eqn:E; [done|].
  by apply ordered_insert_ordered.
Qed.

End ordered_facts.

Lemma ordered_merge (this : store_t) images : ordered this -> ordered (merge this images).
Proof.
  unfold merge. revert this. induction images as [|[y v] images IH]; intros this H; [done|].
  simpl. by apply IH, ordered_set.
Qed.

(** The constructor leaves an ordered container, whatever its outcome. *)
Lemma hypersphere_ordered dimension layers : ordered (hypersphere dimension layers).2.
Proof.
  unfold hypersphere, construct. destruct dimension as [|n]; [done|].
  cbn [Nat.ltb Nat.leb assert]. unfold bind at 1, ret.
  set (zero := replicate (S n) 0%Z).
  destruct (octant_invariant ordered (fun _ => True)
              (fun point layer this _ => ordered_set point layer this)
              (fun _ _ _ _ => Logic.I) (S n) zero layers 0 Logic.I [])
    as [Hord _]; [done|].
  pose proof (octant_points_of_dimension (S n) layers) as Hdim. fold zero in Hdim.
  unfold bind.
  destruct (octant (S n) zero layers 0 []) as [[[]|f|] this]; cbn [fst snd] in *; try done.
  destruct (symmetry_passes (S n) this Hdim) as [-> _]. cbn [snd].
  assert (Hfold : forall (g : store_t -> nat -> store_t) l s,
    (forall s d, ordered s -> ordered (g s d)) -> ordered s -> ordered (fold_left g l s)).
  { intros g l. induction l as [|d l IH]; intros s Hg Hs; [done|]. simpl. by apply IH, Hg. }
  apply Hfold; [intros; by apply ordered_merge|].
  apply Hfold; [intros; by apply ordered_merge|done].
Qed.

(** ** The slicing loop stays within [radii] and [criteria] *)
Section slicing_in_bounds.
Context (I : store_t -> Prop).
Local Abbreviation E := in_bounds.

Lemma shrink_in_bounds bound d_diff i radii criteria :
  length radii <= length criteria ->
  triple I (shrink bound d_diff i radii criteria)
    (fun rc => length rc.1 <= length rc.2) E.
Proof.
  revert i radii criteria. induction bound as [|bound IH];
    intros i radii criteria Hlen; simpl;
    destruct (Nat.ltb_spec i (length radii)); try (by apply triple_ret).
  { by apply triple_diverge. }
  eapply triple_bind.
  { apply triple_at. intros ?%lookup_ge_None. lia. }
  intros r_i _. destruct (r_i - d_diff <=? 0)%Z.
  - eapply triple_bind with (Q := fun ri => length ri.1 = length radii).
    + destruct (Nat.ltb_spec 0 i); [|by apply triple_ret].
      eapply triple_bind.
      { apply triple_at. intros ?%lookup_ge_None. lia. }
      intros r_prev _. destruct (r_i + 1 <=? r_prev)%Z; [|by apply triple_ret].
      eapply triple_bind with (Q := fun radii' => length radii' = length radii).
      * destruct (r_i - d_diff =? 0)%Z; [by apply triple_ret|].
        eapply triple_post; [apply triple_put; lia|].
        intros radii' [-> _]. by rewrite length_insert.
      * intros radii' Hr. by apply triple_ret.
    + intros [radii' i'] Hr. simpl in *. apply triple_ret. simpl.
      rewrite pop_down_to_take, length_take. lia.
  - eapply triple_bind.
    { apply triple_at. intros ?%lookup_ge_None. lia. }
    intros c_i _.
    eapply triple_bind with (Q := fun rc => length rc.1 = length radii).
    + destruct (0 <? c_i)%Z; [|by apply triple_ret].
      eapply triple_bind; [apply triple_put; lia|]. intros radii' [-> _].
      apply triple_ret. simpl. by rewrite length_insert.
    + intros [radii' chi] Hr. simpl in *.
      eapply triple_bind; [apply triple_put; lia|]. intros criteria' [-> _].
      apply IH. rewrite length_insert. lia.
Qed.

End slicing_in_bounds.

(** ** Layers of one radius only: construction succeeds *)
Section one_radius_succeeds.
Context (n0 : nat).
Local Abbreviation I := (points_of_dimension n0).
Local Abbreviation E := in_bounds.

Lemma octant_1D_in_bounds centre n r d :
  length centre = n0 -> d < n0 -> 0 < n ->
  triple I (octant_1D centre (replicate n r) d) (fun _ => True) E.
Proof.
  intros Hc Hd Hn. unfold octant_1D.
  eapply triple_bind.
  { apply triple_at. intros ?%lookup_ge_None. rewrite length_replicate in *. lia. }
  intros radius Hradius. apply lookup_replicate in Hradius as [-> _].
  eapply triple_bind.
  { apply triple_at. intros ?%lookup_ge_None. lia. }
  intros x _.
  eapply triple_bind; [apply triple_put; lia|]. intros point [-> _].
  eapply triple_bind with (Q := fun pl => length pl.1 = n0).
  { intros this HI. rewrite (line_exit _ _ _ _ _ _ r); [| |lia].
    - split; [done|]. simpl. by rewrite length_insert.
    - apply lookup_replicate_2. rewrite length_replicate. lia. }
  intros [point' layer] Hp.
  apply triple_set_point. intros this. by apply points_of_dimension_set.
Qed.

Lemma slices_in_bounds bound octant_next centre d slice_centre d_diff radii criteria :
  (forall sc n r, length sc = n0 -> 0 < n ->
     triple I (octant_next sc (replicate n r)) (fun _ => True) E) ->
  length centre = n0 -> length slice_centre = n0 -> d < n0 ->
  radii = [] \/ (exists n r c, radii = replicate n r /\ criteria = replicate n c) ->
  triple I (slices bound octant_next centre d slice_centre d_diff radii criteria)
    (fun _ => True) E.
Proof.
  intros Hnext Hc. revert slice_centre d_diff radii criteria.
  induction bound as [|bound IH]; intros slice_centre d_diff radii criteria Hsc Hd Hflat;
    destruct radii as [|r0 rest] eqn:Hradii; cbn [slices]; try (by apply triple_ret).
  { by apply triple_diverge. }
  destruct Hflat as [?|(n & r & c & Hr & ->)]; [done|]. rewrite Hr.
  assert (0 < n) by (destruct n; [done|lia]).
  eapply triple_bind.
  { apply triple_at. intros ?%lookup_ge_None. lia. }
  intros c_d _.
  eapply triple_bind; [apply triple_put; lia|]. intros sc [-> _].
  eapply triple_bind; [apply Hnext; [by rewrite length_insert|done]|]. intros _ _.
  rewrite length_replicate.
  eapply triple_bind.
  { eapply triple_weaken.
    - apply triple_and; [apply (shrink_one_radius I)|apply (shrink_in_bounds I)].
      by rewrite !length_replicate.
    - intros rc [Hrc _]. exact Hrc.
    - by intros o [_ Ho]. }
  intros [radii' criteria'] Hrc. simpl in Hrc.
  apply IH; [by rewrite length_insert|done|done].
Qed.

Lemma octant_in_bounds depth centre n r d :
  length centre = n0 -> d < n0 -> 0 < n ->
  triple I (octant depth centre (replicate n r) d) (fun _ => True) E.
Proof.
  revert centre n r d. induction depth as [|depth IH];
    intros centre n r d Hc Hd Hn; simpl.
  all: eapply triple_bind; [by apply triple_assert|]; intros _ _.
  all: eapply triple_bind; [by apply triple_assert|]; intros _ _.
  all: destruct (Nat.eqb_spec (length centre - 1) d);
    [by apply octant_1D_in_bounds|].
  { by apply triple_diverge. }
  rewrite fill_eq, fmap_replicate.
  apply slices_in_bounds; try done.
  - intros sc n' r' Hsc Hn'. apply IH; [done|lia|done].
  - right. by exists n, r, (1 - r)%Z.
Qed.

End one_radius_succeeds.

(** ** Outcomes of the constructor *)
Lemma valid_layers_3_0 : valid_layers [3; 0]%Z.
Proof.
  split_and!; [done | | repeat constructor; lia].
  intros [|[|i]] x y; simpl; intros; simplify_eq; lia.
Qed.

Lemma hypersphere_outcome dimension layers :
  0 < dimension -> layers <> [] ->
  match (hypersphere dimension layers).1 with
  | Done _ => True
  | Fault f => exists i n, f = out_of_range i n
  | Diverged => False
  end.
Proof.
  intros Hdim Hl.
  destruct (construct_bounded (fun _ => True) (fun _ _ _ _ => Logic.I)
              dimension layers Hdim Hl [] Logic.I) as [_ H].
  unfold hypersphere. destruct (construct dimension layers []).1 as [a|f|]; [done| |].
  - destruct H as (i & n & [= ->]). eauto.
  - by destruct H as (i & n & ?).
Qed.

Lemma hypersphere_dimension_0 layers :
  hypersphere 0 layers = (Fault (assertion_failed "0 < dimension"), []).
Proof. reflexivity. Qed.

Lemma hypersphere_no_layers dimension :
  0 < dimension ->
  hypersphere dimension [] = (Fault (assertion_failed "0 < layers.size()"), []).
Proof. intros Hdim. destruct dimension as [|n]; [lia|]. reflexivity. Qed.

Lemma hypersphere_one_radius_succeeds dimension n r :
  0 < dimension -> 0 < n ->
  exists m, hypersphere dimension (replicate n r) = (Done tt, m).
Proof.
  intros Hdim Hn. unfold hypersphere, construct.
  destruct (Nat.ltb_spec 0 dimension); [|lia]. unfold assert, bind at 1, ret.
  set (zero := replicate dimension 0%Z).
  assert (Hne : replicate n r <> []) by (destruct n; [lia|done]).
  destruct (octant_bounded (fun _ => True) (fun _ _ _ _ => Logic.I)
              dimension zero (replicate n r) 0) with (this := @nil (point_t * nat))
    as [_ Hb]; [by unfold zero; rewrite length_replicate|done
               |unfold zero; rewrite length_replicate; lia|done|].
  destruct (octant_in_bounds dimension dimension zero n r 0)
    with (this := @nil (point_t * nat)) as [Hdimn Hi];
    [by unfold zero; rewrite length_replicate|done|done|by intros p v ?%elem_of_nil|].
  unfold bind.
  destruct (octant dimension zero (replicate n r) 0 []) as [[[]|f|] this]; simpl in *.
  - destruct (symmetry_passes dimension this Hdimn) as [-> _]. eauto.
  - destruct Hb as (i & k & [= ->]). by destruct (Hi i k).
  - by destruct Hb as (i & k & ?).
Qed.

Lemma bind_Done {A B} (m : M A) (k : A -> M B) a this this' :
  m this = (Done a, this') -> bind m k this = k a this'.
Proof. intros H. unfold bind. by rewrite H. Qed.


(** ** The program as built completes *)
Section as_built_completes.
Context (past_the_end : list Z -> point_t -> Z).
Context (n0 : nat).
Local Abbreviation I := (points_of_dimension n0).
Local Abbreviation E := never.

Lemma at_or_past_completes stray layers i :
  i <= length layers ->
  triple I (as_built.at_or_past stray layers i)
    (fun x => layers !! i = Some x \/ (i = length layers /\ x = stray)) E.
Proof.
  intros Hi this HI. unfold as_built.at_or_past.
  destruct (layers !! i) as [x|] eqn:Hx; simpl; [by auto|].
  apply lookup_ge_None in Hx. destruct (Nat.eqb_spec i (length layers)); [|lia].
  simpl. by auto.
Qed.

Lemma advance_completes bound stray layers radius layer :
  length layers - layer <= bound ->
  triple I (as_built.advance bound stray layers radius layer) (fun _ => True) E.
Proof.
  revert layer. induction bound as [|bound IH]; intros layer Hb; simpl;
    destruct (Nat.ltb_spec layer (length layers)); try (by apply triple_ret); [lia|].
  eapply triple_bind; [apply at_or_past_completes; lia|]. intros next _.
  destruct (radius <=? next)%Z; [apply IH; lia | by apply triple_ret].
Qed.

Lemma line_completes bound layers d point radius layer :
  layers <> [] -> d < n0 -> length point = n0 ->
  (forall inn, layers !! (length layers - 1) = Some inn ->
     Z.to_nat (radius - inn) <= bound) ->
  triple I (as_built.line past_the_end bound layers d point radius layer)
    (fun pl => length pl.1 = n0) E.
Proof.
  intros Hl Hd. assert (Hlast : layers !! (length layers - 1) = None -> False).
  { intros ?%lookup_ge_None. destruct layers; simpl in *; [done|lia]. }
  revert point radius layer. induction bound as [|bound IH];
    intros point radius layer Hp Hb; simpl.
  - eapply triple_bind; [by apply triple_at|]. intros inn Hinn.
    destruct (Z.ltb_spec inn radius); [|by apply triple_ret].
    specialize (Hb _ Hinn). lia.
  - eapply triple_bind; [by apply triple_at|]. intros inn Hinn.
    destruct (Z.ltb_spec inn radius); [|by apply triple_ret].
    eapply triple_bind.
    { apply triple_set_point. intros this. by apply points_of_dimension_set. }
    intros _ _.
    eapply triple_bind; [apply triple_at; intros ?%lookup_ge_None; lia|]. intros x _.
    eapply triple_bind; [apply triple_put; lia|]. intros point' [-> _].
    eapply triple_bind; [by apply advance_completes|]. intros layer' _.
    apply IH; [by rewrite length_insert|].
    intros inn' Hinn'. specialize (Hb _ Hinn'). simplify_eq. lia.
Qed.

Lemma octant_1D_completes centre layers d :
  length centre = n0 -> d < n0 -> layers <> [] ->
  triple I (as_built.octant_1D past_the_end centre layers d) (fun _ => True) E.
Proof.
  intros Hc Hd Hl. unfold as_built.octant_1D.
  eapply triple_bind.
  { apply triple_at. intros ?%lookup_ge_None. destruct layers; simpl in *; [done|lia]. }
  intros radius _.
  eapply triple_bind; [apply triple_at; intros ?%lookup_ge_None; lia|]. intros x _.
  eapply triple_bind; [apply triple_put; lia|]. intros point [-> _].
  eapply triple_bind.
  { apply line_completes; [done|done|by rewrite length_insert|]. by intros inn ->. }
  intros [point' layer] Hp. simpl in Hp.
  apply triple_set_point. intros this. by apply points_of_dimension_set.
Qed.

Lemma slices_completes bound octant_next centre d slice_centre d_diff radii criteria :
  (forall sc ra, length sc = n0 -> ra <> [] ->
     triple I (octant_next sc ra) (fun _ => True) E) ->
  length centre = n0 -> length slice_centre = n0 -> d < n0 ->
  length radii <= length criteria ->
  (forall r0, radii !! 0 = Some r0 -> Z.to_nat (Z.max 1 (r0 - d_diff)) <= bound) ->
  triple I (slices bound octant_next centre d slice_centre d_diff radii criteria)
    (fun _ => True) E.
Proof.
  intros Hnext Hc. revert slice_centre d_diff radii criteria.
  induction bound as [|bound IH]; intros slice_centre d_diff radii criteria Hsc Hd Hlen Hb;
    destruct radii as [|r0 rest] eqn:Hradii; cbn [slices]; try (by apply triple_ret).
  { specialize (Hb r0 eq_refl). lia. }
  rewrite <- Hradii in *.
  eapply triple_bind; [apply triple_at; intros ?%lookup_ge_None; lia|]. intros c_d _.
  eapply triple_bind; [apply triple_put; lia|]. intros sc [-> _].
  eapply triple_bind.
  { apply Hnext; [by rewrite length_insert|by rewrite Hradii]. }
  intros _ _.
  eapply triple_bind.
  { eapply triple_weaken.
    - apply triple_and; [apply (shrink_head I) with (r0 := r0); by rewrite Hradii
                        |by apply (shrink_in_bounds I)].
    - intros rc H. exact H.
    - intros o [(i & n & ->) Hin]. by destruct (Hin i n). }
  intros [radii' criteria'] [Hrc Hlen']. simpl in Hrc, Hlen'.
  apply IH; [by rewrite length_insert|done|done|].
  intros r0' Hr0'. specialize (Hb r0). rewrite Hradii in Hb. specialize (Hb eq_refl).
  destruct Hrc as [->|(r0'' & Hr0'' & Hle & Hlt)]; [done|]. simplify_eq. lia.
Qed.

Lemma octant_completes depth centre layers d :
  length centre = n0 -> d < n0 -> layers <> [] -> n0 - 1 - d <= depth ->
  triple I (as_built.octant past_the_end depth centre layers d) (fun _ => True) E.
Proof.
  revert centre layers d. induction depth as [|depth IH];
    intros centre layers d Hc Hd Hl Hdepth; simpl.
  all: eapply triple_bind;
    [apply triple_assert; intros ?%Nat.ltb_ge; lia|]; intros _ _.
  all: eapply triple_bind;
    [apply triple_assert; intros ?%Nat.ltb_ge; destruct layers; simpl in *; [done|lia]|];
    intros _ _.
  all: destruct (Nat.eqb_spec (length centre - 1) d); [by apply octant_1D_completes|].
  { lia. }
  rewrite fill_eq.
  apply slices_completes; try done.
  - intros sc ra Hsc Hra. apply IH; [done|lia|done|lia].
  - by rewrite length_fmap.
  - intros r0 ->. simpl. lia.
Qed.

Lemma symmetry_completes : triple I (symmetry n0) (fun _ => True) E.
Proof.
  intros this HI. destruct (symmetry_passes n0 this HI) as [-> HI']. done.
Qed.

Lemma construct_completes layers :
  0 < n0 -> layers <> [] ->
  triple I (as_built.construct past_the_end n0 layers) (fun _ => True) E.
Proof.
  intros Hdim Hl. unfold as_built.construct.
  eapply triple_bind; [apply triple_assert; intros ?%Nat.ltb_ge; lia|]. intros _ _.
  eapply triple_bind.
  - apply octant_completes; [by rewrite length_replicate|done|done|lia].
  - intros _ _. apply symmetry_completes.
Qed.

End as_built_completes.

Lemma as_built_completes past_the_end dimension layers :
  0 < dimension -> layers <> [] ->
  exists m, as_built.hypersphere past_the_end dimension layers = (Done tt, m)
            /\ points_of_dimension dimension m.
Proof.
  intros Hdim Hl.
  destruct (construct_completes past_the_end dimension layers Hdim Hl [])
    as [HI H]; [by intros p v ?%elem_of_nil|].
  unfold as_built.hypersphere.
  destruct (as_built.construct past_the_end dimension layers []) as [[[]|f|] m];
    simpl in *; [|done|done]. by exists m.
Qed.

(** ** The line of the program as built *)
Section as_built_line.
Context (past_the_end : list Z -> point_t -> Z).
Context (layers : list Z) (r0 inn : Z).
Context (Hvalid : valid_layers layers).
Context (Hr0 : layers !! 0 = Some r0).
Context (Hinn : layers !! (length layers - 1) = Some inn).

Lemma valid_layers_between j x : layers !! j = Some x -> (inn <= x <= r0)%Z.
Proof.
  destruct Hvalid as (_ & Hmono & _). intros Hx.
  pose proof (lookup_lt_Some _ _ _ Hx). split.
  - apply (non_increasing_le layers j (length layers - 1)); [done|lia|done|done].
  - apply (non_increasing_le layers 0 j); [done|lia|done|done].
Qed.

Lemma valid_layers_inn : (0 <= inn)%Z.
Proof.
  destruct Hvalid as (_ & _ & Hpos). rewrite Forall_forall in Hpos.
  apply Hpos. by apply list_elem_of_lookup_2 in Hinn.
Qed.

(** Above the innermost radius the layer stays below the last index; at the
    innermost radius it reaches the last index, or the size of [layers]
    when the read past the end says so. *)
Lemma advance_line bound stray radius layer this :
  (inn <= radius)%Z -> layer < length layers ->
  ((inn < radius)%Z -> S layer < length layers) ->
  length layers - layer <= bound ->
  exists layer',
    as_built.advance bound stray layers radius layer this = (Done layer', this)
    /\ layer <= layer'
    /\ ((inn < radius)%Z -> S layer' < length layers)
    /\ (radius = inn -> length layers - 1 <= layer').
Proof.
  intros Hradius. revert layer.
  induction bound as [|bound IH]; intros layer Hlayer Habove Hb; [lia|].
  cbn [as_built.advance]. destruct (Nat.ltb_spec layer (length layers)); [|lia].
  unfold as_built.at_or_past.
  destruct (layers !! (layer + 1)) as [next|] eqn:Hnext.
  - rewrite (bind_Done _ _ next this this) by done.
    pose proof (lookup_lt_Some _ _ _ Hnext) as Hlt.
    pose proof (valid_layers_between _ _ Hnext) as Hbetween.
    destruct (Z.leb_spec radius next) as [Hle|Hgt].
    + destruct (IH (layer + 1)) as (layer' & -> & ? & ? & ?); [done| |lia|].
      { intros Hlt'. destruct (decide (layer + 1 = length layers - 1)) as [Heq|]; [|lia].
        rewrite Heq in Hnext. simplify_eq. lia. }
      exists layer'. split_and!; [done|lia|done|done].
    + exists layer. split_and!; [done|done|done|lia].
  - apply lookup_ge_None in Hnext.
    destruct (Nat.eqb_spec (layer + 1) (length layers)) as [Heq|]; [|lia].
    rewrite (bind_Done _ _ stray this this) by done.
    assert (radius = inn) as -> by (destruct (decide (inn < radius)%Z); [|lia];
                                    specialize (Habove ltac:(done)); lia).
    destruct (inn <=? stray)%Z.
    + exists (layer + 1). split_and!; [|lia|lia|lia].
      destruct bound; cbn [as_built.advance];
        by destruct (Nat.ltb_spec (layer + 1) (length layers)); [lia|].
    + exists layer. split_and!; [done|lia|lia|lia].
Qed.

Lemma line_line bound radius layer this :
  (inn <= radius)%Z ->
  ((inn < radius)%Z -> S layer < length layers) ->
  Z.to_nat (radius - inn) <= bound ->
  line_store layers radius layer this ->
  exists layer' this',
    as_built.line past_the_end bound layers 0 [radius] radius layer this
    = (Done ([inn], layer'), this')
    /\ (forall p v, (p, v) ∈ this' ->
          exists x, p = [x] /\ (inn < x)%Z /\ S v < length layers)
    /\ antitone_line this'
    /\ (radius = inn -> this' = this /\ layer' = layer)
    /\ ((inn < radius)%Z -> length layers - 1 <= layer').
Proof.
  revert radius layer this.
  induction bound as [|bound IH]; intros radius layer this Hradius Habove Hb [Hpts Hanti].
  all: cbn [as_built.line]; rewrite (bind_Done _ _ inn this this) by (unfold at_; by rewrite Hinn).
  all: destruct (Z.ltb_spec inn radius) as [Hlt|Hge].
  all: try (assert (radius = inn) as -> by lia; exists layer, this;
            split_and!; [done| |done|done|lia];
            intros p v Hp; destruct (Hpts p v Hp) as (x & ? & ? & ? & ?); by exists x).
  { lia. }
  specialize (Habove Hlt).
  rewrite (bind_Done _ _ tt this (set [radius] layer this)) by done.
  rewrite (bind_Done _ _ radius _ (set [radius] layer this)) by done.
  rewrite (bind_Done _ _ [(radius - 1)%Z] _ (set [radius] layer this)) by done.
  destruct (advance_line (length layers - layer) (past_the_end layers [(radius - 1)%Z])
              (radius - 1) layer (set [radius] layer this))
    as (layer1 & Hadv & Hle & Habove1 & Hlast1); [lia|lia|lia|lia|].
  rewrite (bind_Done _ _ layer1 _ (set [radius] layer this)) by done.
  destruct (IH (radius - 1)%Z layer1 (set [radius] layer this))
    as (layer' & this' & -> & Hpts' & Hanti' & Hsame & Hlast'); [lia|done|lia| |].
  { split.
    - intros p v [[= -> ->]|Hp]%elem_of_set.
      + exists radius. split_and!; [done|lia|lia|lia].
      + destruct (Hpts p v Hp) as (x & -> & ? & ? & ?). exists x.
        split_and!; [done|lia|lia|lia].
    - intros x y v w [[= -> ->]|Hx]%elem_of_set [[= -> ->]|Hy]%elem_of_set Hxy.
      + done.
      + destruct (Hpts _ _ Hy) as (y' & [= <-] & ? & ? & ?). lia.
      + destruct (Hpts _ _ Hx) as (x' & [= <-] & ? & ? & ?). lia.
      + by apply (Hanti x y). }
  exists layer', this'. split_and!; [done|done|done|lia|].
  intros _. destruct (decide (radius - 1 = inn)%Z) as [Heq|Hne].
  - specialize (Hlast1 Heq). destruct (Hsame Heq) as [_ ->]. lia.
  - apply Hlast'. lia.
Qed.


(** The first half-line: points from the innermost radius on, payloads not
    decreasing towards the centre. *)
Lemma octant_1D_line :
  exists this,
    as_built.octant_1D past_the_end [0%Z] layers 0 [] = (Done tt, this)
    /\ (forall p v, (p, v) ∈ this -> exists x, p = [x] /\ (0 <= x)%Z)
    /\ antitone_line this.
Proof.
  unfold as_built.octant_1D.
  rewrite (bind_Done _ _ r0 [] []) by (unfold at_; by rewrite Hr0).
  rewrite (bind_Done _ _ 0%Z [] []) by done.
  rewrite (bind_Done _ _ [r0] [] []) by (unfold put; cbn; by rewrite Z.add_0_l).
  rewrite Hinn. cbn [default].
  pose proof (valid_layers_between 0 r0 Hr0) as [Hle _].
  pose proof valid_layers_inn as Hpos.
  destruct (line_line (Z.to_nat (r0 - inn)) r0 0 []) as
    (layer' & this' & Hline & Hpts & Hanti & Hsame & Hlast); [done| |done| |].
  { intros Hlt. destruct (decide (length layers - 1 = 0)) as [Heq|]; [|lia].
    rewrite Heq in Hinn. simplify_eq. lia. }
  { split; [by intros p v ?%elem_of_nil|]. by intros x y v w ?%elem_of_nil. }
  rewrite (bind_Done _ _ ([inn], layer') [] this') by done.
  eexists. split; [reflexivity|].
  set (stopper := if layer' =? 0 then layer' else layer' - 1).
  assert (Hstopper : forall p v, (p, v) ∈ this' -> v <= stopper).
  { intros p v Hp. destruct (Hpts p v Hp) as (x & -> & Hx & Hv).
    destruct (decide (inn < r0)%Z) as [Hlt|Hge].
    - specialize (Hlast Hlt). unfold stopper. destruct (Nat.eqb_spec layer' 0); lia.
    - destruct Hsame as [-> _]; [lia|]. by apply elem_of_nil in Hp. }
  split.
  - intros p v [[= -> ->]|Hp]%elem_of_set; [by exists inn|].
    destruct (Hpts p v Hp) as (x & -> & Hx & _). exists x. split; [done|lia].
  - intros x y v w [[= -> ->]|Hx]%elem_of_set [[= -> ->]|Hy]%elem_of_set Hxy.
    + done.
    + destruct (Hpts _ _ Hy) as (y' & [= <-] & ? & ?). lia.
    + by apply (Hstopper [x]).
    + by apply (Hanti x y).
Qed.

End as_built_line.

Lemma find_diagonal_pass_1 q (this : store_t) :
  find q (diagonal_pass 1 this 0) = find q this.
Proof.
  unfold diagonal_pass. rewrite find_merge.
  destruct (find q this) as [v|] eqn:Hq; [done|].
  change ((0 + 1) mod 1) with 0. rewrite find_diagonal_images by done.
  by rewrite swap_coords_fixed.
Qed.

Lemma find_axial_pass q (this : store_t) d :
  find q (axial_pass this d)
  = match find q this with Some v => Some v | None => find (negate_coord d q) this end.
Proof.
  unfold axial_pass. rewrite find_merge.
  destruct (find q this) as [v|] eqn:Hq; [done|]. by apply find_axial_images.
Qed.

(** Layer monotonicity on a line, whatever is read past the end. *)
Lemma as_built_line_monotone past_the_end layers m p q vp vq :
  valid_layers layers ->
  as_built.hypersphere past_the_end 1 layers = (Done tt, m) ->
  find p m = Some vp -> find q m = Some vq ->
  (norm2 q <= norm2 p)%Z -> vp <= vq.
Proof.
  intros Hvalid. pose proof Hvalid as (Hne & _).
  destruct (lookup_lt_is_Some_2 layers 0) as [r0 Hr0].
  { destruct layers; [done|simpl; lia]. }
  destruct (lookup_lt_is_Some_2 layers (length layers - 1)) as [inn Hinn].
  { apply lookup_lt_Some in Hr0. lia. }
  destruct (octant_1D_line past_the_end layers r0 inn Hvalid Hr0 Hinn)
    as (this & Hoct & Hpts & Hanti).
  unfold as_built.hypersphere, as_built.construct.
  rewrite (bind_Done _ _ tt [] []) by done.
  rewrite (bind_Done _ _ tt [] this).
  2:{ cbn [as_built.octant replicate length].
      rewrite (bind_Done _ _ tt [] []) by done.
      rewrite (bind_Done _ _ tt [] []); [done|].
      unfold assert. apply lookup_lt_Some in Hr0.
      by destruct (Nat.ltb_spec 0 (length layers)); [|lia]. }
  destruct (symmetry_passes 1 this) as [-> _].
  { intros p' v' Hp'. by destruct (Hpts p' v' Hp') as (x & -> & _). }
  intros [= <-]. cbn [seq fold_left].
  rewrite !find_axial_pass, !find_diagonal_pass_1.
  assert (Himage : forall p v,
    match find p this with Some v => Some v | None => find (negate_coord 0 p) this end
    = Some v ->
    exists x, ([x], v) ∈ this /\ (0 <= x)%Z /\ norm2 p = (x * x)%Z).
  { intros p' v H. destruct (find p' this) as [v'|] eqn:Hp'.
    - injection H as ->. apply find_elem_of in Hp'.
      destruct (Hpts _ _ Hp') as (x & -> & Hx). exists x. split_and!; [done|done|].
      cbn. lia.
    - apply find_elem_of in H. destruct (Hpts _ _ H) as (x & Heq & Hx).
      exists x. rewrite <- Heq. split_and!; [done|done|].
      pose proof (length_negate_coord 0 p') as Hlen. rewrite Heq in Hlen.
      destruct p' as [|a [|]]; try done. cbn in Heq. injection Heq as <-. cbn. lia. }
  intros (x & Hx & Hx0 & ->)%Himage (y & Hy & Hy0 & ->)%Himage Hnorm.
  apply (Hanti x y); [done|done|nia].
Qed.

(** ** Where no read goes past the end, the two models agree *)
Section as_built_agrees.
Context (past_the_end : list Z -> point_t -> Z).

Lemma bind_Done_inv {A B} (m : M A) (k : A -> M B) b this this'' :
  bind m k this = (Done b, this'') ->
  exists a this', m this = (Done a, this') /\ k a this' = (Done b, this'').
Proof.
  unfold bind. destruct (m this) as [[a|f|] this']; [|done|done]. by exists a, this'.
Qed.

Ltac step H :=
  let a := fresh "a" in let this1 := fresh "this" in let Hm := fresh "Hm" in
  apply bind_Done_inv in H as (a & this1 & Hm & H);
  rewrite (bind_Done _ _ a _ this1 Hm).

Lemma advance_agrees bound stray layers radius layer this layer' this' :
  advance bound layers radius layer this = (Done layer', this') ->
  as_built.advance bound stray layers radius layer this = (Done layer', this').
Proof.
  revert layer this. induction bound as [|bound IH]; intros layer this;
    cbn [advance as_built.advance]; destruct (layer <? length layers); try done.
  intros H. apply bind_Done_inv in H as (next & this1 & Hnext & H).
  unfold at_ in Hnext. unfold as_built.at_or_past.
  destruct (layers !! (layer + 1)) as [x|]; [|done]. injection Hnext as -> ->.
  rewrite (bind_Done _ _ next this1 this1) by done.
  destruct (radius <=? next)%Z; [by apply IH|done].
Qed.

Lemma line_agrees bound layers d point radius layer this pl this' :
  line bound layers d point radius layer this = (Done pl, this') ->
  as_built.line past_the_end bound layers d point radius layer this = (Done pl, this').
Proof.
  revert point radius layer this. induction bound as [|bound IH];
    intros point radius layer this; cbn [line as_built.line]; intros H.
  all: step H; destruct (_ <? radius)%Z; try done.
  do 3 step H. apply bind_Done_inv in H as (layer1 & s1 & Hadv & H).
  rewrite (bind_Done _ _ layer1 _ s1); [by apply IH|]. by apply advance_agrees.
Qed.

Lemma octant_1D_agrees centre layers d this this' :
  octant_1D centre layers d this = (Done tt, this') ->
  as_built.octant_1D past_the_end centre layers d this = (Done tt, this').
Proof.
  unfold octant_1D, as_built.octant_1D. intros H. do 3 step H.
  apply bind_Done_inv in H as (pl & s1 & Hline & H).
  rewrite (bind_Done _ _ pl _ s1); [done|]. by apply line_agrees.
Qed.

Lemma slices_agrees bound (next1 next2 : point_t -> list Z -> M unit)
    centre d slice_centre d_diff radii criteria this this' :
  (forall sc ra s s', next1 sc ra s = (Done tt, s') -> next2 sc ra s = (Done tt, s')) ->
  slices bound next1 centre d slice_centre d_diff radii criteria this = (Done tt, this') ->
  slices bound next2 centre d slice_centre d_diff radii criteria this = (Done tt, this').
Proof.
  intros Hnext. revert slice_centre d_diff radii criteria this.
  induction bound as [|bound IH]; intros slice_centre d_diff radii criteria this;
    destruct radii as [|r0 rest]; cbn [slices]; try done.
  intros H. do 2 step H.
  apply bind_Done_inv in H as ([] & s1 & Hoct & H).
  rewrite (bind_Done _ _ tt _ s1) by by apply Hnext.
  apply bind_Done_inv in H as ([radii' criteria'] & s2 & Hshrink & H).
  rewrite (bind_Done _ _ (radii', criteria') _ s2 Hshrink). by apply IH.
Qed.

Lemma octant_agrees depth centre layers d this this' :
  octant depth centre layers d this = (Done tt, this') ->
  as_built.octant past_the_end depth centre layers d this = (Done tt, this').
Proof.
  revert centre layers d this this'. induction depth as [|depth IH];
    intros centre layers d this this'; cbn [octant as_built.octant]; intros H.
  all: do 2 step H.
  all: destruct (length centre - 1 =? d); [by apply octant_1D_agrees|]; try done.
  destruct (fill layers) as [radii criteria].
  eapply slices_agrees; [|done]. intros sc ra s s'. apply IH.
Qed.

Lemma construct_agrees dimension layers this this' :
  construct dimension layers this = (Done tt, this') ->
  as_built.construct past_the_end dimension layers this = (Done tt, this').
Proof.
  unfold construct, as_built.construct. intros H. step H.
  apply bind_Done_inv in H as ([] & s1 & Hoct & H).
  rewrite (bind_Done _ _ tt _ s1); [done|]. by apply octant_agrees.
Qed.

End as_built_agrees.

(** A construction that completes without a read past the end is the
    construction of the program as built. *)
Lemma as_built_agrees past_the_end dimension layers m :
  hypersphere dimension layers = (Done tt, m) ->
  as_built.hypersphere past_the_end dimension layers = (Done tt, m).
Proof. apply construct_agrees. Qed.

(** Layers of one radius: the program as built stores payload 0 only. *)
Lemma as_built_one_radius past_the_end dimension n r m :
  as_built.hypersphere past_the_end dimension (replicate n r) = (Done tt, m) ->
  all_layer_0 m.
Proof.
  intros Hm. destruct dimension as [|dimension]; [done|].
  destruct n as [|n]; [done|].
  destruct (hypersphere_one_radius_succeeds (S dimension) (S n) r) as [m' Hm']; [lia|lia|].
  pose proof (hypersphere_one_radius (S dimension) (S n) r) as H0. rewrite Hm' in H0.
  rewrite (as_built_agrees past_the_end _ _ _ Hm') in Hm. by injection Hm as <-.
Qed.

(** * The claims *)

(** C1, violated by the code.  C1 asks that no index leaves its vector; but
    for every dimension >= 1 and every valid list of layers whose outer
    radius differs from its innermost radius, construction stops at a read
    past the end of [layers]: the layer-advance loop of the 1D case reads
    [layers[layer + 1]] at [layer + 1 = layers.size()]. *)
Theorem C1_graded_layers_overrun dimension layers r0 inn :
  0 < dimension -> valid_layers layers ->
  layers !! 0 = Some r0 -> layers !! (length layers - 1) = Some inn -> r0 <> inn ->
  (hypersphere dimension layers).1
  = Fault (out_of_range (length layers) (length layers)).
Proof.
  intros Hdim Hvalid Hr0 Hinn Hne.
  destruct (valid_layers_cases layers Hvalid) as [(n & r & ->)|(r0' & inn' & Hg)].
  - apply lookup_replicate in Hr0 as [-> _]. apply lookup_replicate in Hinn as [-> _]. done.
  - by apply hypersphere_overrun with r0' inn'.
Qed.

(** C1 at [dimension = 1], [layers = [3, 0]]: index 2 of a list of size 2. *)
Lemma C1_failing_input :
  valid_layers [3; 0]%Z
  /\ (hypersphere 1 [3; 0]%Z).1 = Fault (out_of_range 2 2).
Proof.
  split; [apply valid_layers_3_0|].
  apply (C1_graded_layers_overrun 1 [3; 0]%Z 3 0);
    [lia | apply valid_layers_3_0 | reflexivity | reflexivity | lia].
Defined.

(** C2, as the code has it.  With [dimension = 1] and [layers = [3, 0]] the
    construction produces exactly seven associations: every point from -3
    to 3.  The 1D case stores 3, 2 and 1 with payload 0 (one point per unit
    step of the radius, not one per layer radius), then the centre; the
    axial pass adds -1, -2 and -3.  The payload of the centre is 1 when the
    value the layer-advance loop reads at [layers[2]], one past the end of
    [layers], is at least 0, and 0 otherwise. *)
Theorem C2_line_of_3_0 (past_the_end : list Z -> point_t -> Z) :
  as_built.hypersphere past_the_end 1 [3; 0]%Z
  = (Done tt,
     [([(-3)%Z], 0); ([(-2)%Z], 0); ([(-1)%Z], 0);
      ([0%Z], if (0 <=? past_the_end [3; 0]%Z [0%Z])%Z then 1 else 0);
      ([1%Z], 0); ([2%Z], 0); ([3%Z], 0)]).
Proof. vm_compute. destruct (past_the_end _ _); reflexivity. Qed.

(** C2, as stated, fails: the construction does not produce the three
    associations [{-3: 0, 0: 1, 3: 0}] only; whatever is read past the end
    of [layers], it stores the point 2, which is not among them. *)
Lemma C2_counterexample :
  let claimed : store_t := [([(-3)%Z], 0); ([0%Z], 1); ([3%Z], 0)] in
  contains [2%Z] claimed = false
  /\ forall past_the_end,
       contains [2%Z] (as_built.hypersphere past_the_end 1 [3; 0]%Z).2 = true
       /\ as_built.hypersphere past_the_end 1 [3; 0]%Z <> (Done tt, claimed).
Proof.
  split; [reflexivity|]. intros past_the_end.
  assert (H : contains [2%Z] (as_built.hypersphere past_the_end 1 [3; 0]%Z).2 = true).
  { vm_compute. destruct (past_the_end _ _); reflexivity. }
  split; [done|]. intros Heq. rewrite Heq in H. discriminate H.
Qed.

(** C3, as the code has it.  For every store, point [p] and payloads [v1],
    [v2]: inserting [(p, v1)] and then [(p, v2)] raises no error, the second
    insertion changes neither the associations nor [size()], and the payload
    recorded for [p] is the one recorded by the first writer: [v1] when [p]
    was absent before ([get p m = None]), and the payload [p] already had
    otherwise. *)
Theorem C3_first_write_wins (m : store_t) (p : point_t) (v1 v2 : nat) :
  (set_point p v1 ;; set_point p v2) m = (Done tt, set p v1 m)
  /\ set p v2 (set p v1 m) = set p v1 m
  /\ iterate (set p v2 (set p v1 m)) = iterate (set p v1 m)
  /\ size (set p v2 (set p v1 m)) = size (set p v1 m)
  /\ get_payload p (set p v2 (set p v1 m)) = Done (default v1 (get p m)).
Proof.
  assert (Hfind : find p (set p v1 m) = Some (default v1 (find p m))).
  { rewrite find_set. by destruct (decide (p = p)). }
  assert (Hnoop : set p v2 (set p v1 m) = set p v1 m).
  { by apply set_present with (w := default v1 (find p m)). }
  split_and!.
  - unfold bind, set_point. by rewrite Hnoop.
  - done.
  - by rewrite Hnoop.
  - by rewrite Hnoop.
  - unfold get_payload, get. by rewrite Hnoop, Hfind.
Qed.

(** C3, as stated, fails on a store that already holds [p]: the payload
    recorded after both insertions is the old one, not [v1]. *)
Lemma C3_counterexample :
  let m : store_t := [([0%Z], 7)] in
  get_payload [0%Z] (set [0%Z] 2 (set [0%Z] 1 m)) = Done 7
  /\ get_payload [0%Z] (set [0%Z] 2 (set [0%Z] 1 m)) <> Done 1.
Proof. split; [reflexivity | discriminate]. Qed.



(** C5, at a failing input.  With [dimension = 4] and [layers = [1]] the
    construction succeeds and stores [(0,0,0,1)] with payload 0, but not
    [(0,1,0,0)], which is a permutation of its coordinates. *)
Theorem C5_not_closed_in_dimension_4 :
  exists m, hypersphere 4 [1]%Z = (Done tt, m)
  /\ get_payload [0; 0; 0; 1]%Z m = Done 0
  /\ [0; 1; 0; 0]%Z ≡ₚ [0; 0; 0; 1]%Z
  /\ contains [0; 1; 0; 0]%Z m = false
  /\ contains [0; (-1); 0; 0]%Z m = false.
Proof.
  eexists. split; [by vm_compute|]. split_and!; try done.
  apply Permutation_skip. etrans; [apply Permutation_swap|].
  apply Permutation_skip, Permutation_swap.
Qed.

(** C6.  [get_payload(p)] fails (with the [runtime_error] "no such point")
    if and only if [p] is not in the store, and otherwise returns a payload
    stored for [p]; every point returned by iteration is contained and its
    [get_payload] succeeds, with the iterated payload when the store is the
    one a construction leaves; no other query operation fails. *)
Theorem C6_get_payload_only_failure (m : store_t) :
  (forall p, (exists f, get_payload p m = Fault f) <-> contains p m = false)
  /\ (forall p, contains p m = false <-> forall v, (p, v) ∉ iterate m)
  /\ (forall p f, get_payload p m = Fault f ->
        f = runtime_error "libaccl::points::get_payload: no such point")
  /\ (forall p v, get_payload p m = Done v -> (p, v) ∈ iterate m)
  /\ (forall p v, (p, v) ∈ iterate m ->
        contains p m = true /\ exists w, get_payload p m = Done w)
  /\ (forall dimension layers p v,
        (p, v) ∈ iterate (hypersphere dimension layers).2 ->
        contains p (hypersphere dimension layers).2 = true
        /\ get_payload p (hypersphere dimension layers).2 = Done v)
  /\ (forall q f, run_query q m = Fault f -> exists p, q = q_get_payload p)
  /\ (forall q, run_query q m <> Diverged).
Proof.
  unfold get_payload, contains, get, iterate. split_and!.
  - intros p. destruct (find p m); split; try done. by intros [f ?]. by eauto.
  - intros p. rewrite <- find_None. by destruct (find p m).
  - intros p f. destruct (find p m); [done|]. by intros [= <-].
  - intros p v. destruct (find p m) eqn:E; [|done]. intros [= <-]. by apply find_elem_of.
  - intros p v [w ->]%elem_of_find. eauto.
  - intros dimension layers p v Hp.
    by rewrite (ordered_find p v _ (hypersphere_ordered dimension layers) Hp).
  - intros [] f; simpl; try done. by eauto.
  - intros []; simpl; try done. unfold get_payload, get. by destruct (find _ _).
Qed.

(** C7, as the code has it.  In every hypersphere of dimension 1, and in
    every hypersphere whose layers all have one radius, constructed from a
    valid list of layers, whatever is read past the end of [layers]: for any
    two stored points [p] and [q], if the Euclidean norm of [p] is at least
    that of [q] (compared through their squares), then the payload of [p] is
    at most the payload of [q]. *)
Theorem C7_layer_monotone_on_a_line (past_the_end : list Z -> point_t -> Z)
    (dimension : nat) (layers : list Z) (m : store_t) (p q : point_t)
    (vp vq : nat) :
  valid_layers layers ->
  dimension = 1 \/ (exists n r, layers = replicate n r) ->
  as_built.hypersphere past_the_end dimension layers = (Done tt, m) ->
  get_payload p m = Done vp -> get_payload q m = Done vq ->
  (norm2 q <= norm2 p)%Z ->
  vp <= vq.
Proof.
  intros Hvalid Hcase Hm. unfold get_payload, get.
  destruct (find p m) as [vp'|] eqn:Hp; [|done].
  destruct (find q m) as [vq'|] eqn:Hq; [|done].
  intros [= ->] [= ->]. destruct Hcase as [->|(n & r & ->)].
  - by apply (as_built_line_monotone past_the_end layers m p q).
  - intros _. pose proof (as_built_one_radius _ _ _ _ _ Hm) as H0.
    apply find_elem_of in Hp. apply (proj1 (Forall_forall _ _) H0) in Hp.
    simpl in Hp. lia.
Qed.

(** C7 at [dimension = 1], [layers = [3, 0]], [p = (3)], [q = (0)], when 0
    is read past the end: payloads 0 and 1. *)
Lemma C7_witness :
  let m := (as_built.hypersphere (fun _ _ => 0%Z) 1 [3; 0]%Z).2 in
  valid_layers [3; 0]%Z
  /\ get_payload [3%Z] m = Done 0 /\ get_payload [0%Z] m = Done 1
  /\ (norm2 [0] <= norm2 [3])%Z
  /\ 0 <= 1.
Proof.
  split; [apply valid_layers_3_0|]. split; [reflexivity|]. split; [reflexivity|].
  split; [by vm_compute|].
  apply (C7_layer_monotone_on_a_line (fun _ _ => 0%Z) 1 [3; 0]%Z
           (as_built.hypersphere (fun _ _ => 0%Z) 1 [3; 0]%Z).2 [3%Z] [0%Z] 0 1);
    [apply valid_layers_3_0 | by left | reflexivity | reflexivity | reflexivity
    | by vm_compute].
Defined.

(** C7, as stated, fails from dimension 2 on.  Whatever single value [g]
    the reads past the end of [layers] yield, a valid list breaks it: if
    [g <= 1], [layers = [4, 3, 2]] in dimension 3 gives [(3,1,1)] payload 1
    and the nearer [(2,2,1)] payload 0; if [1 <= g], [layers = [2, 0]] in
    dimension 2 gives [(1,1)] payload 1 and the nearer [(1,0)] payload 0. *)
Lemma C7_counterexample :
  (valid_layers [4; 3; 2]%Z /\ valid_layers [2; 0]%Z)
  /\ (norm2 [2; 2; 1] <= norm2 [3; 1; 1])%Z
  /\ (norm2 [1; 0] <= norm2 [1; 1])%Z
  /\ forall g : Z,
       ((g <= 1)%Z ->
        let m := (as_built.hypersphere (fun _ _ => g) 3 [4; 3; 2]%Z).2 in
        (as_built.hypersphere (fun _ _ => g) 3 [4; 3; 2]%Z).1 = Done tt
        /\ get_payload [3; 1; 1]%Z m = Done 1
        /\ get_payload [2; 2; 1]%Z m = Done 0)
       /\ ((1 <= g)%Z ->
           let m := (as_built.hypersphere (fun _ _ => g) 2 [2; 0]%Z).2 in
           (as_built.hypersphere (fun _ _ => g) 2 [2; 0]%Z).1 = Done tt
           /\ get_payload [1; 1]%Z m = Done 1
           /\ get_payload [1; 0]%Z m = Done 0).
Proof.
  assert (Hvalid : forall layers : list Z,
    layers <> [] -> bool_decide (Forall (fun r => (0 <= r)%Z) layers) = true ->
    (forall i x y, layers !! i = Some x -> layers !! (S i) = Some y -> (y <= x)%Z) ->
    valid_layers layers).
  { intros layers ? ?%bool_decide_eq_true ?. by split_and!. }
  split; [split; apply Hvalid; try done|].
  - intros [|[|[|i]]] x y; simpl; intros; simplify_eq; lia.
  - intros [|[|i]] x y; simpl; intros; simplify_eq; lia.
  - split; [by vm_compute|]. split; [by vm_compute|]. intros g. split; intros Hg.
    + destruct g as [|p|p].
      * by vm_compute.
      * assert (p = 1%positive) as -> by lia. by vm_compute.
      * by vm_compute.
    + destruct g as [|[p|p|]|p]; try lia; by vm_compute.
Qed.

(** C8, as the code has it.  Construction with [dimension = 0] or with an
    empty list of layers fails on an assertion and stores nothing; no other
    input fails an assertion, and in particular the order of the layers is
    never examined: [dimension = 1] with [layers = [1, 3]], which is not
    non-increasing, constructs [{-1: 0, 1: 0}]. *)
Theorem C8_assertions :
  (forall layers,
     hypersphere 0 layers = (Fault (assertion_failed "0 < dimension"), []))
  /\ (forall dimension,
        hypersphere (S dimension) []
        = (Fault (assertion_failed "0 < layers.size()"), []))
  /\ (forall dimension r layers expr,
        (hypersphere (S dimension) (r :: layers)).1 <> Fault (assertion_failed expr))
  /\ ~ non_increasing [1; 3]%Z
  /\ hypersphere 1 [1; 3]%Z = (Done tt, [([(-1)%Z], 0); ([1%Z], 0)]).
Proof.
  split_and!.
  - apply hypersphere_dimension_0.
  - intros dimension. apply hypersphere_no_layers. lia.
  - intros dimension r layers expr Hf.
    pose proof (hypersphere_outcome (S dimension) (r :: layers)) as H.
    rewrite Hf in H. destruct H as (i & n & ?); [lia|done|done].
  - intros H. specialize (H 0 1%Z 3%Z eq_refl eq_refl). lia.
  - reflexivity.
Qed.

(** C8, as stated, fails: a list of layers that is not non-increasing is
    not refused. *)
Lemma C8_counterexample :
  ~ non_increasing [1; 3]%Z
  /\ (hypersphere 1 [1; 3]%Z).1 = Done tt.
Proof.
  split; [|reflexivity].
  intros H. specialize (H 0 1%Z 3%Z eq_refl eq_refl). lia.
Qed.

(** C9.  On a store whose points all have [dimension] coordinates, each
    diagonal pass and each axial pass succeeds and merges into the store the
    images (swapped, respectively negated copies) of the points of the
    snapshot taken when the pass begins: a point absent at the start is
    present afterwards exactly when its own image was present at the start,
    with that payload, and points present at the start keep their payload.
    [symmetry] is the sequence of these passes, each one reading the state
    its predecessor left. *)
Theorem C9_passes_read_the_snapshot dimension (this : store_t) :
  points_of_dimension dimension this ->
  (forall d, d < dimension ->
     diagonal dimension d this = (Done tt, diagonal_pass dimension this d)
     /\ axial d this = (Done tt, axial_pass this d)
     /\ (forall q, get q (diagonal_pass dimension this d)
           = match get q this with
             | Some v => Some v
             | None => get (swap_coords d ((d + 1) mod dimension) q) this
             end)
     /\ (forall q, get q (axial_pass this d)
           = match get q this with
             | Some v => Some v
             | None => get (negate_coord d q) this
             end))
  /\ symmetry dimension this
     = (Done tt,
        fold_left axial_pass (seq 0 dimension)
          (fold_left (diagonal_pass dimension) (seq 0 dimension) this)).
Proof.
  intros Hlen. split; [|by apply symmetry_passes].
  intros d Hd. split_and!.
  - by apply diagonal_merge.
  - apply axial_merge. intros p v Hp. rewrite (Hlen _ _ Hp). done.
  - intros q. unfold get, diagonal_pass. rewrite find_merge.
    destruct (find q this) eqn:E; [done|]. by apply find_diagonal_images.
  - intros q. unfold get, axial_pass. rewrite find_merge.
    destruct (find q this) eqn:E; [done|]. by apply find_axial_images.
Qed.

(** C9 on the store [{(1,2): 0}] in dimension 2. *)
Lemma C9_witness :
  points_of_dimension 2 [([1; 2]%Z, 0)]
  /\ diagonal 2 0 [([1; 2]%Z, 0)] = (Done tt, [([1; 2]%Z, 0); ([2; 1]%Z, 0)])
  /\ size (symmetry 2 [([1; 2]%Z, 0)]).2 = 8.
Proof.
  assert (Hlen : points_of_dimension 2 [([1; 2]%Z, 0)]).
  { intros p v Hp. apply list_elem_of_singleton in Hp. by injection Hp as -> ->. }
  destruct (C9_passes_read_the_snapshot 2 [([1; 2]%Z, 0)] Hlen) as [Hpass Hsym].
  split_and!; [done | |].
  - destruct (Hpass 0) as [-> _]; [lia|]. reflexivity.
  - rewrite Hsym. reflexivity.
Defined.

(** C10.  For every dimension >= 1 and every valid list of layers, the
    construction terminates and succeeds, whatever is read past the end of
    [layers]: no loop of [octant] or [symmetry] exceeds its bound (the
    recursion decreases the remaining axes, the slicing loop decreases
    [radii[0] - d_diff]), and no other access leaves its vector.  Where the
    run is stopped at the read past the end of [layers], it has not exceeded
    a bound either. *)
Theorem C10_terminates (past_the_end : list Z -> point_t -> Z)
    (dimension : nat) (layers : list Z) :
  0 < dimension -> valid_layers layers ->
  (exists m, as_built.hypersphere past_the_end dimension layers = (Done tt, m))
  /\ (hypersphere dimension layers).1 <> Diverged.
Proof.
  intros Hdim (Hne & _). split.
  - destruct (as_built_completes past_the_end dimension layers Hdim Hne) as (m & Hm & _).
    by exists m.
  - pose proof (hypersphere_outcome dimension layers Hdim Hne) as H.
    by destruct (hypersphere dimension layers).1.
Qed.

(** C10 at [dimension = 1], [layers = [3, 0]], when 0 is read past the end. *)
Lemma C10_witness :
  0 < 1 /\ valid_layers [3; 0]%Z
  /\ (exists m, as_built.hypersphere (fun _ _ => 0%Z) 1 [3; 0]%Z = (Done tt, m))
  /\ (hypersphere 1 [3; 0]%Z).1 <> Diverged.
Proof.
  split; [lia|]. split; [apply valid_layers_3_0|].
  apply (C10_terminates (fun _ _ => 0%Z) 1 [3; 0]%Z); [lia | apply valid_layers_3_0].
Defined.

(** * More of the code *)

(** ** More on the pattern store *)
Section store_more.
Context {Payload_t : Type}.
Implicit Types (m : set_t Payload_t) (p q : point_t) (v w : Payload_t).

Lemma point_compare_Lt_ne p q : point_compare p q = Lt -> p <> q.
Proof. intros H ->. by rewrite point_compare_refl in H. Qed.

Lemma ordered_find_tail q w m : ordered ((q, w) :: m) -> find q m = None.
Proof.
  intros Hord. apply find_None. intros v Hin.
  by apply (point_compare_Lt_ne q q (ordered_above q w m q v Hord Hin)).
Qed.

(** Ordered containers with the same lookups are the same container. *)
Lemma ordered_ext m1 m2 :
  ordered m1 -> ordered m2 -> (forall p, find p m1 = find p m2) -> m1 = m2.
Proof.
  revert m2. induction m1 as [|[q1 w1] m1 IH]; intros [|[q2 w2] m2] H1 H2 Hfind.
  - done.
  - specialize (Hfind q2). rewrite find_cons, decide_True in Hfind by done. done.
  - specialize (Hfind q1). rewrite find_cons, decide_True in Hfind by done. done.
  - assert (Hq : q1 = q2).
    { destruct (decide (q1 = q2)) as [|Hne]; [done|exfalso].
      pose proof (Hfind q1) as Ha. pose proof (Hfind q2) as Hb.
      rewrite !find_cons in Ha, Hb.
      rewrite decide_True in Ha by done. rewrite (decide_False (P := q1 = q2)) in Ha by done.
      rewrite (decide_False (P := q2 = q1)) in Hb by done. rewrite decide_True in Hb by done.
      symmetry in Ha. apply find_elem_of in Ha, Hb.
      pose proof (ordered_above _ _ _ _ _ H2 Ha) as Hlt1.
      pose proof (ordered_above _ _ _ _ _ H1 Hb) as Hlt2.
      by apply (point_compare_Lt_ne q1 q1 (point_compare_trans q1 q2 q1 Hlt2 Hlt1)). }
    subst q2. pose proof (Hfind q1) as Hw. rewrite !find_cons, !decide_True in Hw by done.
    injection Hw as ->. f_equal. apply IH; [by apply ordered_tail in H1|by apply ordered_tail in H2|].
    intros p. destruct (decide (p = q1)) as [->|Hne].
    + by rewrite (ordered_find_tail _ _ _ H1), (ordered_find_tail _ _ _ H2).
    + specialize (Hfind p). by rewrite !find_cons, !decide_False in Hfind by done.
Qed.

Lemma set_commute p v q w m :
  ordered m -> p <> q -> set p v (set q w m) = set q w (set p v m).
Proof.
  intros Hord Hne. apply ordered_ext; [by do 2 apply ordered_set..|].
  intros r. rewrite !find_set. repeat case_decide; simplify_eq; done.
Qed.

Lemma size_set p v m :
  size (set p v m) = if contains p m then size m else S (size m).
Proof.
  unfold contains, get. destruct (find p m) eqn:E.
  - by rewrite (set_present p v _ m E).
  - by apply size_set_absent.
Qed.

End store_more.

(** ** The construction only adds points *)
Lemma octant_keeps depth centre layers d q v this :
  find q this = Some v -> find q (octant depth centre layers d this).2 = Some v.
Proof.
  intros Hq.
  apply (octant_invariant (fun s => find q s = Some v) (fun _ => True)); [|done|done|done].
  intros point layer s _ Hs. rewrite find_set. destruct (decide (q = point)) as [->|]; [|done].
  by rewrite Hs.
Qed.

Lemma symmetry_keeps dimension q v this :
  find q this = Some v -> find q (symmetry dimension this).2 = Some v.
Proof.
  intros Hq.
  apply (symmetry_bounded (fun s => find q s = Some v)); [|done].
  intros point layer s Hs. rewrite find_set. destruct (decide (q = point)) as [->|]; [|done].
  by rewrite Hs.
Qed.

(** ** Every outcome of the constructor *)
Lemma hypersphere_points_of_dimension dimension layers :
  points_of_dimension dimension (hypersphere dimension layers).2.
Proof.
  unfold hypersphere, construct. destruct dimension as [|n].
  { cbn. by intros p v ?%elem_of_nil. }
  cbn [Nat.ltb Nat.leb assert]. unfold bind at 1, ret.
  pose proof (octant_points_of_dimension (S n) layers) as Hdim.
  unfold bind.
  destruct (octant (S n) (replicate (S n) 0%Z) layers 0 []) as [[[]|f|] this];
    cbn [fst snd] in *; try done.
  by destruct (symmetry_passes (S n) this Hdim) as [-> ?].
Qed.

(** ** Payloads are indices of [layers] *)
Section payloads.
Context (N : nat).
Local Abbreviation I := (payloads_below N).
Local Abbreviation E := anything.

Lemma payloads_below_set point layer this :
  layer < N -> I this -> I (set point layer this).
Proof.
  intros Hl HI q v Hq. apply elem_of_set in Hq as [[= -> ->]|Hq]; [done|].
  by apply (HI q v).
Qed.

Lemma line_below bound layers d point radius layer :
  layer < length layers -> length layers <= N ->
  triple I (line bound layers d point radius layer)
    (fun pl => pl.2 < length layers) E.
Proof.
  intros Hl HN. revert point radius layer Hl. induction bound as [|bound IH];
    intros point radius layer Hl; simpl.
  all: eapply triple_bind; [by apply triple_at|]; intros inn _.
  all: destruct (inn <? radius)%Z; [|by apply triple_ret].
  { by apply triple_diverge. }
  eapply triple_bind.
  { apply triple_set_point. intros this. apply payloads_below_set. lia. }
  intros _ _.
  eapply triple_bind; [by apply triple_at|]. intros x _.
  eapply triple_bind; [by apply triple_put|]. intros point' _.
  eapply triple_bind.
  { eapply triple_weaken; [by apply (advance_within I)|done|done]. }
  intros layer' Hl'. by apply IH.
Qed.

Lemma octant_1D_below centre layers d :
  length layers <= N ->
  triple I (octant_1D centre layers d) (fun _ => True) E.
Proof.
  intros HN. unfold octant_1D.
  eapply triple_bind; [by apply triple_at|]. intros radius Hr.
  apply lookup_lt_Some in Hr.
  eapply triple_bind; [by apply triple_at|]. intros x _.
  eapply triple_bind; [by apply triple_put|]. intros point _.
  eapply triple_bind; [by apply line_below|]. intros [point' layer] Hl. simpl in Hl.
  apply triple_set_point. intros this. apply payloads_below_set.
  destruct (layer =? 0); lia.
Qed.

Lemma shrink_length bound d_diff i radii criteria :
  triple I (shrink bound d_diff i radii criteria)
    (fun rc => length rc.1 <= length radii) E.
Proof.
  revert i radii criteria. induction bound as [|bound IH];
    intros i radii criteria; simpl;
    destruct (i <? length radii); try (by apply triple_ret).
  { by apply triple_diverge. }
  eapply triple_bind; [by apply triple_at|]. intros r_i _.
  destruct (r_i - d_diff <=? 0)%Z.
  - eapply triple_bind with (Q := fun ri => length ri.1 = length radii).
    + destruct (0 <? i); [|by apply triple_ret].
      eapply triple_bind; [by apply triple_at|]. intros r_prev _.
      destruct (r_i + 1 <=? r_prev)%Z; [|by apply triple_ret].
      eapply triple_bind with (Q := fun radii' => length radii' = length radii).
      * destruct (r_i - d_diff =? 0)%Z; [by apply triple_ret|].
        eapply triple_post; [by apply triple_put|].
        intros radii' [-> _]. by rewrite length_insert.
      * intros radii' Hr. by apply triple_ret.
    + intros [radii' i'] Hr. simpl in *. apply triple_ret. simpl.
      rewrite pop_down_to_take, length_take. lia.
  - eapply triple_bind; [by apply triple_at|]. intros c_i _.
    eapply triple_bind with (Q := fun rc => length rc.1 = length radii).
    + destruct (0 <? c_i)%Z; [|by apply triple_ret].
      eapply triple_bind; [by apply triple_put|]. intros radii' [-> _].
      apply triple_ret. simpl. by rewrite length_insert.
    + intros [radii' chi] Hr. simpl in *.
      eapply triple_bind; [by apply triple_put|]. intros criteria' _.
      eapply triple_post; [apply IH|]. simpl. intros rc Hrc. lia.
Qed.

Lemma slices_below bound octant_next centre d slice_centre d_diff radii criteria :
  (forall sc ra, length ra <= N -> triple I (octant_next sc ra) (fun _ => True) E) ->
  length radii <= N ->
  triple I (slices bound octant_next centre d slice_centre d_diff radii criteria)
    (fun _ => True) E.
Proof.
  intros Hnext. revert slice_centre d_diff radii criteria.
  induction bound as [|bound IH]; intros slice_centre d_diff radii criteria Hlen;
    destruct radii as [|r0 rest] eqn:Hradii; cbn [slices]; try (by apply triple_ret).
  { by apply triple_diverge. }
  rewrite <- Hradii in *.
  eapply triple_bind; [by apply triple_at|]. intros c_d _.
  eapply triple_bind; [by apply triple_put|]. intros sc _.
  eapply triple_bind; [by apply Hnext|]. intros _ _.
  eapply triple_bind; [apply shrink_length|].
  intros [radii' criteria'] Hrc. simpl in Hrc. apply IH. lia.
Qed.

Lemma octant_below depth centre layers d :
  length layers <= N ->
  triple I (octant depth centre layers d) (fun _ => True) E.
Proof.
  revert centre layers d. induction depth as [|depth IH];
    intros centre layers d HN; simpl.
  all: eapply triple_bind; [by apply triple_assert|]; intros _ _.
  all: eapply triple_bind; [by apply triple_assert|]; intros _ _.
  all: destruct (length centre - 1 =? d); [by apply octant_1D_below|].
  { by apply triple_diverge. }
  rewrite fill_eq. apply slices_below; [|done].
  intros sc ra Hra. by apply IH.
Qed.

Lemma symmetry_below dimension :
  triple I (symmetry dimension) (fun _ => True) E.
Proof.
  unfold symmetry. eapply triple_bind.
  - apply triple_for_each. intros d _. unfold diagonal.
    eapply triple_bind; [by apply triple_snapshot with (P := payloads_below N)|].
    intros points Hpoints. apply triple_for_each. intros [x layer] Hx.
    pose proof (Hpoints _ _ Hx) as Hlayer. simpl.
    eapply triple_bind; [by apply triple_at|]. intros x_d _.
    eapply triple_bind; [by apply triple_at|]. intros x_b _.
    destruct (decide (x_d <> x_b)); [|by apply triple_ret].
    eapply triple_bind; [by apply triple_at|]. intros tmp _.
    eapply triple_bind; [by apply triple_at|]. intros y_b _.
    eapply triple_bind; [by apply triple_put|]. intros y _.
    eapply triple_bind; [by apply triple_put|]. intros y' _.
    apply triple_set_point. intros this. by apply payloads_below_set.
  - intros _ _. apply triple_for_each. intros d _. unfold axial.
    eapply triple_bind; [by apply triple_snapshot with (P := payloads_below N)|].
    intros points Hpoints. apply triple_for_each. intros [x layer] Hx.
    pose proof (Hpoints _ _ Hx) as Hlayer. simpl.
    eapply triple_bind; [by apply triple_at|]. intros x_d _.
    destruct (decide (0%Z <> x_d)); [|by apply triple_ret].
    eapply triple_bind; [by apply triple_at|]. intros y_d _.
    eapply triple_bind; [by apply triple_put|]. intros y _.
    apply triple_set_point. intros this. by apply payloads_below_set.
Qed.

End payloads.

Lemma hypersphere_payloads_below dimension layers :
  payloads_below (length layers) (hypersphere dimension layers).2.
Proof.
  unfold hypersphere, construct.
  assert (H : triple (payloads_below (length layers))
                (assert (0 <? dimension) "0 < dimension" ;;
                 octant dimension (replicate dimension 0%Z) layers 0 ;;
                 symmetry dimension) (fun _ => True) anything).
  { eapply triple_bind; [by apply triple_assert|]. intros _ _.
    eapply triple_bind; [by apply octant_below|]. intros _ _.
    apply symmetry_below. }
  apply H. by intros p v ?%elem_of_nil.
Qed.

(** ** A completed construction *)

(** A construction that completes is the symmetry passes over the first
    hyperoctant. *)
Lemma hypersphere_Done dimension layers m :
  hypersphere dimension layers = (Done tt, m) ->
  exists this,
    points_of_dimension dimension this /\
    m = fold_left axial_pass (seq 0 dimension)
          (fold_left (diagonal_pass dimension) (seq 0 dimension) this).
Proof.
  unfold hypersphere, construct. destruct dimension as [|n]; [done|].
  cbn [Nat.ltb Nat.leb assert]. unfold bind at 1, ret.
  pose proof (octant_points_of_dimension (S n) layers) as Hdim.
  unfold bind.
  destruct (octant (S n) (replicate (S n) 0%Z) layers 0 []) as [[[]|f|] this];
    cbn [fst snd] in *; try done.
  destruct (symmetry_passes (S n) this Hdim) as [-> _].
  intros [= <-]. by exists this.
Qed.

Section closure.
Implicit Types (s : store_t) (q : list Z).

Lemma axial_pass_stored s d q :
  is_Some (find q (axial_pass s d))
  <-> is_Some (find q s) \/ is_Some (find (negate_coord d q) s).
Proof.
  unfold axial_pass. rewrite find_merge.
  destruct (find q s) as [v|] eqn:Hq.
  - split; [by left|by eexists].
  - rewrite find_axial_images by done. split; [by right|].
    by intros [[? [=]]|?].
Qed.

Lemma diagonal_pass_stored dimension s d q :
  is_Some (find q (diagonal_pass dimension s d))
  <-> is_Some (find q s)
      \/ is_Some (find (swap_coords d ((d + 1) mod dimension) q) s).
Proof.
  unfold diagonal_pass. rewrite find_merge.
  destruct (find q s) as [v|] eqn:Hq.
  - split; [by left|by eexists].
  - rewrite find_diagonal_images by done. split; [by right|].
    by intros [[? [=]]|?].
Qed.

Lemma negate_coord_commute d e q :
  negate_coord d (negate_coord e q) = negate_coord e (negate_coord d q).
Proof.
  destruct (decide (d = e)) as [->|Hne]; [done|].
  unfold negate_coord.
  destruct (q !! e) as [q_e|] eqn:He; destruct (q !! d) as [q_d|] eqn:Hd;
    rewrite ?list_lookup_insert_ne by done; rewrite ?He, ?Hd; try done.
  by apply list_insert_insert_ne.
Qed.

(** After the passes of the axes below [k], the store is closed under the
    sign change of each of them. *)
Lemma axial_passes_closed k s d q :
  d < k ->
  is_Some (find q (fold_left axial_pass (seq 0 k) s)) ->
  is_Some (find (negate_coord d q) (fold_left axial_pass (seq 0 k) s)).
Proof.
  revert d q. induction k as [|k IH]; intros d q Hd; [lia|].
  rewrite seq_S, fold_left_app. cbn [fold_left Nat.add].
  set (t := fold_left axial_pass (seq 0 k) s) in *.
  rewrite !axial_pass_stored. destruct (decide (d = k)) as [->|Hne].
  - rewrite negate_coord_involutive. tauto.
  - assert (Hdk : d < k) by lia. intros [H|H].
    + left. by apply IH.
    + right. rewrite negate_coord_commute. by apply IH.
Qed.

(** In the plane, both diagonal passes together close the store under the
    swap of the two coordinates. *)
Lemma swap_coords_sym d b q : swap_coords d b q = swap_coords b d q.
Proof.
  destruct (decide (d = b)) as [->|Hne]; [done|].
  unfold swap_coords.
  destruct (q !! d) as [q_d|] eqn:Hd; destruct (q !! b) as [q_b|] eqn:Hb; try done.
  by apply list_insert_insert_ne.
Qed.

Lemma diagonal_passes_closed_2 s q :
  is_Some (find q (fold_left (diagonal_pass 2) (seq 0 2) s)) ->
  is_Some (find (swap_coords 0 1 q) (fold_left (diagonal_pass 2) (seq 0 2) s)).
Proof.
  cbn [seq fold_left]. rewrite !diagonal_pass_stored.
  change ((1 + 1) mod 2) with 0. change ((0 + 1) mod 2) with 1.
  rewrite (swap_coords_sym 1 0), !swap_coords_involutive. tauto.
Qed.

Lemma axial_passes_swap_2 s :
  points_of_dimension 2 s ->
  (forall q, is_Some (find q s) -> is_Some (find (swap_coords 0 1 q) s)) ->
  forall q, is_Some (find q (fold_left axial_pass (seq 0 2) s)) ->
    is_Some (find (swap_coords 0 1 q) (fold_left axial_pass (seq 0 2) s)).
Proof.
  intros Hdim Hs q. cbn [seq fold_left]. rewrite !axial_pass_stored.
  assert (Hlen : forall p, is_Some (find p s) -> exists x y, p = [x; y]).
  { intros p [v Hp%find_elem_of]. apply Hdim in Hp.
    destruct p as [|x [|y [|]]]; try done. by exists x, y. }
  intros [[H|H]|[H|H]]; pose proof (Hs _ H) as H'; apply Hlen in H as (x & y & Hxy).
  - subst q. by left; left.
  - destruct q as [|a [|b [|]]]; try done. cbn in Hxy. simplify_eq.
    cbn in *. by right; left.
  - destruct q as [|a [|b [|]]]; try done. cbn in Hxy. simplify_eq.
    cbn in *. by left; right.
  - destruct q as [|a [|b [|]]]; try done. cbn in Hxy. simplify_eq.
    cbn in *. by right; right.
Qed.

End closure.

Lemma hypersphere_sign_closed dimension layers m d q :
  hypersphere dimension layers = (Done tt, m) ->
  d < dimension ->
  contains q m = true -> contains (negate_coord d q) m = true.
Proof.
  intros (this & _ & ->)%hypersphere_Done Hd. unfold contains, get.
  pose proof (axial_passes_closed dimension
    (fold_left (diagonal_pass dimension) (seq 0 dimension) this) d q Hd) as H.
  destruct (find q _) as [v|]; [|done]. intros _.
  destruct H as [w ->]; [by eexists|done].
Qed.

Lemma hypersphere_swap_closed_2 layers m q :
  hypersphere 2 layers = (Done tt, m) ->
  contains q m = true -> contains (swap_coords 0 1 q) m = true.
Proof.
  intros (this & Hdim & ->)%hypersphere_Done. unfold contains, get.
  pose proof (axial_passes_swap_2 (fold_left (diagonal_pass 2) (seq 0 2) this)) as H.
  intros Hq. destruct H with (q := q) as [w ->]; try done.
  - cbn [seq fold_left]. by do 2 apply points_of_dimension_diagonal_pass.
  - apply diagonal_passes_closed_2.
  - destruct (find q _); [by eexists|done].
Qed.

Lemma octant_1D_exit (centre : list Z) layers d x r this :
  centre !! d = Some x ->
  layers !! 0 = Some r -> layers !! (length layers - 1) = Some r ->
  octant_1D centre layers d this = (Done tt, set (<[d:=(x + r)%Z]> centre) 0 this).
Proof.
  intros Hx H0 Hlast. unfold octant_1D.
  rewrite (bind_Done _ _ r this this) by (unfold at_; by rewrite H0).
  rewrite (bind_Done _ _ x this this) by (unfold at_; by rewrite Hx).
  rewrite (bind_Done _ _ (<[d:=(x + r)%Z]> centre) this this).
  2:{ unfold put. apply lookup_lt_Some in Hx.
      by destruct (Nat.ltb_spec d (length centre)); [|lia]. }
  rewrite (bind_Done _ _ (<[d:=(x + r)%Z]> centre, 0) this this); [done|].
  by apply line_exit with (inn := r).
Qed.

Lemma hypersphere_1D layers r :
  layers !! 0 = Some r -> layers !! (length layers - 1) = Some r -> (0 <= r)%Z ->
  hypersphere 1 layers
  = (Done tt, if decide (r = 0%Z) then [([0%Z], 0)] else [([(- r)%Z], 0); ([r], 0)]).
Proof.
  intros H0 Hlast Hr. pose proof (lookup_lt_Some _ _ _ H0) as Hlen.
  unfold hypersphere, construct.
  rewrite (bind_Done _ _ tt [] []) by done.
  rewrite (bind_Done _ _ tt [] [([r], 0)]).
  2:{ cbn [octant replicate length].
      rewrite (bind_Done _ _ tt [] []) by done.
      rewrite (bind_Done _ _ tt [] []).
      2:{ by destruct (Nat.ltb_spec 0 (length layers)); [|lia]. }
      cbn [Nat.sub Nat.eqb].
      rewrite (octant_1D_exit _ _ _ 0%Z r) by done. by rewrite Z.add_0_l. }
  destruct (symmetry_passes 1 [([r], 0)]) as [-> _].
  { by intros p v [= -> ->]%list_elem_of_singleton. }
  f_equal. cbn [seq fold_left]. unfold diagonal_pass, diagonal_images.
  cbn [omap list_omap fst snd]. rewrite decide_True by done. cbn [merge fold_left].
  unfold axial_pass, axial_images. cbn [omap list_omap fst snd].
  destruct (decide (r = 0%Z)) as [->|Hne].
  - by rewrite decide_True by done.
  - rewrite decide_False by (intros [= ?]; done).
    cbn [merge fold_left fst snd]. unfold set, emplace.
    change (negate_coord 0 [r]) with [(- r)%Z].
    cbn [find insert_ordered point_compare].
    by destruct (Z.compare_spec (- r) r); try lia.
Qed.

(** ** In dimension 3 the diagonal passes reach every permutation *)
Section closure_3.
Implicit Types (s : store_t) (x y z : Z).

Lemma diagonal_passes_3 s x y z :
  is_Some (find [x; y; z] (fold_left (diagonal_pass 3) (seq 0 3) s))
  <-> is_Some (find [x; y; z] s) \/ is_Some (find [y; x; z] s)
      \/ is_Some (find [x; z; y] s) \/ is_Some (find [z; x; y] s)
      \/ is_Some (find [z; y; x] s) \/ is_Some (find [y; z; x] s).
Proof.
  cbn [seq fold_left].
  rewrite (diagonal_pass_stored 3 _ 2).
  change ((2 + 1) mod 3) with 0. change (swap_coords 2 0 [x; y; z]) with [z; y; x].
  rewrite !(diagonal_pass_stored 3 _ 1).
  change ((1 + 1) mod 3) with 2.
  change (swap_coords 1 2 [x; y; z]) with [x; z; y].
  change (swap_coords 1 2 [z; y; x]) with [z; x; y].
  rewrite !(diagonal_pass_stored 3 _ 0).
  change ((0 + 1) mod 3) with 1.
  change (swap_coords 0 1 [x; y; z]) with [y; x; z].
  change (swap_coords 0 1 [x; z; y]) with [z; x; y].
  change (swap_coords 0 1 [z; y; x]) with [y; z; x].
  change (swap_coords 0 1 [z; x; y]) with [x; z; y].
  tauto.
Qed.

Lemma diagonal_passes_closed_3 s a b x y z :
  a < 3 -> b < 3 ->
  is_Some (find [x; y; z] (fold_left (diagonal_pass 3) (seq 0 3) s)) ->
  is_Some (find (swap_coords a b [x; y; z]) (fold_left (diagonal_pass 3) (seq 0 3) s)).
Proof.
  intros Ha Hb.
  destruct a as [|[|[|a]]]; [| | |lia]; destruct b as [|[|[|b]]]; try lia;
    cbn [swap_coords lookup list_lookup insert list_insert];
    rewrite !diagonal_passes_3; tauto.
Qed.

Lemma axial_passes_3 s x y z :
  is_Some (find [x; y; z] (fold_left axial_pass (seq 0 3) s))
  <-> is_Some (find [x; y; z] s) \/ is_Some (find [(- x)%Z; y; z] s)
      \/ is_Some (find [x; (- y)%Z; z] s) \/ is_Some (find [(- x)%Z; (- y)%Z; z] s)
      \/ is_Some (find [x; y; (- z)%Z] s) \/ is_Some (find [(- x)%Z; y; (- z)%Z] s)
      \/ is_Some (find [x; (- y)%Z; (- z)%Z] s)
      \/ is_Some (find [(- x)%Z; (- y)%Z; (- z)%Z] s).
Proof.
  cbn [seq fold_left].
  rewrite (axial_pass_stored _ 2).
  change (negate_coord 2 [x; y; z]) with [x; y; (- z)%Z].
  rewrite !(axial_pass_stored _ 1).
  change (negate_coord 1 [x; y; z]) with [x; (- y)%Z; z].
  change (negate_coord 1 [x; y; (- z)%Z]) with [x; (- y)%Z; (- z)%Z].
  rewrite !(axial_pass_stored _ 0).
  change (negate_coord 0 [x; y; z]) with [(- x)%Z; y; z].
  change (negate_coord 0 [x; (- y)%Z; z]) with [(- x)%Z; (- y)%Z; z].
  change (negate_coord 0 [x; y; (- z)%Z]) with [(- x)%Z; y; (- z)%Z].
  change (negate_coord 0 [x; (- y)%Z; (- z)%Z]) with [(- x)%Z; (- y)%Z; (- z)%Z].
  tauto.
Qed.

Lemma symmetry_closed_3 s a b q :
  a < 3 -> b < 3 ->
  let m := fold_left axial_pass (seq 0 3) (fold_left (diagonal_pass 3) (seq 0 3) s) in
  length q = 3 ->
  is_Some (find q m) -> is_Some (find (swap_coords a b q) m).
Proof.
  intros Ha Hb m Hq. destruct q as [|x [|y [|z [|]]]]; try done. subst m.
  set (D := fold_left (diagonal_pass 3) (seq 0 3) s).
  assert (Hc : forall a b x y z, a < 3 -> b < 3 ->
            is_Some (find [x; y; z] D) -> is_Some (find (swap_coords a b [x; y; z]) D)).
  { intros. by apply diagonal_passes_closed_3. }
  pose proof (fun x y z => Hc 0 1 x y z ltac:(lia) ltac:(lia)) as H01.
  pose proof (fun x y z => Hc 1 2 x y z ltac:(lia) ltac:(lia)) as H12.
  pose proof (fun x y z => Hc 0 2 x y z ltac:(lia) ltac:(lia)) as H02.
  cbn [swap_coords lookup list_lookup insert list_insert] in H01, H12, H02.
  clear Hc.
  destruct a as [|[|[|a]]]; [| | |lia]; destruct b as [|[|[|b]]]; try lia;
    cbn [swap_coords lookup list_lookup insert list_insert];
    rewrite !axial_passes_3; try tauto;
    intros H; repeat destruct H as [H|H]; eauto 10.
Qed.

End closure_3.

(** In dimension 1 to 3, a completed construction is closed under the
    exchange of any two coordinates. *)
Lemma hypersphere_swap_closed dimension layers m a b q :
  hypersphere dimension layers = (Done tt, m) ->
  dimension <= 3 -> a < dimension -> b < dimension ->
  contains q m = true -> contains (swap_coords a b q) m = true.
Proof.
  intros Hm Hdim Ha Hb Hq.
  destruct (decide (a = b)) as [->|Hab].
  { rewrite swap_coords_fixed; done. }
  pose proof (hypersphere_points_of_dimension dimension layers) as Hlen.
  rewrite Hm in Hlen. cbn [snd] in Hlen.
  assert (dimension = 2 \/ dimension = 3) as [->| ->] by lia.
  - assert (Hsw : swap_coords a b q = swap_coords 0 1 q).
    { assert ((a = 0 /\ b = 1) \/ (a = 1 /\ b = 0)) as [[-> ->]|[-> ->]] by lia;
        [done|apply swap_coords_sym]. }
    rewrite Hsw. by apply (hypersphere_swap_closed_2 layers).
  - apply hypersphere_Done in Hm as (this & _ & ->).
    unfold contains, get in *.
    destruct (find q _) as [v|] eqn:Hfind; [|done].
    pose proof (symmetry_closed_3 this a b q Ha Hb) as H. cbn zeta in H.
    destruct H as [w ->]; [|by rewrite Hfind|done].
    apply (Hlen q v). by apply find_elem_of.
Qed.

(** ** The hash table: what [get_index] examines *)
Section linear_facts.
Context {Item_t Key_t : Type} `{EqDecision Key_t}.
Context (m_key_fn : Item_t -> Key_t).
Implicit Types (t : linear.table (Item_t := Item_t) (Key_t := Key_t)).
Implicit Types (key : Key_t) (o : linear.targets).

Local Abbreviation check_index := (linear.check_index m_key_fn).
Local Abbreviation scan := (linear.scan m_key_fn).
Local Abbreviation get_index := (linear.get_index m_key_fn).

Lemma collision_string_unfold t begin_ix index :
  index < length (linear.m_tab t) -> begin_ix < length (linear.m_tab t) ->
  linear.collision_string t begin_ix index
  = index ::
      (let next := if S index <? length (linear.m_tab t) then S index else 0 in
       if begin_ix =? next then [] else linear.collision_string t begin_ix next).
Proof.
  intros Hi Hb. unfold linear.collision_string. cbn zeta.
  destruct (Nat.ltb_spec index begin_ix) as [Hlt|Hge].
  - destruct (Nat.ltb_spec (S index) (length (linear.m_tab t))); [|lia].
    replace (begin_ix - index) with (S (begin_ix - S index)) by lia. cbn [seq]. f_equal.
    destruct (Nat.eqb_spec begin_ix (S index)) as [->|Hne].
    + by rewrite Nat.sub_diag.
    + destruct (Nat.ltb_spec (S index) begin_ix); [done|lia].
  - destruct (Nat.ltb_spec (S index) (length (linear.m_tab t))) as [Hs|Hs].
    + replace (length (linear.m_tab t) - index)
        with (S (length (linear.m_tab t) - S index)) by lia. cbn [seq app]. f_equal.
      destruct (Nat.eqb_spec begin_ix (S index)); [lia|].
      destruct (Nat.ltb_spec (S index) begin_ix); [lia|done].
    + replace (length (linear.m_tab t) - index) with 1 by lia. cbn [seq app]. f_equal.
      destruct (Nat.eqb_spec begin_ix 0) as [->|Hne]; [done|].
      destruct (Nat.ltb_spec 0 begin_ix); [|lia]. by rewrite Nat.sub_0_r.
Qed.

Lemma collision_string_length t begin_ix index :
  index < length (linear.m_tab t) -> begin_ix < length (linear.m_tab t) ->
  length (linear.collision_string t begin_ix index) <= length (linear.m_tab t).
Proof.
  intros Hi Hb. unfold linear.collision_string.
  destruct (Nat.ltb_spec index begin_ix); rewrite ?length_app, !length_seq; lia.
Qed.

(** The collision loop examines the collision string. *)
Lemma collision_scan bound t key begin_ix index o :
  index < length (linear.m_tab t) -> begin_ix < length (linear.m_tab t) ->
  length (linear.collision_string t begin_ix index) <= S bound ->
  linear.collision m_key_fn bound t key begin_ix index o
  = scan t key o (linear.collision_string t begin_ix index).
Proof.
  revert index o. induction bound as [|bound IH]; intros index o Hi Hb Hlen;
    rewrite collision_string_unfold in Hlen |- * by done; cbn zeta in *;
    cbn [linear.collision linear.scan];
    destruct (check_index t key index o) as [[[] o']|f|]; cbn [linear.rbind fst snd]; try done.
  - destruct (begin_ix =? _); [done|]. cbn [length] in Hlen.
    rewrite collision_string_unfold in Hlen; [cbn [length] in Hlen; lia| |done].
    destruct (S index <? _) eqn:E; [by apply Nat.ltb_lt in E | lia].
  - assert (Hnext : (if S index <? length (linear.m_tab t) then S index else 0)
                    < length (linear.m_tab t)).
    { destruct (Nat.ltb_spec (S index) (length (linear.m_tab t))); lia. }
    destruct (begin_ix =? _); [done|]. cbn [length] in Hlen.
    apply IH; [done|done|lia].
Qed.

Lemma last_cons_default (l : list nat) a d : List.last (a :: l) d = List.last l a.
Proof.
  revert a d. induction l as [|b l IH]; intros a d; [done|].
  change (List.last (a :: b :: l) d) with (List.last (b :: l) d).
  rewrite (IH b d). symmetry. apply IH.
Qed.

(** The loop over the hash functions examines one index per function. *)
Lemma hashing_scan t fns key index o :
  linear.rbind (linear.hashing m_key_fn t fns key index o) (fun r =>
    let '(returned, index', o') := r in
    if returned then linear.Ok o'
    else scan t key o' (linear.collision_string t index' index'))
  = scan t key o
      (let hashed := (fun hash_fn : linear.Hash_fn => hash_fn key (length (linear.m_tab t))) <$> fns in
       hashed ++ linear.collision_string t (List.last hashed index) (List.last hashed index)).
Proof.
  revert index o. induction fns as [|hash_fn fns IH]; intros index o; [reflexivity|].
  cbn [linear.hashing fmap list_fmap app linear.scan].
  destruct (check_index t key _ o) as [[[] o']|f|]; cbn [linear.rbind fst snd]; try done.
  rewrite IH. cbn zeta. by rewrite last_cons_default.
Qed.

Lemma hashing_index t fns key index o returned index' o' :
  (forall hash_fn : linear.Hash_fn, hash_fn ∈ fns ->
     hash_fn key (length (linear.m_tab t)) < length (linear.m_tab t)) ->
  index < length (linear.m_tab t) ->
  linear.hashing m_key_fn t fns key index o = linear.Ok (returned, index', o') ->
  index' < length (linear.m_tab t).
Proof.
  revert index o. induction fns as [|hash_fn fns IH]; intros index o Hfns Hi; cbn [linear.hashing].
  - by intros [= _ <- _].
  - destruct (check_index t key _ o) as [[[] o'']|f|]; cbn [linear.rbind fst snd]; try done.
    + intros [= _ <- _]. apply Hfns. left.
    + apply IH; [|apply Hfns; left]. intros h Hh. apply Hfns. by right.
Qed.

Lemma probes_in_range t key i :
  linear.in_range t -> i ∈ linear.probes t key -> i < length (linear.m_tab t).
Proof.
  intros [Hn Hfns]. unfold linear.probes. cbn zeta.
  set (hashed := (fun hash_fn : linear.Hash_fn => hash_fn key (length (linear.m_tab t)))
                   <$> linear.m_hash_fn t).
  assert (Hhashed : forall j, j ∈ hashed -> j < length (linear.m_tab t)).
  { intros j [h [-> Hh]]%list_elem_of_fmap. by apply Hfns. }
  assert (Hlast : List.last hashed 0 < length (linear.m_tab t)).
  { clearbody hashed. induction hashed as [|a l IH] using rev_ind; [done|].
    rewrite last_last. apply Hhashed. apply elem_of_app. right. left. }
  intros [Hi|Hi]%elem_of_app; [by apply Hhashed|].
  unfold linear.collision_string in Hi.
  rewrite Nat.ltb_irrefl in Hi.
  apply elem_of_app in Hi as [Hi|Hi]; apply elem_of_seq in Hi; lia.
Qed.

(** [get_index] examines the probes of the key, after the overfill test. *)
Lemma get_index_scan t key o :
  linear.in_range t ->
  get_index t key o
  = let overfill := negb (linear.m_item_cnt t <? linear.m_capacity t) in
    let o1 := if overfill then linear.assign_insert (-1) o else o in
    if overfill && negb (linear.find_ptr o1) then linear.Ok o1
    else scan t key (if overfill then linear.null_insert o1 else o1) (linear.probes t key).
Proof.
  intros [Hn Hfns]. unfold linear.get_index. cbn zeta.
  destruct (_ && _); [done|].
  set (o2 := if negb _ then linear.null_insert _ else _).
  unfold linear.probes. cbn zeta. rewrite <- hashing_scan.
  destruct (linear.hashing m_key_fn t (linear.m_hash_fn t) key 0 o2)
    as [[[returned index'] o']|f|] eqn:Hh; cbn [linear.rbind]; try done.
  destruct returned; [done|].
  pose proof (hashing_index _ _ _ _ _ _ _ _ (fun h Hh' => Hfns h key Hh') Hn Hh) as Hi.
  apply collision_scan; [done|done|].
  pose proof (collision_string_length t index' index' Hi Hi). lia.
Qed.

(** With [insert] only, the scan yields the free slot. *)
Lemma scan_insert_only t key l ix fx :
  (forall i, i ∈ l -> i < length (linear.m_tab t)) ->
  scan t key {| linear.insert_ptr := true; linear.find_ptr := false;
                linear.insert_ix := ix; linear.find_ix := fx |} l
  = linear.Ok {| linear.insert_ptr := true; linear.find_ptr := false;
                 linear.insert_ix := Some (linear.free_slot m_key_fn t key l);
                 linear.find_ix := fx |}.
Proof.
  induction l as [|i l IH]; intros Hl; [done|].
  cbn [linear.scan linear.free_slot]. unfold linear.check_index.
  destruct (lookup_lt_is_Some_2 (linear.m_tab t) i) as [s ->]; [apply Hl; left|].
  destruct (linear.type s); cbn [linear.rbind fst snd]; try done.
  destruct (decide _); cbn [fst snd]; [done|].
  apply IH. intros j Hj. apply Hl. by right.
Qed.

(** With [find] only, the scan yields the slot in use for the key. *)
Lemma scan_find_only t key l ix fx :
  (forall i, i ∈ l -> i < length (linear.m_tab t)) ->
  scan t key {| linear.insert_ptr := false; linear.find_ptr := true;
                linear.insert_ix := ix; linear.find_ix := fx |} l
  = linear.Ok {| linear.insert_ptr := false; linear.find_ptr := true;
                 linear.insert_ix := ix;
                 linear.find_ix := Some (linear.used_slot m_key_fn t key l) |}.
Proof.
  induction l as [|i l IH]; intros Hl; [done|].
  cbn [linear.scan linear.used_slot]. unfold linear.check_index.
  destruct (lookup_lt_is_Some_2 (linear.m_tab t) i) as [s ->]; [apply Hl; left|].
  destruct (linear.type s); cbn [linear.rbind fst snd]; try done.
  - apply IH. intros j Hj. apply Hl. by right.
  - destruct (decide _); cbn [fst snd]; [done|].
    apply IH. intros j Hj. apply Hl. by right.
Qed.

(** With both, on a table without [AVAIL] slots, it yields both. *)
Lemma scan_both t key l ix fx :
  linear.no_avail t ->
  (forall i, i ∈ l -> i < length (linear.m_tab t)) ->
  scan t key {| linear.insert_ptr := true; linear.find_ptr := true;
                linear.insert_ix := ix; linear.find_ix := fx |} l
  = linear.Ok {| linear.insert_ptr := true; linear.find_ptr := true;
                 linear.insert_ix := Some (linear.free_slot m_key_fn t key l);
                 linear.find_ix := Some (linear.used_slot m_key_fn t key l) |}.
Proof.
  intros Hna. induction l as [|i l IH]; intros Hl; [done|].
  cbn [linear.scan linear.used_slot linear.free_slot]. unfold linear.check_index.
  destruct (lookup_lt_is_Some_2 (linear.m_tab t) i) as [s Hs]; [apply Hl; left|].
  rewrite Hs. pose proof (Hna i s Hs) as Hs'.
  destruct (linear.type s); cbn [linear.rbind fst snd]; try done.
  destruct (decide _); cbn [fst snd]; [done|].
  apply IH. intros j Hj. apply Hl. by right.
Qed.

Lemma insert_index_free_slot t key :
  linear.in_range t ->
  linear.insert_index m_key_fn t key
  = linear.Ok (if linear.m_item_cnt t <? linear.m_capacity t
               then linear.free_slot m_key_fn t key (linear.probes t key)
               else (-1)%Z).
Proof.
  intros Hr. unfold linear.insert_index. rewrite get_index_scan by done. cbn zeta.
  destruct (linear.m_item_cnt t <? linear.m_capacity t); cbn [negb andb]; [|done].
  rewrite scan_insert_only; [done|]. intros i. by apply probes_in_range.
Qed.

Lemma find_index_used_slot t key :
  linear.in_range t ->
  linear.find_index m_key_fn t key
  = linear.Ok (linear.used_slot m_key_fn t key (linear.probes t key)).
Proof.
  intros Hr. unfold linear.find_index. rewrite get_index_scan by done. cbn zeta.
  unfold linear.null_insert, linear.assign_insert.
  destruct (linear.m_item_cnt t <? linear.m_capacity t);
    cbn [negb andb linear.insert_ptr linear.find_ptr linear.insert_ix linear.find_ix];
    (rewrite scan_find_only; [done|]; intros i; by apply probes_in_range).
Qed.

End linear_facts.

Section linear_slots.
Context {Item_t Key_t : Type} `{EqDecision Key_t}.
Context (m_key_fn : Item_t -> Key_t).
Implicit Types (t : linear.table (Item_t := Item_t) (Key_t := Key_t)).
Implicit Types (key : Key_t) (it : Item_t).

Local Abbreviation free_slot := (linear.free_slot m_key_fn).
Local Abbreviation used_slot := (linear.used_slot m_key_fn).

Lemma free_slot_spec t key l :
  (0 <= free_slot t key l)%Z ->
  exists i s, free_slot t key l = Z.of_nat i /\ i ∈ l /\
    linear.m_tab t !! i = Some s /\ linear.type s <> linear.USED.
Proof.
  induction l as [|i l IH]; cbn [linear.free_slot]; [lia|].
  destruct (linear.m_tab t !! i) as [s|] eqn:Hs; [|lia].
  destruct (linear.type s) eqn:Ht.
  - intros _. exists i, s. rewrite Ht. split_and!; [done|left|done|done].
  - intros _. exists i, s. rewrite Ht. split_and!; [done|left|done|done].
  - destruct (decide _); [lia|]. intros (j & s' & ? & ? & ? & ?)%IH.
    exists j, s'. split_and!; [done|by right|done|done].
Qed.

Lemma used_slot_spec t key l :
  (0 <= used_slot t key l)%Z ->
  exists i s, used_slot t key l = Z.of_nat i /\ i ∈ l /\
    linear.m_tab t !! i = Some s /\ linear.type s = linear.USED /\
    m_key_fn (linear.item s) = key.
Proof.
  induction l as [|i l IH]; cbn [linear.used_slot]; [lia|].
  destruct (linear.m_tab t !! i) as [s|] eqn:Hs; [|lia].
  destruct (linear.type s) eqn:Ht; [lia| |].
  - intros (j & s' & ? & ? & ? & ? & ?)%IH.
    exists j, s'. split_and!; [done|by right|done|done|done].
  - destruct (decide _) as [Hk|Hk].
    + intros _. exists i, s. split_and!; [done|left|done|done|done].
    + intros (j & s' & ? & ? & ? & ? & ?)%IH.
      exists j, s'. split_and!; [done|by right|done|done|done].
Qed.

Lemma probes_assigned t index it key :
  linear.probes (assigned t index it) key = linear.probes t key.
Proof.
  unfold linear.probes, linear.collision_string, assigned. cbn.
  by rewrite length_insert.
Qed.

Lemma in_range_assigned t index it :
  linear.in_range t -> linear.in_range (assigned t index it).
Proof. unfold linear.in_range, assigned. cbn. by rewrite length_insert. Qed.

Lemma no_avail_assigned t index it :
  linear.no_avail t -> linear.no_avail (assigned t index it).
Proof.
  intros Hna i s. unfold assigned. cbn. rewrite list_lookup_insert.
  case_decide; [by intros [= <-]|]. apply Hna.
Qed.

(** The item is met where it was put. *)
Lemma used_slot_assigned t it l j :
  free_slot t (m_key_fn it) l = Z.of_nat j ->
  used_slot (assigned t j it) (m_key_fn it) l = Z.of_nat j.
Proof.
  intros Hfree.
  destruct (free_slot_spec t (m_key_fn it) l) as (j' & sj & Hj' & _ & Hsj & Htj); [lia|].
  assert (j' = j) as -> by lia. clear Hj'.
  revert Hfree. induction l as [|i l IH]; cbn [linear.free_slot linear.used_slot]; [lia|].
  unfold assigned at 1. cbn [linear.m_tab]. rewrite list_lookup_insert.
  destruct (linear.m_tab t !! i) as [s|] eqn:Hs; [|lia].
  pose proof (lookup_lt_Some _ _ _ Hsj) as Hlt.
  destruct (decide (j = i)) as [->|Hne].
  - rewrite (decide_True (P := i = i /\ i < length (linear.m_tab t))) by done.
    intros _. cbn. by rewrite decide_True.
  - rewrite (decide_False (P := j = i /\ j < length (linear.m_tab t)))
      by (intros [? _]; done).
    destruct (linear.type s); [lia|lia|].
    destruct (decide _); [lia|]. apply IH.
Qed.

(** Other keys are met where they were. *)
Lemma used_slot_frame t it key l j sj :
  linear.m_tab t !! j = Some sj -> linear.type sj <> linear.USED ->
  key <> m_key_fn it ->
  (0 <= used_slot t key l)%Z ->
  used_slot (assigned t j it) key l = used_slot t key l.
Proof.
  intros Hsj Htj Hkey. pose proof (lookup_lt_Some _ _ _ Hsj) as Hlt.
  induction l as [|i l IH]; cbn [linear.used_slot]; [done|].
  unfold assigned at 1. cbn [linear.m_tab]. rewrite list_lookup_insert.
  destruct (linear.m_tab t !! i) as [s|] eqn:Hs; [|lia].
  destruct (decide (j = i)) as [->|Hne].
  - rewrite (decide_True (P := i = i /\ i < length (linear.m_tab t))) by done.
    assert (s = sj) as -> by congruence.
    destruct (linear.type sj) eqn:Ht; [lia| |done].
    intros Hge. cbn. rewrite decide_False by done. by apply IH.
  - rewrite (decide_False (P := j = i /\ j < length (linear.m_tab t)))
      by (intros [? _]; done).
    destruct (linear.type s); [done|apply IH|].
    destruct (decide _); [done|apply IH].
Qed.

(** A key that is met has no free slot, where no slot is [AVAIL]. *)
Lemma free_slot_used t key l :
  linear.no_avail t -> (0 <= used_slot t key l)%Z -> free_slot t key l = (-1)%Z.
Proof.
  intros Hna. induction l as [|i l IH]; cbn [linear.free_slot linear.used_slot]; [done|].
  destruct (linear.m_tab t !! i) as [s|] eqn:Hs; [|done].
  pose proof (Hna i s Hs). destruct (linear.type s); [lia|done|].
  destruct (decide _); [done|apply IH].
Qed.

(** A key that is not met has the first [EMPTY] slot free, where no slot
    is [AVAIL]; both are [-1] when the probes are all in use. *)
Lemma free_slot_ge t key l : (-1 <= free_slot t key l)%Z.
Proof.
  induction l as [|i l IH]; cbn [linear.free_slot]; [done|].
  destruct (linear.m_tab t !! i) as [s|]; [|done].
  destruct (linear.type s); [lia|lia|]. by destruct (decide _).
Qed.

Lemma used_slot_ge t key l : (-1 <= used_slot t key l)%Z.
Proof.
  induction l as [|i l IH]; cbn [linear.used_slot]; [done|].
  destruct (linear.m_tab t !! i) as [s|]; [|done].
  destruct (linear.type s); [done|done|]. destruct (decide _); [lia|done].
Qed.

Lemma free_slot_bounds t key l :
  (forall i, i ∈ l -> i < length (linear.m_tab t)) ->
  (-1 <= free_slot t key l < Z.of_nat (length (linear.m_tab t)))%Z.
Proof.
  intros Hl. pose proof (free_slot_ge t key l).
  destruct (decide (0 <= free_slot t key l)%Z) as [Hge|]; [|lia].
  destruct (free_slot_spec t key l Hge) as (i & s & -> & Hi & _). apply Hl in Hi. lia.
Qed.

Lemma used_slot_bounds t key l :
  (forall i, i ∈ l -> i < length (linear.m_tab t)) ->
  (-1 <= used_slot t key l < Z.of_nat (length (linear.m_tab t)))%Z.
Proof.
  intros Hl. pose proof (used_slot_ge t key l).
  destruct (decide (0 <= used_slot t key l)%Z) as [Hge|]; [|lia].
  destruct (used_slot_spec t key l Hge) as (i & s & -> & Hi & _). apply Hl in Hi. lia.
Qed.

(** [insert] in terms of the free slot. *)
Lemma insert_assigned t it :
  linear.in_range t ->
  linear.insert m_key_fn it t
  = let index := if linear.m_item_cnt t <? linear.m_capacity t
                 then free_slot t (m_key_fn it) (linear.probes t (m_key_fn it))
                 else (-1)%Z in
    linear.Ok (index, if (0 <=? index)%Z then assigned t (Z.to_nat index) it else t).
Proof.
  intros Hr. unfold linear.insert. rewrite insert_index_free_slot by done.
  cbn [linear.rbind]. cbn zeta.
  set (index := if _ <? _ then _ else _).
  assert (Hb : (-1 <= index < Z.of_nat (length (linear.m_tab t)))%Z).
  { unfold index. destruct (_ <? _); [|lia].
    apply free_slot_bounds. intros i. by apply probes_in_range. }
  destruct (Z.leb_spec 0 index); [|done].
  unfold linear.assign_slot. destruct (Nat.ltb_spec (Z.to_nat index) (length (linear.m_tab t))); [done|lia].
Qed.

End linear_slots.

Section linear_table.
Context {Item_t Key_t : Type} `{EqDecision Key_t}.
Context (m_key_fn : Item_t -> Key_t).
Context (Item_t_default : Item_t).
Context (scaled_size : nat -> nat).
Implicit Types (t : linear.table (Item_t := Item_t) (Key_t := Key_t)).
Implicit Types (key : Key_t) (it : Item_t).

Local Abbreviation insert := (linear.insert m_key_fn).
Local Abbreviation find := (linear.find m_key_fn).

Lemma insert_cases t it index t' :
  linear.in_range t -> insert it t = linear.Ok (index, t') ->
  (index = (-1)%Z /\ t' = t) \/
  (exists j sj, index = Z.of_nat j /\ t' = assigned t j it /\
     linear.m_tab t !! j = Some sj /\ linear.type sj <> linear.USED /\
     linear.free_slot m_key_fn t (m_key_fn it) (linear.probes t (m_key_fn it)) = Z.of_nat j).
Proof.
  intros Hr. rewrite insert_assigned by done. cbn zeta.
  destruct (linear.m_item_cnt t <? linear.m_capacity t).
  - pose proof (free_slot_ge m_key_fn t (m_key_fn it) (linear.probes t (m_key_fn it))) as Hge.
    destruct (Z.leb_spec 0 (linear.free_slot m_key_fn t (m_key_fn it)
                              (linear.probes t (m_key_fn it)))) as [H0|H0].
    + destruct (free_slot_spec m_key_fn _ _ _ H0) as (j & sj & Hj & _ & Hsj & Htj).
      intros [= <- <-]. right. exists j, sj. rewrite Hj, Nat2Z.id. done.
    + intros [= <- <-]. left. split; [lia|done].
  - cbn. intros [= <- <-]. by left.
Qed.

Lemma find_assigned t it j :
  linear.in_range t ->
  linear.free_slot m_key_fn t (m_key_fn it) (linear.probes t (m_key_fn it)) = Z.of_nat j ->
  find (m_key_fn it) (assigned t j it) = linear.Ok (Z.of_nat j).
Proof.
  intros Hr Hfree. unfold linear.find.
  rewrite find_index_used_slot by by apply in_range_assigned.
  rewrite probes_assigned. f_equal. by apply used_slot_assigned.
Qed.

Lemma find_frame t it j sj key f :
  linear.in_range t ->
  linear.m_tab t !! j = Some sj -> linear.type sj <> linear.USED ->
  key <> m_key_fn it ->
  find key t = linear.Ok f -> (0 <= f)%Z ->
  find key (assigned t j it) = linear.Ok f.
Proof.
  intros Hr Hsj Htj Hkey. unfold linear.find.
  rewrite !find_index_used_slot by (try apply in_range_assigned; done).
  rewrite probes_assigned. intros [= <-] Hf. f_equal.
  by apply used_slot_frame with sj.
Qed.

Lemma insert_duplicate t it f :
  linear.in_range t -> linear.no_avail t ->
  find (m_key_fn it) t = linear.Ok f -> (0 <= f)%Z ->
  insert it t = linear.Ok ((-1)%Z, t).
Proof.
  intros Hr Hna. unfold linear.find. rewrite find_index_used_slot by done.
  intros [= <-] Hf. rewrite insert_assigned by done. cbn zeta.
  rewrite free_slot_used by done. by destruct (_ <? _).
Qed.

Lemma insert_invariants t it index t' :
  linear.in_range t -> insert it t = linear.Ok (index, t') ->
  linear.in_range t' /\ (linear.no_avail t -> linear.no_avail t') /\
  linear.size t' = linear.size t /\ linear.item_cnt t' = linear.item_cnt t /\
  linear.capacity t' = linear.capacity t /\ linear.m_hash_fn t' = linear.m_hash_fn t.
Proof.
  intros Hr Hins.
  destruct (insert_cases _ _ _ _ Hr Hins) as [[_ ->]|(j & sj & _ & -> & _)]; [done|].
  split_and!; try done.
  - by apply in_range_assigned.
  - apply no_avail_assigned.
  - unfold linear.size, assigned. cbn. by rewrite length_insert.
Qed.

Lemma inserts_invariants items t t' :
  linear.in_range t -> inserts m_key_fn items t = linear.Ok t' ->
  linear.in_range t' /\ (linear.no_avail t -> linear.no_avail t') /\
  linear.size t' = linear.size t /\ linear.item_cnt t' = linear.item_cnt t /\
  linear.capacity t' = linear.capacity t /\ linear.m_hash_fn t' = linear.m_hash_fn t.
Proof.
  revert t. induction items as [|it items IH]; intros t Hr; cbn [inserts].
  - by intros [= <-].
  - destruct (insert it t) as [[index t1]|f|] eqn:Hins; cbn [linear.rbind snd]; try done.
    intros Hrest.
    destruct (insert_invariants _ _ _ _ Hr Hins) as (Hr1 & Hna1 & Hs1 & Hc1 & Hcap1 & Hh1).
    destruct (IH _ Hr1 Hrest) as (Hr' & Hna' & Hs' & Hc' & Hcap' & Hh').
    split_and!; [done|by auto|congruence..].
Qed.

(** An item stays where it was put, whatever is inserted later. *)
Lemma inserts_keep t key f items t' :
  linear.in_range t -> linear.no_avail t ->
  find key t = linear.Ok f -> (0 <= f)%Z ->
  inserts m_key_fn items t = linear.Ok t' ->
  find key t' = linear.Ok f.
Proof.
  revert t. induction items as [|it items IH]; intros t Hr Hna Hfind Hf; cbn [inserts].
  - by intros [= <-].
  - destruct (insert it t) as [[index t1]|e|] eqn:Hins; cbn [linear.rbind snd]; try done.
    destruct (insert_invariants _ _ _ _ Hr Hins) as (Hr1 & Hna1 & _).
    apply IH; [done|by auto| |done].
    destruct (insert_cases _ _ _ _ Hr Hins)
      as [[_ ->]|(j & sj & Hindex & -> & Hsj & Htj & Hfree)]; [done|].
    apply find_frame with sj; try done.
    intros ->. rewrite (insert_duplicate t it f) in Hins by done.
    injection Hins as Hi _. lia.
Qed.

End linear_table.

Section linear_more.
Context {Item_t Key_t : Type} `{EqDecision Key_t}.
Context (m_key_fn : Item_t -> Key_t).
Context (Item_t_default : Item_t).
Context (scaled_size : nat -> nat).
Implicit Types (t : linear.table (Item_t := Item_t) (Key_t := Key_t)).
Implicit Types (key : Key_t) (it : Item_t).

Local Abbreviation insert := (linear.insert m_key_fn).
Local Abbreviation find := (linear.find m_key_fn).
Local Abbreviation free_slot := (linear.free_slot m_key_fn).
Local Abbreviation used_slot := (linear.used_slot m_key_fn).

Lemma probes_head t key :
  linear.in_range t ->
  exists l, linear.probes t key
            = hd 0 ((fun hash_fn : linear.Hash_fn => hash_fn key (length (linear.m_tab t)))
                      <$> linear.m_hash_fn t) :: l.
Proof.
  intros [Hn _]. unfold linear.probes. cbn zeta.
  destruct (linear.m_hash_fn t) as [|h fns]; cbn [fmap list_fmap hd app].
  - unfold linear.collision_string. cbn. rewrite Nat.sub_0_r.
    destruct (length (linear.m_tab t)) as [|n]; [lia|]. cbn. eauto.
  - eauto.
Qed.

(** The constructor. *)
Lemma linear_constructed size (hash_fn : list (linear.Hash_fn (Key_t := Key_t))) capacity :
  let cap := if capacity =? 0 then scaled_size size else capacity in
  linear.linear Item_t_default scaled_size size hash_fn capacity
  = if size <? cap
    then linear.Failed (linear.logic_error "libaccl::hash::linear: invalid capacity")
    else linear.Ok {| linear.m_hash_fn := hash_fn;
                      linear.m_tab := replicate size (linear.slot_new Item_t_default);
                      linear.m_item_cnt := 0;
                      linear.m_capacity := cap |}.
Proof. unfold linear.linear. cbn. by rewrite length_replicate. Qed.

Lemma used_slot_fresh t key l :
  (forall i s, linear.m_tab t !! i = Some s -> linear.type s = linear.EMPTY) ->
  used_slot t key l = (-1)%Z.
Proof.
  intros Hempty. destruct l as [|i l]; [done|]. cbn [linear.used_slot].
  destruct (linear.m_tab t !! i) as [s|] eqn:Hs; [|done]. by rewrite (Hempty i s Hs).
Qed.

Lemma free_slot_fresh t key i l :
  i < length (linear.m_tab t) ->
  (forall i s, linear.m_tab t !! i = Some s -> linear.type s = linear.EMPTY) ->
  free_slot t key (i :: l) = Z.of_nat i.
Proof.
  intros Hi Hempty. cbn [linear.free_slot].
  destruct (lookup_lt_is_Some_2 (linear.m_tab t) i Hi) as [s Hs]. rewrite Hs.
  by rewrite (Hempty i s Hs).
Qed.

Lemma free_slot_full t key l :
  (forall i s, linear.m_tab t !! i = Some s ->
     linear.type s = linear.USED /\ m_key_fn (linear.item s) <> key) ->
  free_slot t key l = (-1)%Z /\ used_slot t key l = (-1)%Z.
Proof.
  intros Hfull. induction l as [|i l [IH1 IH2]]; [done|].
  cbn [linear.free_slot linear.used_slot].
  destruct (linear.m_tab t !! i) as [s|] eqn:Hs; [|done].
  destruct (Hfull i s Hs) as [-> Hk]. rewrite !decide_False by done. done.
Qed.

(** [get_index] with both targets, on a table without [AVAIL] slots. *)
Lemma get_index_both t key :
  linear.in_range t -> linear.no_avail t ->
  linear.get_index m_key_fn t key
    {| linear.insert_ptr := true; linear.find_ptr := true;
       linear.insert_ix := None; linear.find_ix := None |}
  = linear.Ok
      {| linear.insert_ptr := (linear.m_item_cnt t <? linear.m_capacity t);
         linear.find_ptr := true;
         linear.insert_ix :=
           Some (if linear.m_item_cnt t <? linear.m_capacity t
                 then free_slot t key (linear.probes t key) else (-1)%Z);
         linear.find_ix := Some (used_slot t key (linear.probes t key)) |}.
Proof.
  intros Hr Hna. rewrite get_index_scan by done. cbn zeta.
  unfold linear.null_insert, linear.assign_insert.
  destruct (linear.m_item_cnt t <? linear.m_capacity t);
    cbn [negb andb linear.insert_ptr linear.find_ptr linear.insert_ix linear.find_ix].
  - rewrite scan_both; [done|done|]. intros i. by apply probes_in_range.
  - rewrite scan_find_only; [done|]. intros i. by apply probes_in_range.
Qed.

Lemma subscript_cases t key :
  linear.in_range t -> linear.no_avail t ->
  linear.subscript m_key_fn Item_t_default key t
  = let f := used_slot t key (linear.probes t key) in
    let j := if linear.m_item_cnt t <? linear.m_capacity t
             then free_slot t key (linear.probes t key) else (-1)%Z in
    if (0 <=? f)%Z then
      match linear.m_tab t !! Z.to_nat f with
      | Some s => linear.Ok (linear.item s, t)
      | None => linear.Failed (linear.out_of_bounds (Z.to_nat f) (length (linear.m_tab t)))
      end
    else if (j <? 0)%Z
    then linear.Failed (linear.runtime_error "libaccl::hash::linear::[]: table overfill")
    else linear.Ok (Item_t_default, assigned t (Z.to_nat j) Item_t_default).
Proof.
  intros Hr Hna. unfold linear.subscript. rewrite get_index_both by done.
  cbn [linear.rbind linear.read linear.find_ix linear.insert_ix]. cbn zeta.
  destruct (0 <=? _)%Z; [done|].
  set (j := if _ <? _ then _ else _).
  assert (Hb : (-1 <= j < Z.of_nat (length (linear.m_tab t)))%Z).
  { unfold j. destruct (_ <? _); [|lia].
    apply free_slot_bounds. intros i. by apply probes_in_range. }
  destruct (Z.ltb_spec j 0); [done|].
  unfold linear.assign_slot.
  destruct (Nat.ltb_spec (Z.to_nat j) (length (linear.m_tab t))); [done|lia].
Qed.

End linear_more.

Section linear_loop.
Context {Item_t Key_t : Type} `{EqDecision Key_t}.
Context (m_key_fn : Item_t -> Key_t).
Context (Item_t_default : Item_t).
Context (scaled_size : nat -> nat).
Implicit Types (t : linear.table (Item_t := Item_t) (Key_t := Key_t)).
Implicit Types (key : Key_t) (it : Item_t).

Local Abbreviation insert := (linear.insert m_key_fn).
Local Abbreviation find := (linear.find m_key_fn).
Local Abbreviation free_slot := (linear.free_slot m_key_fn).
Local Abbreviation used_slot := (linear.used_slot m_key_fn).

Lemma insert_overfill t it :
  linear.m_capacity t <= linear.m_item_cnt t -> insert it t = linear.Ok ((-1)%Z, t).
Proof.
  intros Hfill. unfold linear.insert, linear.insert_index, linear.get_index.
  by destruct (Nat.ltb_spec (linear.m_item_cnt t) (linear.m_capacity t)); [lia|].
Qed.

Lemma find_overfill t key :
  linear.in_range t -> find key t = linear.Ok (used_slot t key (linear.probes t key)).
Proof. intros Hr. unfold linear.find. by apply find_index_used_slot. Qed.

Lemma last_hashed_in_range t key :
  linear.in_range t ->
  List.last ((fun hash_fn : linear.Hash_fn => hash_fn key (length (linear.m_tab t)))
               <$> linear.m_hash_fn t) 0 < length (linear.m_tab t).
Proof.
  intros [Hn Hfns].
  set (hashed := (fun hash_fn : linear.Hash_fn => hash_fn key (length (linear.m_tab t)))
                   <$> linear.m_hash_fn t).
  assert (Hhashed : forall j, j ∈ hashed -> j < length (linear.m_tab t)).
  { intros j [h [-> Hh]]%list_elem_of_fmap. by apply Hfns. }
  clearbody hashed. induction hashed as [|a l IH] using rev_ind; [done|].
  rewrite last_last. apply Hhashed. apply elem_of_app. right. left.
Qed.

Lemma probes_cover t key i :
  linear.in_range t -> i < length (linear.m_tab t) -> i ∈ linear.probes t key.
Proof.
  intros Hr Hi. pose proof (last_hashed_in_range t key Hr) as Hlast.
  unfold linear.probes. cbn zeta.
  apply elem_of_app. right. unfold linear.collision_string. rewrite Nat.ltb_irrefl.
  apply elem_of_app.
  destruct (decide (i < List.last ((fun hash_fn : linear.Hash_fn =>
              hash_fn key (length (linear.m_tab t))) <$> linear.m_hash_fn t) 0)).
  - right. apply elem_of_seq. lia.
  - left. apply elem_of_seq. lia.
Qed.

Lemma free_slot_none t key l :
  linear.no_avail t -> (forall i, i ∈ l -> i < length (linear.m_tab t)) ->
  free_slot t key l = (-1)%Z ->
  (0 <= used_slot t key l)%Z
  \/ forall i, i ∈ l -> exists s, linear.m_tab t !! i = Some s /\ linear.type s = linear.USED.
Proof.
  intros Hna. induction l as [|i l IH]; intros Hl.
  { intros _. right. by intros i ?%elem_of_nil. }
  cbn [linear.free_slot linear.used_slot].
  destruct (lookup_lt_is_Some_2 (linear.m_tab t) i) as [s Hs]; [apply Hl; left|].
  rewrite Hs. pose proof (Hna i s Hs) as Hav.
  destruct (linear.type s) eqn:Hty; [lia|done|].
  destruct (decide (m_key_fn (linear.item s) = key)); [intros _; left; lia|].
  intros Hfree. destruct IH as [IH|IH]; [intros; apply Hl; by right|done|by left|].
  right. intros j [->|Hj]%elem_of_cons; [by exists s|by apply IH].
Qed.

Lemma full_assigned t j it : full t -> full (assigned t j it).
Proof.
  intros Hfull i s. unfold assigned. cbn [linear.m_tab].
  intros Hs. destruct (decide (i = j)) as [->|Hne].
  - apply list_lookup_insert_Some in Hs as [(_ & <- & _)|[? _]]; done.
  - rewrite list_lookup_insert_ne in Hs by done. by apply Hfull with i.
Qed.

Lemma inserts_full items t t' :
  linear.in_range t -> full t -> inserts m_key_fn items t = linear.Ok t' -> full t'.
Proof.
  revert t. induction items as [|it items IH]; intros t Hr Hfull; cbn [inserts].
  - by intros [= <-].
  - destruct (insert it t) as [[index t1]|e|] eqn:Hins; cbn [linear.rbind snd]; try done.
    destruct (insert_invariants _ _ _ _ _ Hr Hins) as (Hr1 & _).
    apply IH; [done|].
    destruct (insert_cases _ _ _ _ _ Hr Hins) as [[_ ->]|(j & sj & _ & -> & _)]; [done|].
    by apply full_assigned.
Qed.

Lemma insert_returns t it :
  linear.in_range t -> exists index t', insert it t = linear.Ok (index, t').
Proof. intros Hr. rewrite insert_assigned by done. cbn zeta. eauto. Qed.

Lemma inserts_returns items t :
  linear.in_range t -> exists t', inserts m_key_fn items t = linear.Ok t'.
Proof.
  revert t. induction items as [|it items IH]; intros t Hr; cbn [inserts]; [by eexists|].
  destruct (insert_returns t it Hr) as (index & t1 & Hins). rewrite Hins.
  cbn [linear.rbind snd]. apply IH.
  by destruct (insert_invariants _ _ _ _ _ Hr Hins) as (Hr1 & _).
Qed.

(** Every item of the loop is in the table afterwards, unless the table
    has become full. *)
Lemma inserts_found items t t' :
  linear.in_range t -> linear.no_avail t ->
  linear.m_item_cnt t < linear.m_capacity t ->
  inserts m_key_fn items t = linear.Ok t' ->
  ~ full t' ->
  forall it, it ∈ items ->
    exists f, (0 <= f)%Z /\ find (m_key_fn it) t' = linear.Ok f.
Proof.
  revert t. induction items as [|it items IH]; intros t Hr Hna Hcap; cbn [inserts].
  { by intros _ _ it ?%elem_of_nil. }
  destruct (insert it t) as [[index t1]|e|] eqn:Hins; cbn [linear.rbind snd]; try done.
  intros Hrest Hroom it' Hit'.
  destruct (insert_invariants _ _ _ _ _ Hr Hins) as (Hr1 & Hna1 & _ & Hcnt1 & Hcap1 & _).
  unfold linear.item_cnt, linear.capacity in *.
  apply elem_of_cons in Hit' as [->|Hit'].
  2:{ apply (IH t1); try done; [by auto|lia]. }
  assert (Hkeep : forall f, (0 <= f)%Z -> find (m_key_fn it) t1 = linear.Ok f ->
            exists f, (0 <= f)%Z /\ find (m_key_fn it) t' = linear.Ok f).
  { intros f Hf Hfind. exists f. split; [done|].
    by apply (inserts_keep m_key_fn t1 _ f items); auto. }
  pose proof Hins as Hins'. rewrite insert_assigned in Hins' by done. cbn zeta in Hins'.
  destruct (Nat.ltb_spec (linear.m_item_cnt t) (linear.m_capacity t)); [|lia].
  set (j := free_slot t (m_key_fn it) (linear.probes t (m_key_fn it))) in *.
  pose proof (free_slot_ge m_key_fn t (m_key_fn it) (linear.probes t (m_key_fn it))) as Hge.
  fold j in Hge.
  destruct (Z.leb_spec 0 j) as [Hj|Hj]; injection Hins' as <- <-.
  - apply (Hkeep j Hj). replace j with (Z.of_nat (Z.to_nat j)) at 2 by lia.
    apply find_assigned; [done|]. fold j. lia.
  - destruct (free_slot_none t (m_key_fn it) (linear.probes t (m_key_fn it)))
      as [Hused|Hfull]; [done|intros i; by apply probes_in_range|fold j; lia| |].
    + apply (Hkeep _ Hused). by apply find_overfill.
    + destruct Hroom. apply (inserts_full items t); [done| |done].
      intros i s Hs. destruct (Hfull i) as (s' & Hs' & Hty).
      { apply probes_cover; [done|]. by apply lookup_lt_Some in Hs. }
      congruence.
Qed.

Lemma self_found_assigned t it j sj :
  linear.no_avail t -> self_found m_key_fn t ->
  linear.m_tab t !! j = Some sj -> linear.type sj <> linear.USED ->
  free_slot t (m_key_fn it) (linear.probes t (m_key_fn it)) = Z.of_nat j ->
  self_found m_key_fn (assigned t j it).
Proof.
  intros Hna Hself Hsj Htj Hfree i s Hs Hty. rewrite probes_assigned.
  unfold assigned in Hs. cbn [linear.m_tab] in Hs.
  destruct (decide (i = j)) as [->|Hne].
  - apply list_lookup_insert_Some in Hs as [(_ & <- & _)|[? _]]; [|done].
    cbn [linear.slot_assign linear.item]. by apply used_slot_assigned.
  - rewrite list_lookup_insert_ne in Hs by done.
    pose proof (Hself i s Hs Hty) as Hi.
    rewrite (used_slot_frame m_key_fn t it _ _ j sj); try done; [|lia].
    intros Hkey. rewrite Hkey in Hi.
    rewrite (free_slot_used m_key_fn t (m_key_fn it)) in Hfree by (done || lia). lia.
Qed.

Lemma inserts_self_found items t t' :
  linear.in_range t -> linear.no_avail t -> self_found m_key_fn t ->
  inserts m_key_fn items t = linear.Ok t' -> self_found m_key_fn t'.
Proof.
  revert t. induction items as [|it items IH]; intros t Hr Hna Hself; cbn [inserts].
  - by intros [= <-].
  - destruct (insert it t) as [[index t1]|e|] eqn:Hins; cbn [linear.rbind snd]; try done.
    destruct (insert_invariants _ _ _ _ _ Hr Hins) as (Hr1 & Hna1 & _).
    apply IH; [done|by auto|].
    destruct (insert_cases _ _ _ _ _ Hr Hins)
      as [[_ ->]|(j & sj & _ & -> & Hsj & Htj & Hfree)]; [done|].
    by apply self_found_assigned with sj.
Qed.

(** No key is held by two slots. *)
Lemma self_found_unique t i j si sj :
  self_found m_key_fn t ->
  linear.m_tab t !! i = Some si -> linear.type si = linear.USED ->
  linear.m_tab t !! j = Some sj -> linear.type sj = linear.USED ->
  m_key_fn (linear.item si) = m_key_fn (linear.item sj) -> i = j.
Proof.
  intros Hself Hi Hti Hj Htj Hkey.
  pose proof (Hself i si Hi Hti) as H1. pose proof (Hself j sj Hj Htj) as H2.
  rewrite Hkey in H1. lia.
Qed.

(** The table the constructor returns. *)
Lemma linear_fresh size (hash_fn : list (linear.Hash_fn (Key_t := Key_t))) capacity t :
  linear.linear Item_t_default scaled_size size hash_fn capacity = linear.Ok t ->
  all_empty t /\ linear.size t = size /\ linear.item_cnt t = 0 /\
  linear.m_hash_fn t = hash_fn /\
  linear.capacity t = (if capacity =? 0 then scaled_size size else capacity) /\
  linear.capacity t <= size.
Proof.
  rewrite linear_constructed. cbn zeta.
  destruct (Nat.ltb_spec size (if capacity =? 0 then scaled_size size else capacity));
    [done|]. intros [= <-]. unfold linear.size, linear.item_cnt, linear.capacity.
  cbn. rewrite length_replicate. split_and!; try done.
  by intros i s [-> _]%lookup_replicate.
Qed.

Lemma all_empty_no_avail t : all_empty t -> linear.no_avail t.
Proof. intros He i s Hs. by rewrite (He i s Hs). Qed.

Lemma all_empty_self_found t : all_empty t -> self_found m_key_fn t.
Proof. intros He i s Hs. by rewrite (He i s Hs). Qed.

End linear_loop.

(** ** The hash functions of the unit test *)

Lemma primary_hash_fn_lt key size : 0 < size -> primary_hash_fn key size < size.
Proof.
  intros Hsize. unfold primary_hash_fn.
  pose proof (Z.mod_pos_bound (str_sum key) (Z.of_nat size)). lia.
Qed.

Lemma secondary_hash_fn_lt key size : 0 < size -> secondary_hash_fn key size < size.
Proof.
  intros Hsize. unfold secondary_hash_fn. cbn zeta.
  pose proof (Z.mod_pos_bound ((str_sum key * str_sum key) mod 2 ^ 64) (Z.of_nat size)).
  lia.
Qed.

Lemma unit_test_in_range {Item_t : Type} (t : linear.table (Item_t := Item_t)) :
  linear.m_hash_fn t = [primary_hash_fn; secondary_hash_fn] ->
  0 < linear.size t -> linear.in_range t.
Proof.
  intros Hfns Hsize. split; [done|]. intros hash_fn key. rewrite Hfns.
  intros [->|[->|[]%elem_of_nil]%elem_of_cons]%elem_of_cons.
  - by apply primary_hash_fn_lt.
  - by apply secondary_hash_fn_lt.
Qed.

Lemma string_table_in_range size capacity :
  0 < size -> linear.in_range (string_table size capacity).
Proof.
  intros Hsize. apply unit_test_in_range; [done|].
  unfold linear.size, string_table. cbn. by rewrite length_replicate.
Qed.

Lemma string_table_all_empty size capacity : all_empty (string_table size capacity).
Proof. by intros i s [-> _]%lookup_replicate. Qed.

Lemma shelf_in_range : linear.in_range shelf.
Proof. do 2 apply in_range_assigned. apply string_table_in_range. lia. Qed.

Lemma shelf_no_avail : linear.no_avail shelf.
Proof.
  do 2 apply no_avail_assigned. apply all_empty_no_avail, string_table_all_empty.
Qed.

Lemma shelf_not_full : ~ full shelf.
Proof. intros Hfull. by specialize (Hfull 0 _ eq_refl). Qed.


Lemma full_shelf_in_range : linear.in_range full_shelf.
Proof. do 2 apply in_range_assigned. apply string_table_in_range. lia. Qed.

Lemma full_shelf_other_keys i s :
  linear.m_tab full_shelf !! i = Some s ->
  linear.type s = linear.USED /\ identity_key (linear.item s) <> identity_key "k"%string.
Proof. destruct i as [|[|i]]; intros [= <-]; by split. Qed.

(** * Further properties *)

(** ** The pattern store *)

(** X1.  After [set(p, v)] a lookup of [p] gives the payload [p] had
    before, or [v] if it had none; the lookup of any other point is as
    before. *)
Theorem X1_get_after_set {Payload_t : Type} (m : set_t Payload_t)
    (p q : point_t) (v : Payload_t) :
  get q (set p v m) = if decide (q = p) then Some (default v (get p m)) else get q m.
Proof. apply find_set. Qed.

(** X2.  [set(p, v)] leaves [size()] as it is when [p] is contained, and
    adds one otherwise. *)
Theorem X2_size_after_set {Payload_t : Type} (m : set_t Payload_t)
    (p : point_t) (v : Payload_t) :
  size (set p v m) = if contains p m then size m else S (size m).
Proof. apply size_set. Qed.

(** X3.  [set] keeps the points strictly increasing in iteration order, and
    then every association the iteration yields is the one [get] finds. *)
Theorem X3_set_keeps_order {Payload_t : Type} (m : set_t Payload_t)
    (p : point_t) (v : Payload_t) :
  ordered m ->
  ordered (set p v m)
  /\ forall q w, (q, w) ∈ iterate (set p v m) -> get q (set p v m) = Some w.
Proof.
  intros Hord. pose proof (ordered_set p v m Hord) as Hord'. split; [done|].
  intros q w Hq. by apply ordered_find.
Qed.

(** X3 on the store [{(0): 7}], adding the point [(1)]. *)
Lemma X3_witness :
  ordered one_point
  /\ ordered (set [1%Z] 2 one_point)
  /\ forall q w, (q, w) ∈ iterate (set [1%Z] 2 one_point) ->
       get q (set [1%Z] 2 one_point) = Some w.
Proof. split; [by vm_compute | apply (X3_set_keeps_order one_point); by vm_compute]. Defined.

(** X4.  Insertions of two different points commute: the container does not
    depend on which of them was stored first. *)
Theorem X4_set_commutes {Payload_t : Type} (m : set_t Payload_t)
    (p q : point_t) (v w : Payload_t) :
  ordered m -> p <> q -> set p v (set q w m) = set q w (set p v m).
Proof. apply set_commute. Qed.

(** X4 on the store [{(0): 7}] with the points [(1)] and [(-1)]. *)
Lemma X4_witness :
  ordered one_point /\ [1%Z] <> [(-1)%Z]
  /\ set [1%Z] 2 (set [(-1)%Z] 3 one_point) = set [(-1)%Z] 3 (set [1%Z] 2 one_point).
Proof.
  split; [by vm_compute|]. split; [discriminate|].
  apply (X4_set_commutes one_point); [by vm_compute | discriminate].
Defined.

(** ** The construction of the hypersphere *)

(** X5.  Whatever the outcome of the construction, the container is left
    with its points strictly increasing, and every stored point has
    [dimension] coordinates. *)
Theorem X5_points_ordered_of_dimension (dimension : nat) (layers : list Z) :
  ordered (hypersphere dimension layers).2
  /\ forall p v, (p, v) ∈ iterate (hypersphere dimension layers).2 ->
       length p = dimension.
Proof.
  split; [apply hypersphere_ordered | apply hypersphere_points_of_dimension].
Qed.







(** X9.  In dimension 1, layers whose outer and innermost radius are the
    same [r >= 0] construct the two points [-r] and [r] with payload 0, or
    the single point 0 when [r = 0]. *)
Theorem X9_line_of_one_radius (layers : list Z) (r : Z) :
  layers !! 0 = Some r -> layers !! (length layers - 1) = Some r -> (0 <= r)%Z ->
  hypersphere 1 layers
  = (Done tt, if decide (r = 0%Z) then [([0%Z], 0)] else [([(- r)%Z], 0); ([r], 0)]).
Proof. apply hypersphere_1D. Qed.

(** X9 at [layers = [3, 3]]. *)
Lemma X9_witness :
  [3; 3]%Z !! 0 = Some 3%Z /\ [3; 3]%Z !! (length [3; 3]%Z - 1) = Some 3%Z /\ (0 <= 3)%Z
  /\ hypersphere 1 [3; 3]%Z = (Done tt, [([(-3)%Z], 0); ([3%Z], 0)]).
Proof.
  split; [reflexivity|]. split; [reflexivity|]. split; [lia|].
  apply (X9_line_of_one_radius [3; 3]%Z 3); [reflexivity | reflexivity | lia].
Defined.

(** X10.  [octant] and [symmetry] only add points: a point stored before
    keeps its payload, whatever the outcome of the call. *)
Theorem X10_construction_only_adds (this : store_t) (q : point_t) (v : nat)
    (depth : nat) (centre : point_t) (layers : list Z) (d dimension : nat) :
  get q this = Some v ->
  get q (octant depth centre layers d this).2 = Some v
  /\ get q (symmetry dimension this).2 = Some v.
Proof.
  intros Hq. split; [by apply octant_keeps | by apply symmetry_keeps].
Qed.

(** X10 on the store [{(0): 7}], with the circle of radius 0 and the
    symmetry of the line. *)
Lemma X10_witness :
  get [0%Z] one_point = Some 7
  /\ get [0%Z] (octant 2 [0; 0]%Z [0]%Z 0 one_point).2 = Some 7
  /\ get [0%Z] (symmetry 1 one_point).2 = Some 7.
Proof.
  split; [reflexivity|].
  apply (X10_construction_only_adds one_point [0%Z] 7 2 [0; 0]%Z [0]%Z 0 1). reflexivity.
Defined.

(** ** The linear hash table *)

(** X11.  The two hash functions of the unit test return an index of the
    table for every key, whenever the table has a slot: such a table meets
    the precondition [in_range] of the statements below. *)
Theorem X11_unit_test_hashes_in_range {Item_t : Type}
    (t : linear.table (Item_t := Item_t)) :
  linear.m_hash_fn t = [primary_hash_fn; secondary_hash_fn] ->
  0 < linear.size t ->
  linear.in_range t.
Proof. apply unit_test_in_range. Qed.

(** X11 on the table of 5 strings. *)
Lemma X11_witness :
  linear.m_hash_fn (string_table 5 4) = [primary_hash_fn; secondary_hash_fn]
  /\ 0 < linear.size (string_table 5 4)
  /\ linear.in_range (string_table 5 4).
Proof.
  split; [reflexivity|]. split; [vm_compute; lia|].
  apply (X11_unit_test_hashes_in_range (string_table 5 4)); [reflexivity | vm_compute; lia].
Defined.

(** X12.  In the table the constructor returns, no key is found; and when
    its capacity is not 0, the first [insert] puts the item at the index the
    first hash function gives for its key (index 0 without hash functions),
    where [find] then finds it. *)
Theorem X12_fresh_table {Item_t Key_t : Type} `{EqDecision Key_t}
    (m_key_fn : Item_t -> Key_t) (Item_t_default : Item_t) (scaled_size : nat -> nat)
    (size : nat) (hash_fn : list (linear.Hash_fn (Key_t := Key_t))) (capacity : nat)
    (t : linear.table) :
  linear.linear Item_t_default scaled_size size hash_fn capacity = linear.Ok t ->
  linear.in_range t ->
  (forall key, linear.find m_key_fn key t = linear.Ok (-1)%Z
               /\ linear.exists_ m_key_fn key t = linear.Ok false)
  /\ (forall it, 0 < linear.capacity t ->
        let index := hd 0 ((fun h : linear.Hash_fn => h (m_key_fn it) size) <$> hash_fn) in
        linear.insert m_key_fn it t = linear.Ok (Z.of_nat index, assigned t index it)
        /\ linear.find m_key_fn (m_key_fn it) (assigned t index it)
           = linear.Ok (Z.of_nat index)).
Proof.
  intros Hnew Hr.
  destruct (linear_fresh _ _ _ _ _ _ Hnew) as (Hempty & Hsize & Hcnt & Hfns & _).
  unfold linear.size, linear.item_cnt, linear.capacity in *.
  assert (Hfind : forall key, linear.find m_key_fn key t = linear.Ok (-1)%Z).
  { intros key. rewrite find_overfill by done. by rewrite used_slot_fresh. }
  split.
  - intros key. split; [done|]. unfold linear.exists_.
    specialize (Hfind key). unfold linear.find in Hfind. by rewrite Hfind.
  - intros it Hcap. cbn zeta.
    set (index := hd 0 ((fun h : linear.Hash_fn => h (m_key_fn it) size) <$> hash_fn)).
    destruct (probes_head t (m_key_fn it) Hr) as [l Hl].
    rewrite Hfns, Hsize in Hl. fold index in Hl.
    assert (Hindex : index < length (linear.m_tab t)).
    { apply (probes_in_range t (m_key_fn it)); [done|]. rewrite Hl. left. }
    assert (Hfree : linear.free_slot m_key_fn t (m_key_fn it)
                      (linear.probes t (m_key_fn it)) = Z.of_nat index).
    { rewrite Hl. by apply free_slot_fresh. }
    split.
    + rewrite insert_assigned by done. cbn zeta. rewrite Hfree, Hcnt.
      destruct (Nat.ltb_spec 0 (linear.m_capacity t)); [|lia].
      destruct (Z.leb_spec 0 (Z.of_nat index)); [|lia]. by rewrite Nat2Z.id.
    + by apply find_assigned.
Qed.

(** X12 on the table of 5 strings: ["a"] goes to slot 2. *)
Lemma X12_witness :
  linear.linear EmptyString (fun size => size * 85 / 100) 5
    [primary_hash_fn; secondary_hash_fn] 0 = linear.Ok (string_table 5 4)
  /\ linear.find identity_key "k"%string (string_table 5 4) = linear.Ok (-1)%Z
  /\ linear.insert identity_key "a"%string (string_table 5 4)
     = linear.Ok (2%Z, assigned (string_table 5 4) 2 "a"%string).
Proof.
  split; [reflexivity|].
  pose proof (X12_fresh_table identity_key EmptyString (fun size => size * 85 / 100) 5
                [primary_hash_fn; secondary_hash_fn] 0 (string_table 5 4) eq_refl
                (string_table_in_range 5 4 ltac:(lia))) as [Hfind Hinsert].
  split; [apply Hfind|]. apply (Hinsert "a"%string). vm_compute. lia.
Defined.

(** X13.  The constructor accepts [size = 0]; in the table it returns,
    [insert] returns -1 and [find] reads a slot outside the (empty) table,
    whatever the key. *)
Theorem X13_table_without_slots {Item_t Key_t : Type} `{EqDecision Key_t}
    (m_key_fn : Item_t -> Key_t) (Item_t_default : Item_t) (scaled_size : nat -> nat)
    (hash_fn : list (linear.Hash_fn (Key_t := Key_t))) (capacity : nat)
    (t : linear.table) (it : Item_t) (key : Key_t) :
  linear.linear Item_t_default scaled_size 0 hash_fn capacity = linear.Ok t ->
  linear.insert m_key_fn it t = linear.Ok ((-1)%Z, t)
  /\ exists index, linear.find m_key_fn key t
                   = linear.Failed (linear.out_of_bounds index 0).
Proof.
  intros Hnew.
  destruct (linear_fresh _ _ _ _ _ _ Hnew) as (_ & Hsize & Hcnt & Hfns & _ & Hcap).
  unfold linear.size, linear.item_cnt, linear.capacity in *. split.
  - apply insert_overfill. lia.
  - apply length_zero_iff_nil in Hsize.
    assert (Hcheck : forall index o, linear.check_index m_key_fn t key index o
                       = linear.Failed (linear.out_of_bounds index 0)).
    { intros index o. unfold linear.check_index. by rewrite Hsize. }
    unfold linear.find, linear.find_index, linear.get_index.
    destruct (linear.m_item_cnt t <? linear.m_capacity t);
      cbn [negb andb linear.find_ptr linear.assign_insert linear.insert_ptr
           linear.null_insert].
    all: destruct (linear.m_hash_fn t) as [|h fns];
      [exists 0|exists (h key (length (linear.m_tab t)))].
    all: cbn [linear.hashing linear.rbind]; rewrite ?Hcheck; try done.
    all: destruct (length (linear.m_tab t)); cbn [linear.collision];
      by rewrite Hcheck.
Qed.

(** X13 on the table of strings without slots. *)
Lemma X13_witness :
  linear.linear EmptyString (fun size => size * 85 / 100) 0 [] 0 = linear.Ok no_slots
  /\ linear.insert identity_key "a"%string no_slots = linear.Ok ((-1)%Z, no_slots)
  /\ exists index, linear.find identity_key "a"%string no_slots
                   = linear.Failed (linear.out_of_bounds index 0).
Proof.
  split; [reflexivity|].
  apply (X13_table_without_slots identity_key EmptyString (fun size => size * 85 / 100)
           [] 0 no_slots). reflexivity.
Defined.

(** X14.  When the hash functions return indices of the table, [insert] and
    [find] return (no access outside the table, no loop without end, no
    index left unset), with an index of the table or -1. *)
Theorem X14_indices_within_table {Item_t Key_t : Type} `{EqDecision Key_t}
    (m_key_fn : Item_t -> Key_t) (t : linear.table) (it : Item_t) (key : Key_t) :
  linear.in_range t ->
  exists index t' f,
    linear.insert m_key_fn it t = linear.Ok (index, t')
    /\ (-1 <= index < Z.of_nat (linear.size t))%Z
    /\ linear.find m_key_fn key t = linear.Ok f
    /\ (-1 <= f < Z.of_nat (linear.size t))%Z.
Proof.
  intros Hr. rewrite insert_assigned, find_overfill by done. cbn zeta.
  eexists _, _, _. split; [reflexivity|]. unfold linear.size.
  assert (H1 : (-1 <= linear.free_slot m_key_fn t (m_key_fn it)
                        (linear.probes t (m_key_fn it))
                < Z.of_nat (length (linear.m_tab t)))%Z).
  { apply free_slot_bounds. intros i. by apply probes_in_range. }
  assert (H2 : (-1 <= linear.used_slot m_key_fn t key (linear.probes t key)
                < Z.of_nat (length (linear.m_tab t)))%Z).
  { apply used_slot_bounds. intros i. by apply probes_in_range. }
  split; [|split; [reflexivity|exact H2]].
  destruct (_ <? _); [exact H1|]. destruct Hr as [Hn _]. lia.
Qed.

(** X14 on the table holding ["a"] and ["f"]. *)
Lemma X14_witness :
  linear.in_range shelf
  /\ exists index t' f,
       linear.insert identity_key "k"%string shelf = linear.Ok (index, t')
       /\ (-1 <= index < Z.of_nat (linear.size shelf))%Z
       /\ linear.find identity_key "f"%string shelf = linear.Ok f
       /\ (-1 <= f < Z.of_nat (linear.size shelf))%Z.
Proof.
  split; [apply shelf_in_range|].
  apply (X14_indices_within_table identity_key shelf), shelf_in_range.
Defined.

(** X15.  An item [insert] has placed (index >= 0) is in the slot of that
    index, and [find] on its key returns the index. *)
Theorem X15_insert_then_find {Item_t Key_t : Type} `{EqDecision Key_t}
    (m_key_fn : Item_t -> Key_t) (t t' : linear.table) (it : Item_t) (index : Z) :
  linear.in_range t ->
  linear.insert m_key_fn it t = linear.Ok (index, t') ->
  (0 <= index)%Z ->
  linear.find m_key_fn (m_key_fn it) t' = linear.Ok index
  /\ linear.exists_ m_key_fn (m_key_fn it) t' = linear.Ok true
  /\ linear.m_tab t' !! Z.to_nat index = Some (linear.slot_assign it).
Proof.
  intros Hr Hins Hindex.
  destruct (insert_cases _ _ _ _ _ Hr Hins)
    as [[-> _]|(j & sj & -> & -> & Hsj & _ & Hfree)]; [lia|].
  pose proof (find_assigned m_key_fn t it j Hr Hfree) as Hfind.
  split; [done|]. split.
  - unfold linear.exists_. unfold linear.find in Hfind. rewrite Hfind.
    cbn [linear.rbind]. by destruct (Z.eqb_spec (-1) (Z.of_nat j)); [lia|].
  - rewrite Nat2Z.id. unfold assigned. cbn [linear.m_tab].
    apply list_lookup_insert_Some. left. split; [done|]. split; [done|].
    by apply lookup_lt_Some in Hsj.
Qed.

(** X15: ["k"], whose two hash indices are in use, goes to slot 0. *)
Lemma X15_witness :
  linear.in_range shelf
  /\ linear.insert identity_key "k"%string shelf
     = linear.Ok (0%Z, assigned shelf 0 "k"%string)
  /\ (0 <= 0)%Z
  /\ linear.find identity_key "k"%string (assigned shelf 0 "k"%string) = linear.Ok 0%Z.
Proof.
  split; [apply shelf_in_range|]. split; [reflexivity|]. split; [lia|].
  apply (X15_insert_then_find identity_key shelf (assigned shelf 0 "k"%string) "k"%string 0);
    [apply shelf_in_range | reflexivity | lia].
Defined.

(** X16.  [insert] either returns -1 and leaves the table as it is, or
    returns the index of a slot that was not in use and assigns the item to
    that slot, changing nothing else. *)
Theorem X16_insert_writes_one_free_slot {Item_t Key_t : Type} `{EqDecision Key_t}
    (m_key_fn : Item_t -> Key_t) (t t' : linear.table) (it : Item_t) (index : Z) :
  linear.in_range t ->
  linear.insert m_key_fn it t = linear.Ok (index, t') ->
  (index = (-1)%Z /\ t' = t)
  \/ (exists j sj, index = Z.of_nat j /\ linear.m_tab t !! j = Some sj
        /\ linear.type sj <> linear.USED
        /\ linear.m_tab t' = <[j := linear.slot_assign it]> (linear.m_tab t)
        /\ linear.m_hash_fn t' = linear.m_hash_fn t
        /\ linear.item_cnt t' = linear.item_cnt t
        /\ linear.capacity t' = linear.capacity t).
Proof.
  intros Hr Hins.
  destruct (insert_cases _ _ _ _ _ Hr Hins)
    as [?|(j & sj & -> & -> & Hsj & Hty & _)]; [by left|].
  right. by exists j, sj.
Qed.

(** X16 on the table holding ["a"] and ["f"], inserting ["k"]. *)
Lemma X16_witness :
  linear.in_range shelf
  /\ linear.insert identity_key "k"%string shelf
     = linear.Ok (0%Z, assigned shelf 0 "k"%string)
  /\ ((0%Z = (-1)%Z /\ assigned shelf 0 "k"%string = shelf)
      \/ (exists j sj, 0%Z = Z.of_nat j /\ linear.m_tab shelf !! j = Some sj
            /\ linear.type sj <> linear.USED
            /\ linear.m_tab (assigned shelf 0 "k"%string)
               = <[j := linear.slot_assign "k"%string]> (linear.m_tab shelf)
            /\ linear.m_hash_fn (assigned shelf 0 "k"%string) = linear.m_hash_fn shelf
            /\ linear.item_cnt (assigned shelf 0 "k"%string) = linear.item_cnt shelf
            /\ linear.capacity (assigned shelf 0 "k"%string) = linear.capacity shelf)).
Proof.
  split; [apply shelf_in_range|]. split; [reflexivity|].
  apply (X16_insert_writes_one_free_slot identity_key shelf
           (assigned shelf 0 "k"%string) "k"%string 0);
    [apply shelf_in_range | reflexivity].
Defined.

(** X17.  In a table without [AVAIL] slots, [insert] of an item whose key
    [find] finds returns -1 and leaves the table as it is. *)
Theorem X17_duplicate_key_refused {Item_t Key_t : Type} `{EqDecision Key_t}
    (m_key_fn : Item_t -> Key_t) (t : linear.table) (it : Item_t) (f : Z) :
  linear.in_range t -> linear.no_avail t ->
  linear.find m_key_fn (m_key_fn it) t = linear.Ok f -> (0 <= f)%Z ->
  linear.insert m_key_fn it t = linear.Ok ((-1)%Z, t).
Proof. apply insert_duplicate. Qed.

(** X17 on the table holding ["a"] and ["f"], inserting ["f"] again. *)
Lemma X17_witness :
  linear.in_range shelf /\ linear.no_avail shelf
  /\ linear.find identity_key "f"%string shelf = linear.Ok 4%Z /\ (0 <= 4)%Z
  /\ linear.insert identity_key "f"%string shelf = linear.Ok ((-1)%Z, shelf).
Proof.
  split; [apply shelf_in_range|]. split; [apply shelf_no_avail|].
  split; [reflexivity|]. split; [lia|].
  apply (X17_duplicate_key_refused identity_key shelf "f"%string 4);
    [apply shelf_in_range | apply shelf_no_avail | reflexivity | lia].
Defined.

(** X18.  A key that [find] finds stays at its index through any sequence
    of calls of [insert] (the loop of the unit test), whatever is
    inserted. *)
Theorem X18_items_stay {Item_t Key_t : Type} `{EqDecision Key_t}
    (m_key_fn : Item_t -> Key_t) (t t' : linear.table) (key : Key_t) (f : Z)
    (items : list Item_t) :
  linear.in_range t -> linear.no_avail t ->
  linear.find m_key_fn key t = linear.Ok f -> (0 <= f)%Z ->
  inserts m_key_fn items t = linear.Ok t' ->
  linear.find m_key_fn key t' = linear.Ok f.
Proof. apply inserts_keep. Qed.

(** X18: ["a"] stays at slot 2 while ["k"], ["f"] and ["b"] are inserted. *)
Lemma X18_witness :
  linear.in_range shelf /\ linear.no_avail shelf
  /\ linear.find identity_key "a"%string shelf = linear.Ok 2%Z /\ (0 <= 2)%Z
  /\ linear.find identity_key "a"%string
       (assigned (assigned shelf 0 "k"%string) 3 "b"%string) = linear.Ok 2%Z.
Proof.
  split; [apply shelf_in_range|]. split; [apply shelf_no_avail|].
  split; [reflexivity|]. split; [lia|].
  apply (X18_items_stay identity_key shelf _ "a"%string 2 ["k"; "f"; "b"]%string);
    [apply shelf_in_range | apply shelf_no_avail | reflexivity | lia | reflexivity].
Defined.

(** X19.  An index [find] returns (>= 0) is that of a slot in use whose
    item has the key looked for. *)
Theorem X19_find_is_sound {Item_t Key_t : Type} `{EqDecision Key_t}
    (m_key_fn : Item_t -> Key_t) (t : linear.table) (key : Key_t) (f : Z) :
  linear.in_range t ->
  linear.find m_key_fn key t = linear.Ok f -> (0 <= f)%Z ->
  exists s, linear.m_tab t !! Z.to_nat f = Some s
            /\ linear.type s = linear.USED /\ m_key_fn (linear.item s) = key.
Proof.
  intros Hr. rewrite find_overfill by done. intros [= <-] Hf.
  destruct (used_slot_spec m_key_fn _ _ _ Hf) as (i & s & -> & _ & Hs & Hty & Hkey).
  exists s. by rewrite Nat2Z.id.
Qed.

(** X19 on the table holding ["a"] and ["f"]. *)
Lemma X19_witness :
  linear.in_range shelf
  /\ linear.find identity_key "f"%string shelf = linear.Ok 4%Z /\ (0 <= 4)%Z
  /\ exists s, linear.m_tab shelf !! Z.to_nat 4 = Some s
               /\ linear.type s = linear.USED /\ identity_key (linear.item s) = "f"%string.
Proof.
  split; [apply shelf_in_range|]. split; [reflexivity|]. split; [lia|].
  apply (X19_find_is_sound identity_key shelf "f"%string 4);
    [apply shelf_in_range | reflexivity | lia].
Defined.

(** X20.  The loop of insertions returns, and leaves [size()],
    [capacity()] and [item_cnt()] as they were: the item count is not
    incremented by [insert].  The hash functions stay in range, and no slot
    becomes [AVAIL]. *)
Theorem X20_item_count_unchanged {Item_t Key_t : Type} `{EqDecision Key_t}
    (m_key_fn : Item_t -> Key_t) (t : linear.table) (items : list Item_t) :
  linear.in_range t ->
  exists t', inserts m_key_fn items t = linear.Ok t'
    /\ linear.item_cnt t' = linear.item_cnt t
    /\ linear.size t' = linear.size t
    /\ linear.capacity t' = linear.capacity t
    /\ linear.in_range t'
    /\ (linear.no_avail t -> linear.no_avail t').
Proof.
  intros Hr. destruct (inserts_returns m_key_fn items t Hr) as [t' Ht']. exists t'.
  destruct (inserts_invariants m_key_fn items t t' Hr Ht') as (? & ? & ? & ? & ? & _).
  done.
Qed.

(** X20 on the table of 5 strings: two items stored, [item_cnt()] is 0. *)
Lemma X20_witness :
  linear.in_range (string_table 5 4)
  /\ inserts identity_key ["a"; "f"]%string (string_table 5 4) = linear.Ok shelf
  /\ linear.item_cnt shelf = 0.
Proof.
  split; [apply string_table_in_range; lia|]. split; [reflexivity|].
  destruct (X20_item_count_unchanged identity_key (string_table 5 4) ["a"; "f"]%string
              (string_table_in_range 5 4 ltac:(lia))) as (t' & Ht' & Hcnt & _).
  injection Ht' as <-. exact Hcnt.
Defined.

(** X21.  After the loop of insertions every item of the loop has its key
    in the table, unless the table is full at the end (every slot in use);
    the table has no [AVAIL] slot and its item count is below its
    capacity at the start. *)
Theorem X21_inserted_items_are_found {Item_t Key_t : Type} `{EqDecision Key_t}
    (m_key_fn : Item_t -> Key_t) (t t' : linear.table) (items : list Item_t) :
  linear.in_range t -> linear.no_avail t ->
  linear.item_cnt t < linear.capacity t ->
  inserts m_key_fn items t = linear.Ok t' ->
  ~ full t' ->
  forall it, it ∈ items ->
    exists f, (0 <= f)%Z /\ linear.find m_key_fn (m_key_fn it) t' = linear.Ok f.
Proof. apply inserts_found. Qed.

(** X21 on the table of 5 strings and the items ["a"], ["f"]. *)
Lemma X21_witness :
  linear.in_range (string_table 5 4) /\ linear.no_avail (string_table 5 4)
  /\ linear.item_cnt (string_table 5 4) < linear.capacity (string_table 5 4)
  /\ inserts identity_key ["a"; "f"]%string (string_table 5 4) = linear.Ok shelf
  /\ ~ full shelf
  /\ forall it, it ∈ ["a"; "f"]%string ->
       exists f, (0 <= f)%Z /\ linear.find identity_key (identity_key it) shelf = linear.Ok f.
Proof.
  split; [apply string_table_in_range; lia|].
  split; [apply all_empty_no_avail, string_table_all_empty|].
  split; [vm_compute; lia|]. split; [reflexivity|]. split; [apply shelf_not_full|].
  apply (X21_inserted_items_are_found identity_key (string_table 5 4) shelf);
    [apply string_table_in_range; lia | apply all_empty_no_avail, string_table_all_empty
    | vm_compute; lia | reflexivity | apply shelf_not_full].
Defined.

(** X22.  In a table filled by insertions from an empty one, every item is
    found at its own slot, and no two slots hold items of the same key. *)
Theorem X22_no_key_twice {Item_t Key_t : Type} `{EqDecision Key_t}
    (m_key_fn : Item_t -> Key_t) (t t' : linear.table) (items : list Item_t) :
  linear.in_range t -> all_empty t ->
  inserts m_key_fn items t = linear.Ok t' ->
  forall i si, linear.m_tab t' !! i = Some si -> linear.type si = linear.USED ->
    linear.find m_key_fn (m_key_fn (linear.item si)) t' = linear.Ok (Z.of_nat i)
    /\ forall j sj, linear.m_tab t' !! j = Some sj -> linear.type sj = linear.USED ->
         m_key_fn (linear.item si) = m_key_fn (linear.item sj) -> i = j.
Proof.
  intros Hr Hempty Hins.
  assert (Hself : self_found m_key_fn t').
  { apply (inserts_self_found m_key_fn items t); try done.
    - by apply all_empty_no_avail.
    - by apply all_empty_self_found. }
  destruct (inserts_invariants m_key_fn items t t' Hr Hins) as (Hr' & _).
  intros i si Hsi Hti. split.
  - rewrite find_overfill by done. f_equal. by apply Hself.
  - intros j sj Hsj Htj Hkey. by apply (self_found_unique m_key_fn t' i j si sj).
Qed.

(** X22 on the table of 5 strings after ["a"], ["f"], ["a"]. *)
Lemma X22_witness :
  linear.in_range (string_table 5 4) /\ all_empty (string_table 5 4)
  /\ inserts identity_key ["a"; "f"; "a"]%string (string_table 5 4) = linear.Ok shelf
  /\ forall i si, linear.m_tab shelf !! i = Some si -> linear.type si = linear.USED ->
       linear.find identity_key (identity_key (linear.item si)) shelf
       = linear.Ok (Z.of_nat i)
       /\ forall j sj, linear.m_tab shelf !! j = Some sj -> linear.type sj = linear.USED ->
            identity_key (linear.item si) = identity_key (linear.item sj) -> i = j.
Proof.
  split; [apply string_table_in_range; lia|]. split; [apply string_table_all_empty|].
  split; [reflexivity|].
  apply (X22_no_key_twice identity_key (string_table 5 4) shelf ["a"; "f"; "a"]%string);
    [apply string_table_in_range; lia | apply string_table_all_empty | reflexivity].
Defined.

(** X23.  In a table whose slots are all in use by items of other keys,
    [find] returns -1 and [insert] of an item of that key returns -1 and
    leaves the table as it is: the search stops after one round through the
    table. *)
Theorem X23_full_table {Item_t Key_t : Type} `{EqDecision Key_t}
    (m_key_fn : Item_t -> Key_t) (t : linear.table) (it : Item_t) :
  linear.in_range t ->
  (forall i s, linear.m_tab t !! i = Some s ->
     linear.type s = linear.USED /\ m_key_fn (linear.item s) <> m_key_fn it) ->
  linear.find m_key_fn (m_key_fn it) t = linear.Ok (-1)%Z
  /\ linear.insert m_key_fn it t = linear.Ok ((-1)%Z, t).
Proof.
  intros Hr Hfull.
  destruct (free_slot_full m_key_fn t (m_key_fn it) (linear.probes t (m_key_fn it)) Hfull)
    as [Hfree Hused].
  split.
  - rewrite find_overfill by done. by rewrite Hused.
  - rewrite insert_assigned by done. cbn zeta. rewrite Hfree. by destruct (_ <? _).
Qed.

(** X23 on the table of 2 slots holding ["b"] and ["a"], with ["k"]. *)
Lemma X23_witness :
  linear.in_range full_shelf
  /\ linear.find identity_key (identity_key "k"%string) full_shelf = linear.Ok (-1)%Z
  /\ linear.insert identity_key "k"%string full_shelf = linear.Ok ((-1)%Z, full_shelf).
Proof.
  split; [apply full_shelf_in_range|].
  apply (X23_full_table identity_key full_shelf "k"%string);
    [apply full_shelf_in_range | apply full_shelf_other_keys].
Defined.

(** X24.  While the item count is not below the capacity, [insert] returns
    -1 without looking at the table; as the count never changes, so does
    every later [insert]. *)
Theorem X24_overfill {Item_t Key_t : Type} `{EqDecision Key_t}
    (m_key_fn : Item_t -> Key_t) (t : linear.table) (items : list Item_t) :
  linear.capacity t <= linear.item_cnt t ->
  (forall it, linear.insert m_key_fn it t = linear.Ok ((-1)%Z, t))
  /\ inserts m_key_fn items t = linear.Ok t.
Proof.
  intros Hfill. assert (Hins : forall it, linear.insert m_key_fn it t = linear.Ok ((-1)%Z, t)).
  { intros it. by apply insert_overfill. }
  split; [done|]. induction items as [|it items IH]; [done|].
  cbn [inserts]. by rewrite Hins.
Qed.

(** X24 on a table of one string with capacity 0, which is what the
    constructor makes of [size = 1] and the default capacity when
    [0.85 * 1] is converted to 0. *)
Lemma X24_witness :
  linear.capacity (string_table 1 0) <= linear.item_cnt (string_table 1 0)
  /\ linear.linear EmptyString (fun size => size * 85 / 100) 1
       [primary_hash_fn; secondary_hash_fn] 0 = linear.Ok (string_table 1 0)
  /\ inserts identity_key ["a"; "f"]%string (string_table 1 0)
     = linear.Ok (string_table 1 0).
Proof.
  split; [vm_compute; lia|]. split; [reflexivity|].
  apply (X24_overfill identity_key (string_table 1 0) ["a"; "f"]%string). vm_compute. lia.
Defined.

(** X25.  In a table without [AVAIL] slots, [operator []] on a key that
    [find] finds returns the item at that index, whose key is the one
    asked for, and leaves the table as it is. *)
Theorem X25_subscript_of_present_key {Item_t Key_t : Type} `{EqDecision Key_t}
    (m_key_fn : Item_t -> Key_t) (Item_t_default : Item_t)
    (t : linear.table) (key : Key_t) (f : Z) :
  linear.in_range t -> linear.no_avail t ->
  linear.find m_key_fn key t = linear.Ok f -> (0 <= f)%Z ->
  exists s, linear.m_tab t !! Z.to_nat f = Some s
            /\ m_key_fn (linear.item s) = key
            /\ linear.subscript m_key_fn Item_t_default key t = linear.Ok (linear.item s, t).
Proof.
  intros Hr Hna. rewrite find_overfill by done. intros [= <-] Hf.
  destruct (used_slot_spec m_key_fn _ _ _ Hf) as (i & s & Hi & _ & Hs & Hty & Hkey).
  exists s. rewrite subscript_cases by done. cbn zeta.
  rewrite Hi in *. rewrite Nat2Z.id, Hs.
  split; [done|]. split; [done|]. by destruct (Z.leb_spec 0 (Z.of_nat i)); [|lia].
Qed.

(** X25 on the table holding ["a"] and ["f"]. *)
Lemma X25_witness :
  linear.in_range shelf /\ linear.no_avail shelf
  /\ linear.find identity_key "f"%string shelf = linear.Ok 4%Z /\ (0 <= 4)%Z
  /\ exists s, linear.m_tab shelf !! Z.to_nat 4 = Some s
               /\ identity_key (linear.item s) = "f"%string
               /\ linear.subscript identity_key EmptyString "f"%string shelf
                  = linear.Ok (linear.item s, shelf).
Proof.
  split; [apply shelf_in_range|]. split; [apply shelf_no_avail|].
  split; [reflexivity|]. split; [lia|].
  apply (X25_subscript_of_present_key identity_key EmptyString shelf "f"%string 4);
    [apply shelf_in_range | apply shelf_no_avail | reflexivity | lia].
Defined.

(** X26.  In a table without [AVAIL] slots, [operator []] on a key that
    [find] does not find throws "table overfill" when [insert] of an item
    of that key would return -1; otherwise it assigns [Item_t()] to the
    slot [insert] would take for the key and returns it.  The slot is
    chosen by [key] but holds the key of [Item_t()]: [find(key)] finds it
    when the two are the same. *)
Theorem X26_subscript_of_absent_key {Item_t Key_t : Type} `{EqDecision Key_t}
    (m_key_fn : Item_t -> Key_t) (Item_t_default : Item_t)
    (t : linear.table) (key : Key_t) (index : Z) :
  linear.in_range t -> linear.no_avail t ->
  linear.find m_key_fn key t = linear.Ok (-1)%Z ->
  linear.insert_index m_key_fn t key = linear.Ok index ->
  linear.subscript m_key_fn Item_t_default key t
  = (if (index <? 0)%Z
     then linear.Failed (linear.runtime_error "libaccl::hash::linear::[]: table overfill")
     else linear.Ok (Item_t_default, assigned t (Z.to_nat index) Item_t_default))
  /\ ((0 <= index)%Z -> m_key_fn Item_t_default = key ->
      linear.find m_key_fn key (assigned t (Z.to_nat index) Item_t_default)
      = linear.Ok index).
Proof.
  intros Hr Hna. rewrite find_overfill, insert_index_free_slot by done.
  intros [= Hused] [= Hindex]. split.
  - rewrite subscript_cases by done. cbn zeta. by rewrite Hused, Hindex.
  - intros H0 Hkey. destruct (Nat.ltb_spec (linear.m_item_cnt t) (linear.m_capacity t));
      [|lia]. subst key.
    replace index with (Z.of_nat (Z.to_nat index)) at 2 by lia.
    apply find_assigned; [done|]. lia.
Qed.

(** X26 on the table holding ["a"] and ["f"]: [tab["k"]] stores the empty
    string in slot 0, and ["k"] is still not found. *)
Lemma X26_witness :
  linear.in_range shelf /\ linear.no_avail shelf
  /\ linear.find identity_key "k"%string shelf = linear.Ok (-1)%Z
  /\ linear.insert_index identity_key shelf "k"%string = linear.Ok 0%Z
  /\ linear.subscript identity_key EmptyString "k"%string shelf
     = linear.Ok (EmptyString, assigned shelf 0 EmptyString)
  /\ linear.find identity_key "k"%string (assigned shelf 0 EmptyString)
     = linear.Ok (-1)%Z.
Proof.
  split; [apply shelf_in_range|]. split; [apply shelf_no_avail|].
  split; [reflexivity|]. split; [reflexivity|]. split; [|reflexivity].
  apply (X26_subscript_of_absent_key identity_key EmptyString shelf "k"%string 0);
    [apply shelf_in_range | apply shelf_no_avail | reflexivity | reflexivity].
Defined.
